(** * Confocal-Pro: the image alignment and normalisation pipeline

    A shallow embedding of [src/utils/imageProcessing.ts]
    ([computeIntegralImage], [getRectSum], [findCoBrightestROI] and
    [processRow] with its inner [processChannel] and merge loop) together
    with the properties the specification states about them.

    Conventions of the embedding
    - a JavaScript array index is a [Z]; reading outside the array gives
      [None] (JavaScript's [undefined]) and writing outside a typed array
      is ignored;
    - the brightness arithmetic of the integral image is written once,
      over an interface [NumberModel]. The code's numbers are the model
      [ieee]: IEEE-754 binary64 with a binary32 table (what the source's
      [number] and [Float32Array] are), on the Standard Library's
      [SpecFloat]. The model of exact rationals is used where a property
      holds for every number model, and in examples;
    - the crop size is embedded twice. [cropSize64] and
      [findCoBrightestROI64] take the ratio, [width / ratio] and
      [h * ratio] in binary64 and floor them as [Math.floor] does; the
      properties of the size are stated on them. [cropSize], inside the
      [findCoBrightestROI] that is generic in the number model, takes them
      in exact rational arithmetic; what is stated on it (containment, the
      stride of the corner, the rasters read) holds in binary64 as well;
    - the intensity scale of [processChannel] is taken in exact rational
      arithmetic, and [processRow] hands the arrays of [processChannel] to
      the merge loop without the [putImageData] and [getImageData] in
      between; what is stated of the arrays it returns (the range of the
      bytes, their order, the draw that does not matter when [randomness]
      is 0) holds however the scale rounds;
    - [Math.random] is an explicit stream of draws threaded through the
      calls; the browser's canvas resampling ([drawImage]) is a parameter,
      and the canvas calls are taken to succeed, which needs a positive
      target size; the text labels drawn on the final canvas are left
      out.

    The second part embeds the state handling of the component [App]
    ([src/unnamed/part_000]): the history ([pushToHistory], [undo],
    [redo]), the handlers that edit the rows, the two effects that call
    [processRow], [updateRowWithProcess] and the layout of
    [handleDownload].
    - the state of [App] is a record of [rows], [config] and [history];
      a handler is a function on the state of the render it was created
      in, and its [set...] calls are applied in the order they are made;
    - [null] is [None]; a [File] is known by its name;
    - reading a file ([decodeTiff], [handleUpdateRow]) and what the
      browser does with the montage ([toBlob] and the download) are not
      embedded.

    The third part gives the operations of [SpecFloat] their values:
    what rounding to nearest even returns, and from it the error of
    [SFadd], [SFsub], [SFmul] and [SFdiv] and the side of an integer
    they round to. The properties of the binary64 crop and of the
    binary64 brightness sums rest on it. *)

From Stdlib Require Import ZArith QArith Qcanon Qround Lia Lqa Qabs String.
From Stdlib Require Import Floats.SpecFloat Qpower.
From stdpp Require Import base list numbers.

Local Open Scope Z_scope.

(** ** JavaScript values the code relies on *)

(** A call either returns or throws; an error is known by its name. *)
Inductive completion (A : Type) : Type :=
| Normal (v : A)
| Throw (name : string).
Arguments Normal {A} v.
Arguments Throw {A} name.

(** [a[i]]: [undefined] outside the array. *)
Definition index {A : Type} (a : list A) (i : Z) : option A :=
  if i <? 0 then None else a !! Z.to_nat i.

(** [a[i] = v] on a typed array: ignored outside the array. *)
Definition store {A : Type} (a : list A) (i : Z) (v : A) : list A :=
  if i <? 0 then a else <[Z.to_nat i := v]> a.

(** [for (let i = start; cond(i); i += step) body]: [fuel] bounds the
    number of iterations. *)
Fixpoint for_loop {S : Type} (fuel : nat) (i : Z) (cond : Z -> bool)
    (step : Z) (body : Z -> S -> S) (s : S) : S :=
  match fuel with
  | O => s
  | Datatypes.S fuel' =>
      if cond i then for_loop fuel' (i + step) cond step body (body i s)
      else s
  end.

(** Iterations of [for (i = 0; i <= limit; i += step)] with [step > 0]. *)
Definition trips (limit step : Z) : nat :=
  if limit <? 0 then O else Z.to_nat (limit / step + 1).

(** ** Arithmetic of the brightness sums *)

Class NumberModel : Type := {
  num : Type;
  nan : num;
  ofInt : Z -> num;
  c0299 : num;
  c0587 : num;
  c0114 : num;
  add : num -> num -> num;
  sub : num -> num -> num;
  mul : num -> num -> num;
  gtb : num -> num -> bool;
  (** conversion on a store into a [Float32Array] *)
  fround : num -> num
}.

(** ** Data *)

Record ImageData : Type := {
  width : Z;
  height : Z;
  data : list Z
}.

Record Rect : Type := {
  rx : Z;
  ry : Z;
  rw : Z;
  rh : Z
}.

Record ProcessingConfig : Type := {
  targetWidth : Z;
  targetHeight : Z;
  targetIntensity : Qc;
  padding : Z;
  randomness : Qc;
  clipBottom : Z
}.

Section IntegralImage.
Context {N : NumberModel}.

(** An element of a [Uint8ClampedArray] used as a number. *)
Definition byteNum (o : option Z) : num :=
  match o with Some b => ofInt b | None => nan end.

(** An element of a [Float32Array] used as a number. *)
Definition cellNum (o : option num) : num :=
  match o with Some v => v | None => nan end.

Definition luminance (data : list Z) (idx : Z) : num :=
  add (add (mul c0299 (byteNum (index data idx)))
           (mul c0587 (byteNum (index data (idx + 1)))))
      (mul c0114 (byteNum (index data (idx + 2)))).

(** Body of the inner loop; the state is [(rowSum, integral)]. *)
Definition integralCell (data : list Z) (width y x : Z)
    (s : num * list num) : num * list num :=
  let '(rowSum, integral) := s in
  let idx := (y * width + x) * 4 in
  let lum := luminance data idx in
  let rowSum := add rowSum lum in
  if y =? 0 then
    (rowSum, store integral (y * width + x) (fround rowSum))
  else
    (rowSum,
     store integral (y * width + x)
       (fround (add rowSum (cellNum (index integral ((y - 1) * width + x)))))).

Definition integralRow (data : list Z) (width y : Z)
    (integral : list num) : list num :=
  snd (for_loop (Z.to_nat width) 0 (fun x => x <? width) 1
         (integralCell data width y) (ofInt 0, integral)).

Definition computeIntegralImage (data : list Z) (width height : Z)
    : list num :=
  for_loop (Z.to_nat height) 0 (fun y => y <? height) 1
    (integralRow data width)
    (replicate (Z.to_nat (width * height)) (ofInt 0)).

Definition getRectSum (integral : list num) (width x y w h : Z) : num :=
  let x2 := x + w - 1 in
  let y2 := y + h - 1 in
  let A := if (0 <? x) && (0 <? y)
           then cellNum (index integral ((y - 1) * width + (x - 1)))
           else ofInt 0 in
  let B := if 0 <? y then cellNum (index integral ((y - 1) * width + x2))
           else ofInt 0 in
  let C := if 0 <? x then cellNum (index integral (y2 * width + (x - 1)))
           else ofInt 0 in
  let D := cellNum (index integral (y2 * width + x2)) in
  add (sub (sub D B) C) A.

(** The crop size, before the scan. *)
Definition cropSize (w h : Z) (targetAspectRatio : Q) : Z * Z :=
  let cropW := w in
  let cropH := Qfloor (inject_Z w / targetAspectRatio) in
  if cropH >? h then (Qfloor (inject_Z h * targetAspectRatio), h)
  else (cropW, cropH).

Definition stride : Z := 4.

(** Body of the inner scan loop; the state is
    [(maxBrightness, bestX, bestY)]. *)
Definition scanCell (integral1 integral2 : list num) (w cropW cropH y x : Z)
    (s : num * Z * Z) : num * Z * Z :=
  let '(maxBrightness, bestX, bestY) := s in
  let sum1 := getRectSum integral1 w x y cropW cropH in
  let sum2 := getRectSum integral2 w x y cropW cropH in
  let total := add sum1 sum2 in
  if gtb total maxBrightness then (total, x, y)
  else (maxBrightness, bestX, bestY).

Definition scanRow (integral1 integral2 : list num) (w cropW cropH y : Z)
    (s : num * Z * Z) : num * Z * Z :=
  for_loop (trips (w - cropW) stride) 0 (fun x => x <=? w - cropW) stride
    (scanCell integral1 integral2 w cropW cropH y) s.

Definition findCoBrightestROI (img1 img2 : ImageData)
    (targetAspectRatio : Q) (clipBottom : Z) : Rect :=
  let w := width img1 in
  let h := Z.max 1 (height img1 - clipBottom) in
  let '(cropW, cropH) := cropSize w h targetAspectRatio in
  let integral1 := computeIntegralImage (data img1) w (height img1) in
  let integral2 := computeIntegralImage (data img2) w (height img1) in
  let '(_, bestX, bestY) :=
    for_loop (trips (h - cropH) stride) 0 (fun y => y <=? h - cropH) stride
      (scanRow integral1 integral2 w cropW cropH)
      (ofInt (-1), 0, 0) in
  {| rx := bestX; ry := bestY; rw := cropW; rh := cropH |}.
End IntegralImage.

(** ** Channel normalisation, merge and layout *)

(** [Math.random]: the state is the sequence of draws still to come. *)
Definition RandomState : Type := nat -> Qc.

Definition Math_random (s : RandomState) : Qc * RandomState :=
  (s O, fun n => s (Datatypes.S n)).

(** Conversion of a number stored into a [Uint8ClampedArray]: clamp to
    [0, 255] and round to the nearest integer, ties to even. *)
Definition toUint8Clamp (q : Qc) : Z :=
  let f := Qfloor q in
  if f <? 0 then 0
  else if 255 <=? f then 255
  else
    match Qccompare (q - Q2Qc (inject_Z f)) (Q2Qc (1 # 2)) with
    | Lt => f
    | Gt => f + 1
    | Eq => if Z.even f then f else f + 1
    end.

(** [Math.min(a, b)]. *)
Definition Math_min (a b : Qc) : Qc :=
  match Qccompare a b with Gt => b | _ => a end.

(** [Math.max(a, b, c)] on array elements; [None] is [NaN]. *)
Definition max3 (a b c : option Z) : option Z :=
  match a, b, c with
  | Some a, Some b, Some c => Some (Z.max (Z.max a b) c)
  | _, _, _ => None
  end.

(** Body of the first loop of [processChannel]: the running [max]. *)
Definition maxCell (data : list Z) (i : Z) (max : Z) : Z :=
  match max3 (index data i) (index data (i + 1)) (index data (i + 2)) with
  | Some val => if val >? max then val else max
  | None => max
  end.

(** [Math.min(255, data[k] * scale)] converted on the store; an
    [undefined] element makes the product [NaN], stored as 0. *)
Definition scaledByte (o : option Z) (scale : Qc) : Z :=
  match o with
  | Some v => toUint8Clamp (Math_min (Q2Qc 255) (Q2Qc (inject_Z v) * scale))
  | None => 0
  end.

(** Body of the second loop of [processChannel]. *)
Definition scaleCell (scale : Qc) (i : Z) (data : list Z) : list Z :=
  let r := scaledByte (index data i) scale in
  let g := scaledByte (index data (i + 1)) scale in
  let b := scaledByte (index data (i + 2)) scale in
  store (store (store data i r) (i + 1) g) (i + 2) b.

(** Iterations of [for (i = 0; i < n; i += 4)]. *)
Definition quads (n : Z) : nat := Z.to_nat ((n + 3) / 4).

Definition len {A : Type} (a : list A) : Z := Z.of_nat (length a).

(** The first loop of [processChannel]: [max], starting from 1. *)
Definition channelMax (data : list Z) : Z :=
  for_loop (quads (len data)) 0 (fun i => i <? len data) 4 (maxCell data) 1.

(** The second loop of [processChannel], on the array [data] itself. *)
Definition applyScale (scale : Qc) (data : list Z) : list Z :=
  for_loop (quads (len data)) 0 (fun i => i <? len data) 4 (scaleCell scale) data.

Section Pipeline.
Context {N : NumberModel}.

(** The canvas calls of [processChannel] taken together:
    [putImageData] of the source, [drawImage] of the crop [roi] onto a
    canvas of the target size, and [getImageData] of the whole canvas. *)
Variable drawImage : ImageData -> Rect -> Z -> Z -> list Z.

Definition processChannel (config : ProcessingConfig) (source : ImageData)
    (roi : Rect) (s : RandomState) : list Z * RandomState :=
  let data := drawImage source roi (targetWidth config) (targetHeight config) in
  let max := channelMax data in
  let '(u, s) := Math_random s in
  let randomShift := (u * randomness config - randomness config / Q2Qc 2)%Qc in
  let stochastic := (1 + randomShift)%Qc in
  let target := (targetIntensity config * stochastic)%Qc in
  let scale := (target / Q2Qc (inject_Z max))%Qc in
  (applyScale scale data, s).

(** Elements read in the merge loop. *)
Definition optEqb (a b : option Z) : bool :=
  match a, b with
  | Some a, Some b => a =? b
  | None, None => true
  | _, _ => false
  end.

(** [Math.min(255, a + b)] stored into a [Uint8ClampedArray]. *)
Definition addClamp (a b : option Z) : Z :=
  match a, b with
  | Some a, Some b => Z.max 0 (Z.min 255 (a + b))
  | _, _ => 0
  end.

(** An array element stored into a [Uint8ClampedArray]. *)
Definition copyByte (a : option Z) : Z :=
  match a with
  | Some a => Z.max 0 (Z.min 255 a)
  | None => 0
  end.

(** Body of the merge loop of [processRow]. *)
Definition mergeCell (d1 d2 : list Z) (i : Z) (mData : list Z) : list Z :=
  let gray1 := index d1 i in
  let gray2 := index d2 i in
  let isGray1 := optEqb (index d1 i) (index d1 (i + 1))
                 && optEqb (index d1 (i + 1)) (index d1 (i + 2)) in
  let mData :=
    if isGray1 then
      store (store (store mData i (copyByte gray2))
               (i + 1) (copyByte gray1)) (i + 2) 0
    else
      store (store (store mData i (addClamp (index d1 i) (index d2 i)))
               (i + 1) (addClamp (index d1 (i + 1)) (index d2 (i + 1))))
        (i + 2) (addClamp (index d1 (i + 2)) (index d2 (i + 2))) in
  store mData (i + 3) 255.

Definition merge (d1 d2 : list Z) (targetWidth targetHeight : Z) : list Z :=
  let mData := replicate (Z.to_nat (targetWidth * targetHeight * 4)) 0 in
  for_loop (quads (len mData)) 0 (fun i => i <? len mData) 4
    (mergeCell d1 d2) mData.

(** What [processRow] draws: the three panels and the size of the final
    canvas. [roi] is the crop both channels were cut with. *)
Record Figure : Type := {
  roi : Rect;
  panel1 : list Z;
  panel2 : list Z;
  merged : list Z;
  finalWidth : Z;
  finalHeight : Z
}.

Definition processRow (img1 img2 : ImageData) (config : ProcessingConfig)
    (s : RandomState) : completion Figure * RandomState :=
  let ratio := (inject_Z (targetWidth config) / inject_Z (targetHeight config))%Q in
  let roi := findCoBrightestROI img1 img2 ratio (clipBottom config) in
  let '(c1, s) := processChannel config img1 roi s in
  let '(c2, s) := processChannel config img2 roi s in
  let mData := merge c1 c2 (targetWidth config) (targetHeight config) in
  (Normal {| roi := roi; panel1 := c1; panel2 := c2; merged := mData;
             finalWidth := targetWidth config * 3 + padding config * 2;
             finalHeight := targetHeight config |}, s).
End Pipeline.

(** ** The two number models *)

(** Exact rationals; [None] is [NaN]. Nothing is rounded. *)
Definition lift2 (f : Qc -> Qc -> Qc) (a b : option Qc) : option Qc :=
  match a, b with
  | Some p, Some q => Some (f p q)
  | _, _ => None
  end.

Definition exact_gtb (a b : option Qc) : bool :=
  match a, b with
  | Some p, Some q => match Qccompare p q with Gt => true | _ => false end
  | _, _ => false
  end.

Definition exact : NumberModel := {|
  num := option Qc;
  nan := None;
  ofInt := fun z => Some (Q2Qc (inject_Z z));
  c0299 := Some (Q2Qc (299 # 1000));
  c0587 := Some (Q2Qc (587 # 1000));
  c0114 := Some (Q2Qc (114 # 1000));
  add := lift2 Qcplus;
  sub := lift2 Qcminus;
  mul := lift2 Qcmult;
  gtb := exact_gtb;
  fround := fun v => v
|}.

(** IEEE-754: a [number] is a binary64, an element of a [Float32Array] a
    binary32 (read back as the binary64 of the same value). *)
Definition b64_of_Z (m e : Z) : spec_float := binary_normalize 53 1024 m e false.

Definition b64_fround (x : spec_float) : spec_float :=
  match x with
  | S754_finite s m e =>
      match binary_normalize 24 128 (cond_Zopp s (Zpos m)) e s with
      | S754_finite s' m' e' => binary_normalize 53 1024 (cond_Zopp s' (Zpos m')) e' s'
      | y => y
      end
  | _ => x
  end.

Definition ieee : NumberModel := {|
  num := spec_float;
  nan := S754_nan;
  ofInt := fun z => b64_of_Z z 0;
  c0299 := b64_of_Z 5386305154335113 (-54);
  c0587 := b64_of_Z 2643612981266481 (-52);
  c0114 := b64_of_Z 8214565720323785 (-56);
  add := SFadd 53 1024;
  sub := SFsub 53 1024;
  mul := SFmul 53 1024;
  gtb := fun a b => SFltb b a;
  fround := b64_fround
|}.

(** The value of a finite binary float. *)
Definition SF2Q (x : spec_float) : option Q :=
  match x with
  | S754_zero _ => Some 0%Q
  | S754_finite s m e =>
      Some (inject_Z (cond_Zopp s (Zpos m)) * Qpower 2 e)%Q
  | _ => None
  end.

(** The sum, pixel by pixel, of the luminance over the rectangle
    [[x, x+w) × [y, y+h)] of a raster [width] pixels wide. *)
Fixpoint sumFrom (n : nat) (i : Z) (f : Z -> Qc) : Qc :=
  match n with
  | O => Q2Qc 0
  | Datatypes.S n' => (f i + sumFrom n' (i + 1) f)%Qc
  end.

Definition pixelLuminance (data : list Z) (width x y : Z) : Qc :=
  let idx := (y * width + x) * 4 in
  let ch k := Q2Qc (inject_Z (default 0 (index data (idx + k)))) in
  (Q2Qc (299 # 1000) * ch 0%Z + Q2Qc (587 # 1000) * ch 1%Z
   + Q2Qc (114 # 1000) * ch 2%Z)%Qc.

Definition bruteForceSum (data : list Z) (width x y w h : Z) : Qc :=
  sumFrom (Z.to_nat h) y (fun j =>
    sumFrom (Z.to_nat w) x (fun i => pixelLuminance data width i j)).

(** One RGBA pixel, and a raster painted with a single colour. *)
Definition px (r g b : Z) : list Z := [r; g; b; 255].

Definition solid (w h r g b : Z) : ImageData :=
  {| width := w; height := h;
     data := mjoin (replicate (Z.to_nat (w * h)) (px r g b)) |}.

(** Examples: a 2 by 2 raster of four colours, and an 8 by 4 raster whose
    left half is black and right half white. *)
Definition fourPixels : ImageData :=
  {| width := 2; height := 2;
     data := px 10 20 30 ++ px 40 50 60 ++ px 70 80 90 ++ px 1 2 3 |}.

Definition halfBright : ImageData :=
  {| width := 8; height := 4;
     data := mjoin (replicate 4 (mjoin (replicate 4 (px 0 0 0))
                                 ++ mjoin (replicate 4 (px 255 255 255)))) |}.

(** Pixel [p] of an RGBA array, when all four components are there. *)
Definition pixelAt (d : list Z) (p : Z) : option (Z * Z * Z * Z) :=
  match index d (4 * p), index d (4 * p + 1), index d (4 * p + 2),
        index d (4 * p + 3) with
  | Some r, Some g, Some b, Some a => Some (r, g, b, a)
  | _, _, _, _ => None
  end.

(** A resampling [drawImage] may perform, for running the pipeline on
    examples: nearest neighbour, transparent black outside the source. *)
Definition drawNearest (source : ImageData) (roi : Rect) (tw th : Z) : list Z :=
  flat_map (fun ty =>
    flat_map (fun tx =>
      let sx := rx roi + Z.of_nat tx * rw roi / tw in
      let sy := ry roi + Z.of_nat ty * rh roi / th in
      if (0 <=? sx) && (sx <? width source) && (0 <=? sy) && (sy <? height source)
      then default [0; 0; 0; 0] (pixelAt (data source) (sy * width source + sx)
                                   ≫= fun '(r, g, b, a) => Some [r; g; b; a])
      else [0; 0; 0; 0])
      (seq 0 (Z.to_nat tw)))
    (seq 0 (Z.to_nat th)).

(** What the scan keeps true of [(maxBrightness, bestX, bestY)]: the best
    corner is a sampled position or the initial [(0, 0)]. *)
Definition scanOK {N : NumberModel} (xmax ymax : Z) (s : num * Z * Z) : Prop :=
  let '(_, bestX, bestY) := s in
  (0 <= bestX <= Z.max 0 xmax /\ (4 | bestX))
  /\ (0 <= bestY <= Z.max 0 ymax /\ (4 | bestY)).

(** Prefix sums of the luminance: along row [y] up to column [x], and over
    the rows up to [y]. Both are 0 when the bound is [-1]. *)
Definition rowPrefix (data : list Z) (width y x : Z) : Qc :=
  sumFrom (Z.to_nat (x + 1)) 0 (fun i => pixelLuminance data width i y).

Definition prefixSum (data : list Z) (width y x : Z) : Qc :=
  sumFrom (Z.to_nat (y + 1)) 0 (fun j => rowPrefix data width j x).

(** A binary float has the value of a rational. *)
Definition floatIs (x : spec_float) (q : Qc) : Prop :=
  match SF2Q x with
  | Some v => (v == this q)%Q
  | None => False
  end.

(** Configurations and random sources of the examples. *)
Definition config0 : ProcessingConfig :=
  {| targetWidth := 2; targetHeight := 2; targetIntensity := Q2Qc 200;
     padding := 10; randomness := Q2Qc (5 # 100); clipBottom := 0 |}.

Definition noJitter (c : ProcessingConfig) : ProcessingConfig :=
  {| targetWidth := targetWidth c; targetHeight := targetHeight c;
     targetIntensity := targetIntensity c; padding := padding c;
     randomness := Q2Qc 0; clipBottom := clipBottom c |}.


Definition draws (u : Qc) : RandomState := fun _ => u.

(** ** Invariants of the loops *)

(** [scale] of [processChannel], for the maximum [max] of the crop and
    the random draw [u]. *)
Definition scaleOf (config : ProcessingConfig) (max : Z) (u : Qc) : Qc :=
  (targetIntensity config
   * (1 + (u * randomness config - randomness config / Q2Qc 2))
   / Q2Qc (inject_Z max))%Qc.

(** What the first loop of [processChannel] keeps: [max] bounds every R,
    G and B of the complete pixels before [i], and is 1 or one of them. *)
Definition maxSoFar (data : list Z) (i max : Z) : Prop :=
  (0 <= i /\ i mod 4 = 0)
  /\ (forall k v, 0 <= k < i -> k mod 4 <> 3 -> 4 * (k / 4) + 2 < len data ->
        index data k = Some v -> v <= max)
  /\ (max = 1 \/ exists k, k mod 4 <> 3 /\ index data k = Some max).

(** ** The component [App]: rows, history and montage *)

(** A [File], known by its name. *)
Definition File : Type := string.

(** [ProcessedRow] of [types.ts]; [null] is [None]. *)
Record ProcessedRow : Type := {
  id : string;
  file1 : option File;
  file2 : option File;
  imgData1 : option ImageData;
  imgData2 : option ImageData;
  processedCanvas : option Figure;
  timestamp : Z;
  rowLabel : string
}.

(** An entry of the history, [{rows, config}]: its two fields are
    [snapRows] and [snapConfig] here. *)
Record Snapshot : Type := {
  snapRows : list ProcessedRow;
  snapConfig : ProcessingConfig
}.

Record History : Type := {
  past : list Snapshot;
  future : list Snapshot
}.

(** The state of [App] the handlers below read and set. A handler is run
    on the state of the render it was created in, and its [set...] calls
    are applied in order. *)
Record AppState : Type := {
  rows : list ProcessedRow;
  config : ProcessingConfig;
  history : History
}.

(** [{ ...r, processedCanvas: c }]. *)
Definition withCanvas (r : ProcessedRow) (c : option Figure) : ProcessedRow :=
  {| id := id r; file1 := file1 r; file2 := file2 r;
     imgData1 := imgData1 r; imgData2 := imgData2 r;
     processedCanvas := c;
     timestamp := timestamp r; rowLabel := rowLabel r |}.

(** [{ rows: rows.map(r => ({ ...r, processedCanvas: null })), config: { ...config } }]. *)
Definition currentSnapshot (st : AppState) : Snapshot :=
  {| snapRows := map (fun r => withCanvas r None) (rows st);
     snapConfig := config st |}.

Definition setRows (newRows : list ProcessedRow) (st : AppState) : AppState :=
  {| rows := newRows; config := config st; history := history st |}.

Definition setConfig (newConfig : ProcessingConfig) (st : AppState) : AppState :=
  {| rows := rows st; config := newConfig; history := history st |}.

Definition setHistory (newHistory : History) (st : AppState) : AppState :=
  {| rows := rows st; config := config st; history := newHistory |}.

Definition pushToHistory (st : AppState) : AppState :=
  let prev := history st in
  let newPast := past prev ++ [currentSnapshot st] in
  let newPast := if 30 <? len newPast then tail newPast else newPast in
  setHistory {| past := newPast; future := [] |} st.

Definition undo (st : AppState) : AppState :=
  if len (past (history st)) =? 0 then st else
  match index (past (history st)) (len (past (history st)) - 1) with
  | None => st
  | Some previous =>
      let newPast := removelast (past (history st)) in
      setRows (snapRows previous)
        (setConfig (snapConfig previous)
           (setHistory {| past := newPast;
                          future := currentSnapshot st :: future (history st) |} st))
  end.

Definition redo (st : AppState) : AppState :=
  if len (future (history st)) =? 0 then st else
  match index (future (history st)) 0 with
  | None => st
  | Some next =>
      let newFuture := tail (future (history st)) in
      setRows (snapRows next)
        (setConfig (snapConfig next)
           (setHistory {| past := past (history st) ++ [currentSnapshot st];
                          future := newFuture |} st))
  end.

(** [handleAddRow]; [newId] is [crypto.randomUUID()] and [now] is
    [Date.now()]. *)
Definition handleAddRow (newId : string) (now : Z) (st : AppState) : AppState :=
  let st := pushToHistory st in
  let newRow := {| id := newId; file1 := None; file2 := None;
                   imgData1 := None; imgData2 := None; processedCanvas := None;
                   timestamp := now; rowLabel := EmptyString |} in
  setRows (rows st ++ [newRow]) st.

Definition handleRemoveRow (id0 : string) (st : AppState) : AppState :=
  let st := pushToHistory st in
  setRows (List.filter (fun r => negb (String.eqb (id r) id0)) (rows st)) st.

(** The row [handleSwap] puts in place of [r]. *)
Definition swapRow (r : ProcessedRow) : ProcessedRow :=
  {| id := id r; file1 := file2 r; file2 := file1 r;
     imgData1 := imgData2 r; imgData2 := imgData1 r;
     processedCanvas := processedCanvas r;
     timestamp := timestamp r; rowLabel := rowLabel r |}.

Definition handleSwap (id0 : string) (st : AppState) : AppState :=
  let st := pushToHistory st in
  setRows (map (fun r => if String.eqb (id r) id0 then swapRow r else r) (rows st)) st.

(** The montage [handleDownload] draws: the size of its canvas and, for
    each row drawn, the figure and the [y] it is drawn at ([x] is 0).
    [None]: the handler returns before it makes a canvas. The 2D
    context of the canvas is taken to be there. *)
Record Montage : Type := {
  canvasWidth : Z;
  canvasHeight : Z;
  placed : list (Figure * Z)
}.

Definition hasCanvas (r : ProcessedRow) : bool :=
  match processedCanvas r with Some _ => true | None => false end.

Definition handleDownload (st : AppState) : option Montage :=
  if len (rows st) =? 0 then None else
  let rowW := targetWidth (config st) * 3 + padding (config st) * 2 in
  let rowH := targetHeight (config st) in
  let verticalGap := 10 in
  let validRows := List.filter hasCanvas (rows st) in
  if len validRows =? 0 then None else
  Some {| canvasWidth := rowW;
          canvasHeight := rowH * len validRows + verticalGap * (len validRows - 1);
          placed := omap (fun d => d)
                      (imap (fun idx row =>
                               match processedCanvas row with
                               | Some c => Some (c, Z.of_nat idx * (rowH + verticalGap))
                               | None => None
                               end) validRows) |}.

Section Effects.
Context {N : NumberModel}.
Variable drawImage : ImageData -> Rect -> Z -> Z -> list Z.

(** [arr.map(f)] where [f] may call [processRow]: the random source is
    threaded from row to row and a [throw] ends the whole call. *)
Fixpoint mapRows (f : ProcessedRow -> RandomState -> completion ProcessedRow * RandomState)
    (l : list ProcessedRow) (s : RandomState)
    : completion (list ProcessedRow) * RandomState :=
  match l with
  | [] => (Normal [], s)
  | r :: l' =>
      match f r s with
      | (Normal r', s) =>
          match mapRows f l' s with
          | (Normal l'', s) => (Normal (r' :: l''), s)
          | (Throw e, s) => (Throw e, s)
          end
      | (Throw e, s) => (Throw e, s)
      end
  end.

(** [{ ...row, processedCanvas: processRow(row.imgData1, row.imgData2, config, ...) }]. *)
Definition regenerate (config : ProcessingConfig) (row : ProcessedRow)
    (img1 img2 : ImageData) (s : RandomState)
    : completion ProcessedRow * RandomState :=
  match processRow drawImage img1 img2 config s with
  | (Normal newCanvas, s) => (Normal (withCanvas row (Some newCanvas)), s)
  | (Throw e, s) => (Throw e, s)
  end.

(** The effect run when [config] changes: every row with both images is
    processed again. The canvas [processRow] returns is a new object, so
    [row.processedCanvas !== newCanvas] holds whenever it is tested; when
    no row is processed the mapped rows are the rows given. The row label
    and [isFirstRow] only reach the text labels. *)
Definition processingLoop (st : AppState) (s : RandomState)
    : completion AppState * RandomState :=
  match mapRows (fun row s =>
                   match imgData1 row, imgData2 row with
                   | Some img1, Some img2 => regenerate (config st) row img1 img2 s
                   | _, _ => (Normal row, s)
                   end) (rows st) s with
  | (Normal newRows, s) => (Normal (setRows newRows st), s)
  | (Throw e, s) => (Throw e, s)
  end.

(** [r.imgData1 && r.imgData2 && !r.processedCanvas]. *)
Definition needsProcess (r : ProcessedRow) : bool :=
  match imgData1 r, imgData2 r, processedCanvas r with
  | Some _, Some _, None => true
  | _, _, _ => false
  end.

(** The effect run when [rows] or [config] change: rows with both images
    and no canvas are processed. *)
Definition repairLoop (st : AppState) (s : RandomState)
    : completion AppState * RandomState :=
  if existsb needsProcess (rows st) then
    match mapRows (fun r s =>
                     match imgData1 r, imgData2 r, processedCanvas r with
                     | Some img1, Some img2, None => regenerate (config st) r img1 img2 s
                     | _, _, _ => (Normal r, s)
                     end) (rows st) s with
    | (Normal newRows, s) => (Normal (setRows newRows st), s)
    | (Throw e, s) => (Throw e, s)
    end
  else (Normal st, s).

(** The row [regenerate] returns. *)
Definition regenerated (config : ProcessingConfig) (r r' : ProcessedRow) : Prop :=
  exists img1 img2 fig s0,
    imgData1 r = Some img1 /\ imgData2 r = Some img2
    /\ fst (processRow drawImage img1 img2 config s0) = Normal fig
    /\ r' = withCanvas r (Some fig).

(** What the processing loop does to a row. *)
Definition reprocessed (config : ProcessingConfig) (r r' : ProcessedRow) : Prop :=
  match imgData1 r, imgData2 r with
  | Some _, Some _ => regenerated config r r'
  | _, _ => r' = r
  end.

(** What the repair loop does to a row. *)
Definition repaired (config : ProcessingConfig) (r r' : ProcessedRow) : Prop :=
  if needsProcess r then regenerated config r r' else r' = r.
End Effects.

(** What a user and the effects do to the state, as far as the history
    is concerned: the three history operations, and any other change of
    [rows] or [config]. *)
Inductive Event : Type :=
| EvPush
| EvUndo
| EvRedo
| EvSetRows (newRows : list ProcessedRow)
| EvSetConfig (newConfig : ProcessingConfig).

Definition applyEvent (st : AppState) (e : Event) : AppState :=
  match e with
  | EvPush => pushToHistory st
  | EvUndo => undo st
  | EvRedo => redo st
  | EvSetRows newRows => setRows newRows st
  | EvSetConfig newConfig => setConfig newConfig st
  end.

(** [App] starts with no rows and an empty history. *)
Definition initialState (c : ProcessingConfig) : AppState :=
  {| rows := []; config := c; history := {| past := []; future := [] |} |}.

Definition stripped (sn : Snapshot) : Prop :=
  Forall (fun r => processedCanvas r = None) (snapRows sn).

Definition historyOK (h : History) : Prop :=
  len (past h) + len (future h) <= 30
  /\ Forall stripped (past h) /\ Forall stripped (future h).

(** [Partial<ProcessedRow>]: for each field, the new value if the object
    has one. *)
Record RowUpdates : Type := {
  upd_id : option string;
  upd_file1 : option (option File);
  upd_file2 : option (option File);
  upd_imgData1 : option (option ImageData);
  upd_imgData2 : option (option ImageData);
  upd_processedCanvas : option (option Figure);
  upd_timestamp : option Z;
  upd_rowLabel : option string
}.

(** [{ ...oldRow, ...updates }]. *)
Definition applyUpdates (oldRow : ProcessedRow) (updates : RowUpdates) : ProcessedRow :=
  {| id := default (id oldRow) (upd_id updates);
     file1 := default (file1 oldRow) (upd_file1 updates);
     file2 := default (file2 oldRow) (upd_file2 updates);
     imgData1 := default (imgData1 oldRow) (upd_imgData1 updates);
     imgData2 := default (imgData2 oldRow) (upd_imgData2 updates);
     processedCanvas := default (processedCanvas oldRow) (upd_processedCanvas updates);
     timestamp := default (timestamp oldRow) (upd_timestamp updates);
     rowLabel := default (rowLabel oldRow) (upd_rowLabel updates) |}.

(** [arr.findIndex(p)], counting from [i]: -1 when no element passes. *)
Fixpoint findIndexFrom {A : Type} (p : A -> bool) (l : list A) (i : Z) : Z :=
  match l with
  | [] => -1
  | x :: l' => if p x then i else findIndexFrom p l' (i + 1)
  end.

Definition findIndex {A : Type} (p : A -> bool) (l : list A) : Z :=
  findIndexFrom p l 0.

(** A field of [updates] that is present and not [null]. *)
Definition truthy {A : Type} (u : option (option A)) : bool :=
  match u with Some (Some _) => true | _ => false end.

Section Update.
Context {N : NumberModel}.
Variable drawImage : ImageData -> Rect -> Z -> Z -> list Z.

(** The function [updateRowWithProcess] hands to [setRows]. *)
Definition updateRowWithProcess (id0 : string) (updates : RowUpdates)
    (config : ProcessingConfig) (prev : list ProcessedRow) (s : RandomState)
    : completion (list ProcessedRow) * RandomState :=
  let idx := findIndex (fun r => String.eqb (id r) id0) prev in
  if idx =? -1 then (Normal prev, s) else
  match index prev idx with
  | None => (Normal prev, s)
  | Some oldRow =>
      let newRow := applyUpdates oldRow updates in
      let '(newRow, s) :=
        match imgData1 newRow, imgData2 newRow with
        | Some img1, Some img2 =>
            if truthy (upd_imgData1 updates) || truthy (upd_imgData2 updates)
               || bool_decide (is_Some (upd_rowLabel updates))
            then regenerate drawImage config newRow img1 img2 s
            else (Normal newRow, s)
        | _, _ => (Normal newRow, s)
        end in
      match newRow with
      | Normal newRow => (Normal (<[Z.to_nat idx := newRow]> prev), s)
      | Throw e => (Throw e, s)
      end
  end.

(** The row [updateRowWithProcess] puts in the place of [oldRow], and the
    random source it leaves: the row with the updates applied, with a new
    figure when it has both images and the updates bring an image or a
    label. *)
Definition updatedRow (updates : RowUpdates) (config : ProcessingConfig)
    (oldRow : ProcessedRow) (s : RandomState) (newRow : ProcessedRow)
    (s' : RandomState) : Prop :=
  match imgData1 (applyUpdates oldRow updates),
        imgData2 (applyUpdates oldRow updates) with
  | Some img1, Some img2 =>
      if truthy (upd_imgData1 updates) || truthy (upd_imgData2 updates)
         || bool_decide (is_Some (upd_rowLabel updates))
      then exists fig,
             processRow drawImage img1 img2 config s = (Normal fig, s')
             /\ newRow = withCanvas (applyUpdates oldRow updates) (Some fig)
      else newRow = applyUpdates oldRow updates /\ s' = s
  | _, _ => newRow = applyUpdates oldRow updates /\ s' = s
  end.
End Update.

(** Rows, states and updates of the examples. *)
Definition rowWith (id0 : string) (img1 img2 : option ImageData)
    (canvas : option Figure) : ProcessedRow :=
  {| id := id0; file1 := None; file2 := None; imgData1 := img1; imgData2 := img2;
     processedCanvas := canvas; timestamp := 0; rowLabel := EmptyString |}.

Definition figure0 : Figure :=
  {| roi := {| rx := 0; ry := 0; rw := 2; rh := 2 |};
     panel1 := []; panel2 := []; merged := [];
     finalWidth := 26; finalHeight := 2 |}.

Definition state0 : AppState :=
  {| rows := [rowWith "a" (Some fourPixels) (Some fourPixels) None;
              rowWith "b" None None None;
              rowWith "c" (Some (solid 4 4 90 90 90)) (Some (solid 4 4 10 200 30)) None];
     config := config0;
     history := {| past := []; future := [] |} |}.

(** [state0] after the processing loop, the montage of that state and
    the first figure drawn on it. *)
Definition processed0 : AppState :=
  match fst (processingLoop (N := exact) drawNearest state0 (draws (Q2Qc (99 # 100)))) with
  | Normal st' => st'
  | Throw _ => state0
  end.

Definition montage0 : Montage :=
  default {| canvasWidth := 0; canvasHeight := 0; placed := [] |}
    (handleDownload processed0).

Definition placed0 : Figure * Z := default (figure0, 0) (index (placed montage0) 0).

(** The update the first drop slot sends when its image is taken out. *)
Definition removeImage1 : RowUpdates :=
  {| upd_id := None; upd_file1 := Some None; upd_file2 := None;
     upd_imgData1 := Some None; upd_imgData2 := None;
     upd_processedCanvas := None; upd_timestamp := None; upd_rowLabel := None |}.

(** The update a drop slot sends when a new image has been read. *)
Definition newImage2 : RowUpdates :=
  {| upd_id := None; upd_file1 := None; upd_file2 := None;
     upd_imgData1 := None; upd_imgData2 := Some (Some (solid 4 4 0 0 0));
     upd_processedCanvas := None; upd_timestamp := None; upd_rowLabel := None |}.

(** ** The crop in binary64 *)

(** The greatest integer not above a finite binary float. *)
Definition floorOf (x : spec_float) : Z :=
  match x with
  | S754_finite s m e => Z.shiftl (cond_Zopp s (Zpos m)) e
  | _ => 0
  end.

(** [Math.floor] of a binary64 number: an integer, an infinity or not a
    number. *)
Inductive floored : Type :=
| Whole (z : Z)
| Unbounded (negative : bool)
| NotANumber.

Definition Math_floor (x : spec_float) : floored :=
  match x with
  | S754_infinity s => Unbounded s
  | S754_nan => NotANumber
  | _ => Whole (floorOf x)
  end.

(** [cropH > h] for an integer [h]. *)
Definition exceeds (cropH : floored) (h : Z) : bool :=
  match cropH with
  | Whole z => z >? h
  | Unbounded negative => negb negative
  | NotANumber => false
  end.

(** The crop size as the source computes it: the quotient, the product
    and the ratio are binary64 numbers. *)
Definition cropSize64 (w h : Z) (targetAspectRatio : spec_float)
    : floored * floored :=
  let cropW := Whole w in
  let cropH := Math_floor (SFdiv 53 1024 (b64_of_Z w 0) targetAspectRatio) in
  if exceeds cropH h then
    (Math_floor (SFmul 53 1024 (b64_of_Z h 0) targetAspectRatio), Whole h)
  else (cropW, cropH).

(** [findCoBrightestROI] with the binary64 crop and the binary64 sums.
    [None] stands for a rectangle whose size is infinite or not a number,
    which [Rect] does not hold. *)
Definition findCoBrightestROI64 (img1 img2 : ImageData)
    (targetAspectRatio : spec_float) (clipBottom : Z) : option Rect :=
  let w := width img1 in
  let h := Z.max 1 (height img1 - clipBottom) in
  match cropSize64 w h targetAspectRatio with
  | (Whole cropW, Whole cropH) =>
      let integral1 := computeIntegralImage (N := ieee) (data img1) w (height img1) in
      let integral2 := computeIntegralImage (N := ieee) (data img2) w (height img1) in
      let '(_, bestX, bestY) :=
        for_loop (trips (h - cropH) stride) 0 (fun y => y <=? h - cropH) stride
          (scanRow (N := ieee) integral1 integral2 w cropW cropH)
          (ofInt (NumberModel := ieee) (-1), 0, 0) in
      Some {| rx := bestX; ry := bestY; rw := cropW; rh := cropH |}
  | _ => None
  end.

(** [ratio] of [processRow]: [config.targetWidth / config.targetHeight]. *)
Definition ratio64 (targetWidth targetHeight : Z) : spec_float :=
  SFdiv 53 1024 (b64_of_Z targetWidth 0) (b64_of_Z targetHeight 0).

(** ** Values of the binary floats, and rounding errors *)

(** [2 ^ e] as a rational. *)
Definition pow2 (e : Z) : Q := Qpower 2 e.

(** [x] is a zero or a finite float of value [v], its exponent at least
    [lo]. *)
Definition finiteAt (lo : Z) (x : spec_float) (v : Q) : Prop :=
  match x with
  | S754_zero _ => (v == 0)%Q
  | S754_finite s m e =>
      lo <= e /\ (v == inject_Z (cond_Zopp s (Zpos m)) * pow2 e)%Q
  | _ => False
  end.

(** The mantissa of a finite float has at most [p] binary digits. *)
Definition mantissaFits (p : Z) (x : spec_float) : Prop :=
  match x with
  | S754_finite _ m _ => Zdigits2 (Zpos m) <= p
  | _ => True
  end.

(** [v] with the sign [s]. *)
Definition signed (s : bool) (v : Q) : Q := if s then (- v)%Q else v.

(** What a shift record says of the number [t] it was cut from: [t] lies in
    [[m, m + 1)], and the round and sticky bits tell where. *)
Definition located (mrs : shr_record) (t : Q) : Prop :=
  match shr_r mrs, shr_s mrs with
  | false, false => (t == inject_Z (shr_m mrs))%Q
  | false, true => (inject_Z (shr_m mrs) < t /\ t < inject_Z (shr_m mrs) + (1 # 2))%Q
  | true, false => (t == inject_Z (shr_m mrs) + (1 # 2))%Q
  | true, true => (inject_Z (shr_m mrs) + (1 # 2) < t /\ t < inject_Z (shr_m mrs) + 1)%Q
  end.

(** A finite binary64 number between two rationals. *)
Definition between (lo hi : Q) (x : spec_float) : Prop :=
  match SF2Q x with
  | Some q => (lo <= q /\ q <= hi)%Q
  | None => False
  end.


(** The factor by which a sum of non-negative numbers can have grown
    after [rows] roundings to binary32 and [ops] roundings to binary64. *)
Definition roundings (rows ops : Z) : Q :=
  ((1 + pow2 (-24)) ^ rows * (1 + pow2 (-53)) ^ ops)%Q.

(** [v] is within the relative error [U - 1] of [q]. *)
Definition near (U v q : Q) : Prop := (Qabs (v - q) <= (U - 1) * q)%Q.

(** The float [x] is finite and within the relative error [U - 1] of
    [q]. *)
Definition holds (x : spec_float) (U q : Q) : Prop :=
  exists v : Q, finiteAt (-1074) x v /\ near U v q.

(** A sum of luminances is 0 or at least a thousandth. *)
Definition luminous (q : Q) : Prop := (q == 0 \/ 1 # 1000 <= q)%Q.

(** Invariant of the outer loop of [computeIntegralImage] in binary64 with
    the binary32 table: a cell of row [j] and column [i] above row [y] holds
    the prefix sum after [j + 1] roundings to binary32 and [i + j + 5]
    roundings to binary64. *)
Definition rowsDone64 (data : list Z) (W H y : Z) (T : list spec_float) : Prop :=
  len T = W * H
  /\ forall j i, 0 <= j < y -> 0 <= i < W ->
       exists c, index T (j * W + i) = Some c
                 /\ holds c (roundings (j + 1) (i + j + 5)) (prefixSum data W j i).

(** Invariant of the inner loop: [rowSum] holds the sum of the row so
    far, and the cells left of [x] are final. *)
Definition cellsDone64 (data : list Z) (W H y x : Z)
    (s : spec_float * list spec_float) : Prop :=
  holds (fst s) (roundings 0 (x + 4)) (rowPrefix data W y (x - 1))
  /\ rowsDone64 data W H y (snd s)
  /\ forall i, 0 <= i < x ->
       exists c, index (snd s) (y * W + i) = Some c
                 /\ holds c (roundings (y + 1) (i + y + 5)) (prefixSum data W y i).

(** The four prefix sums [getRectSum] combines, added up: the size of the
    numbers the rounding errors are relative to. *)
Definition cornerSum (data : list Z) (width x y w h : Z) : Qc :=
  (prefixSum data width (y + h - 1) (x + w - 1)
   + prefixSum data width (y - 1) (x + w - 1)
   + prefixSum data width (y + h - 1) (x - 1)
   + prefixSum data width (y - 1) (x - 1))%Qc.

(** * Properties *)

(** ** Loops *)

Section Loops.
Context {S : Type}.
Variables (cond : Z -> bool) (step : Z) (body : Z -> S -> S).

(** A property of the counter and the state that every iteration keeps
    holds, for some counter, when the loop is left. *)
Lemma for_loop_invariant (P : Z -> S -> Prop) :
  (forall i s, P i s -> cond i = true -> P (i + step) (body i s)) ->
  forall fuel i s, P i s -> exists j, P j (for_loop fuel i cond step body s).
Proof.
  intros Hstep fuel. induction fuel as [|fuel IH]; intros i s HP; simpl.
  - exists i. exact HP.
  - destruct (cond i) eqn:Hc.
    + apply IH. apply Hstep; assumption.
    + exists i. exact HP.
Qed.

(** Once the counter would pass [limit] within the fuel given, more fuel
    changes nothing: the loop is left by its condition. *)
Lemma for_loop_enough (limit : Z) :
  0 < step ->
  (forall x, limit < x -> cond x = false) ->
  forall fuel k i s,
    limit < i + step * Z.of_nat fuel ->
    for_loop (fuel + k) i cond step body s = for_loop fuel i cond step body s.
Proof.
  intros Hpos Hlim fuel. induction fuel as [|fuel IH]; intros k i s Hi.
  - simpl in Hi. replace (i + step * 0) with i in Hi by lia.
    destruct k as [|k]; simpl; [reflexivity|].
    rewrite (Hlim i) by lia. reflexivity.
  - simpl. destruct (cond i); [|reflexivity].
    apply IH. lia.
Qed.
End Loops.

(** The fuel given to the loops of the embedding is enough. *)
Lemma trips_enough {S : Type} (limit : Z) (body : Z -> S -> S) (k : nat) (s : S) :
  for_loop (trips limit stride + k) 0 (fun x => x <=? limit) stride body s
  = for_loop (trips limit stride) 0 (fun x => x <=? limit) stride body s.
Proof.
  apply for_loop_enough with (limit := limit).
  - reflexivity.
  - intros x Hx. apply Z.leb_gt. exact Hx.
  - unfold trips, stride. destruct (Z.ltb_spec limit 0) as [Hneg|Hnn].
    + simpl. lia.
    + rewrite Z2Nat.id by (pose proof (Z.div_pos limit 4); lia).
      pose proof (Z.mod_pos_bound limit 4). pose proof (Z.div_mod limit 4). lia.
Qed.

Lemma quads_enough {S : Type} (n : Z) (body : Z -> S -> S) (k : nat) (s : S) :
  for_loop (quads n + k) 0 (fun i => i <? n) 4 body s
  = for_loop (quads n) 0 (fun i => i <? n) 4 body s.
Proof.
  apply for_loop_enough with (limit := n - 1).
  - reflexivity.
  - intros x Hx. apply Z.ltb_ge. lia.
  - unfold quads. destruct (Z.ltb_spec n 1) as [Hneg|Hnn].
    + lia.
    + rewrite Z2Nat.id by (apply Z.div_pos; lia).
      pose proof (Z.mod_pos_bound (n + 3) 4). pose proof (Z.div_mod (n + 3) 4). lia.
Qed.

(** A loop counting from 0 in steps of 1 runs up to its bound: a property
    every iteration carries from [i] to [i + 1] holds at [max(0, n)]. *)
Lemma for_loop_count {S : Type} (n : Z) (body : Z -> S -> S) (P : Z -> S -> Prop) :
  (forall i s, 0 <= i < n -> P i s -> P (i + 1) (body i s)) ->
  forall s, P 0 s ->
    P (Z.max 0 n) (for_loop (Z.to_nat n) 0 (fun i => i <? n) 1 body s).
Proof.
  intros Hstep.
  assert (Hgen : forall fuel i s, 0 <= i -> i + Z.of_nat fuel = Z.max i n -> P i s ->
            P (Z.max i n) (for_loop fuel i (fun i => i <? n) 1 body s)).
  { induction fuel as [|fuel IH]; intros i s Hi Hfuel HP; simpl.
    - replace (Z.max i n) with i by lia. exact HP.
    - destruct (Z.ltb_spec i n) as [Hlt|Hge]; [|lia].
      replace (Z.max i n) with (Z.max (i + 1) n) by lia.
      apply IH; [lia|lia|]. apply Hstep; [lia|exact HP]. }
  intros s HP. apply Hgen; [lia|lia|exact HP].
Qed.

(** ** Arrays *)

Section Arrays.
Context {A : Type}.
Implicit Types (a : list A) (i j : Z) (v : A).

Lemma len_store a i v : len (store a i v) = len a.
Proof.
  unfold len, store. destruct (i <? 0); [reflexivity|].
  rewrite length_insert. reflexivity.
Qed.

Lemma index_store_eq a i v : 0 <= i < len a -> index (store a i v) i = Some v.
Proof.
  unfold len, index, store. intros Hi.
  destruct (Z.ltb_spec i 0); [lia|].
  apply list_lookup_insert_eq. lia.
Qed.

Lemma index_store_ne a i j v : i <> j -> index (store a i v) j = index a j.
Proof.
  unfold index, store. intros Hij.
  destruct (Z.ltb_spec j 0); [reflexivity|].
  destruct (Z.ltb_spec i 0); [reflexivity|].
  apply list_lookup_insert_ne. lia.
Qed.

Lemma index_Some_lt a i v : index a i = Some v -> 0 <= i < len a.
Proof.
  unfold len, index. destruct (Z.ltb_spec i 0) as [Hneg|Hnn]; [discriminate|].
  intros Hv. apply lookup_lt_Some in Hv. lia.
Qed.

Lemma index_lt_Some a i : 0 <= i < len a -> exists v, index a i = Some v.
Proof.
  unfold len, index. intros Hi. destruct (Z.ltb_spec i 0); [lia|].
  destruct (lookup_lt_is_Some_2 a (Z.to_nat i)) as [v Hv]; [lia|].
  exists v. exact Hv.
Qed.

End Arrays.

(** ** Loops over the pixels of an RGBA array *)

Section QuadLoop.
Variables (n : Z) (cell : Z -> list Z -> list Z).
Hypothesis cell_len : forall i m, len (cell i m) = len m.
Hypothesis cell_frame :
  forall i m k, k < i \/ i + 4 <= k -> index (cell i m) k = index m k.

Lemma quad_loop_len fuel i m :
  len (for_loop fuel i (fun i => i <? n) 4 cell m) = len m.
Proof.
  revert i m. induction fuel as [|fuel IH]; intros i m; simpl; [reflexivity|].
  destruct (i <? n); [|reflexivity].
  rewrite IH. apply cell_len.
Qed.

Lemma quad_loop_below fuel i m k :
  k < i -> index (for_loop fuel i (fun i => i <? n) 4 cell m) k = index m k.
Proof.
  revert i m. induction fuel as [|fuel IH]; intros i m Hk; simpl; [reflexivity|].
  destruct (i <? n); [|reflexivity].
  rewrite IH by lia. apply cell_frame. lia.
Qed.

(** The elements of pixel [j] are those its own iteration wrote, on an
    array that still has the original elements from [j] on. *)
Lemma quad_loop_at fuel i m j :
  i <= j < n -> (j - i) mod 4 = 0 -> j < i + 4 * Z.of_nat fuel ->
  exists m', len m' = len m
    /\ (forall k, j <= k -> index m' k = index m k)
    /\ (forall k, j <= k < j + 4 ->
          index (for_loop fuel i (fun i => i <? n) 4 cell m) k = index (cell j m') k).
Proof.
  revert i m. induction fuel as [|fuel IH]; intros i m Hj Hmod Hfuel; [lia|].
  simpl. destruct (Z.ltb_spec i n) as [Hin|Hin]; [|lia].
  destruct (Z.eq_dec j i) as [->|Hne].
  - exists m. split; [reflexivity|]. split; [reflexivity|].
    intros k Hk. apply (quad_loop_below fuel (i + 4) (cell i m) k). lia.
  - assert (Hstep : i + 4 <= j).
    { destruct (Z.le_gt_cases (i + 4) j) as [Hle|Hgt]; [exact Hle|].
      assert (Hsmall : (j - i) mod 4 = j - i) by (apply Z.mod_small; lia). lia. }
    destruct (IH (i + 4) (cell i m)) as (m' & Hlen & Hsame & Hat).
    + lia.
    + replace (j - (i + 4)) with (j - i + (-1) * 4) by lia.
      rewrite Z.mod_add by lia. exact Hmod.
    + lia.
    + exists m'. split; [rewrite Hlen; apply cell_len|].
      split; [|exact Hat].
      intros k Hk. rewrite Hsame by exact Hk. apply cell_frame. lia.
Qed.
End QuadLoop.

Lemma quads_cover (n j : Z) : 0 <= j < n -> j < 0 + 4 * Z.of_nat (quads n).
Proof.
  intros Hj. unfold quads. rewrite Z2Nat.id by (apply Z.div_pos; lia).
  pose proof (Z.mod_pos_bound (n + 3) 4). pose proof (Z.div_mod (n + 3) 4). lia.
Qed.

(** ** Crop geometry *)

Lemma floor_mul_bounds (a : Z) (r : Q) :
  (0 < r)%Q ->
  (inject_Z a - r < inject_Z (Qfloor (inject_Z a / r)) * r)%Q
  /\ (inject_Z (Qfloor (inject_Z a / r)) * r <= inject_Z a)%Q.
Proof.
  intros Hr.
  pose proof (Qfloor_le (inject_Z a / r)) as Hle.
  pose proof (Qlt_floor (inject_Z a / r)) as Hlt.
  assert (Hq : (inject_Z a / r * r == inject_Z a)%Q) by (field; lra).
  rewrite inject_Z_plus in Hlt.
  set (q := (inject_Z a / r)%Q) in *.
  set (f := inject_Z (Qfloor q)) in *.
  apply (Qmult_le_compat_r _ _ r) in Hle; [|lra].
  apply (Qmult_lt_compat_r _ _ r) in Hlt; [|lra].
  rewrite Hq in Hle, Hlt.
  split; [|exact Hle].
  change (inject_Z 1) with 1%Q in Hlt. clearbody f q.
  lra.
Qed.

Lemma cropSize_cases (w h : Z) (r : Q) :
  (0 < r)%Q ->
  let '(cropW, cropH) := cropSize w h r in
  (cropW = w /\ cropH = Qfloor (inject_Z w / r) /\ cropH <= h)
  \/ (cropH = h /\ cropW = Qfloor (inject_Z h * r) /\ h < Qfloor (inject_Z w / r)
      /\ cropW <= w).
Proof.
  intros Hr. unfold cropSize.
  destruct (Z.gtb_spec (Qfloor (inject_Z w / r)) h) as [Hgt|Hle].
  - right. repeat split; try lia.
    destruct (floor_mul_bounds w r Hr) as [_ Hup].
    assert (Hh : (inject_Z h * r <= inject_Z w)%Q).
    { apply Qle_trans with (inject_Z (Qfloor (inject_Z w / r)) * r)%Q; [|exact Hup].
      apply Qmult_le_compat_r; [|lra]. rewrite <- Zle_Qle. lia. }
    apply Qfloor_resp_le in Hh. rewrite Qfloor_Z in Hh. exact Hh.
  - left. repeat split; lia.
Qed.

Section Scan.
Context {N : NumberModel}.
Variables (integral1 integral2 : list num) (w cropW cropH ymax : Z).

Lemma scanCell_ok (y x : Z) (s : num * Z * Z) :
  0 <= x <= w - cropW -> (4 | x) -> 0 <= y <= ymax -> (4 | y) ->
  scanOK (w - cropW) ymax s ->
  scanOK (w - cropW) ymax (scanCell integral1 integral2 w cropW cropH y x s).
Proof.
  intros Hx Hdx Hy Hdy. destruct s as [[m bx] by']. unfold scanCell.
  destruct (gtb _ m); [|tauto].
  intros _. unfold scanOK. repeat split; try assumption; lia.
Qed.

Lemma scanRow_ok (y : Z) (s : num * Z * Z) :
  0 <= y <= ymax -> (4 | y) ->
  scanOK (w - cropW) ymax s ->
  scanOK (w - cropW) ymax (scanRow integral1 integral2 w cropW cropH y s).
Proof.
  intros Hy Hdy Hs. unfold scanRow.
  set (P := fun (x : Z) (s : num * Z * Z) =>
              (0 <= x /\ (4 | x)) /\ scanOK (w - cropW) ymax s).
  assert (Hstep : forall x s', P x s' -> (x <=? w - cropW) = true ->
            P (x + stride) (scanCell integral1 integral2 w cropW cropH y x s')).
  { intros x s' [[Hx Hdx] Hs'] Hc. apply Z.leb_le in Hc. unfold stride. split.
    - split; [lia|]. apply Z.divide_add_r; [assumption|apply Z.divide_refl].
    - apply scanCell_ok; auto; lia. }
  assert (H0 : P 0 s) by (split; [split; [lia|apply Z.divide_0_r]|exact Hs]).
  destruct (for_loop_invariant _ _ _ P Hstep (trips (w - cropW) stride) 0 s H0)
    as [j [_ Hj]].
  exact Hj.
Qed.

Lemma scan_ok :
  scanOK (w - cropW) ymax
    (for_loop (trips ymax stride) 0 (fun y => y <=? ymax) stride
       (scanRow integral1 integral2 w cropW cropH) (ofInt (-1), 0, 0)).
Proof.
  set (P := fun (y : Z) (s : num * Z * Z) =>
              (0 <= y /\ (4 | y)) /\ scanOK (w - cropW) ymax s).
  assert (Hstep : forall y s', P y s' -> (y <=? ymax) = true ->
            P (y + stride) (scanRow integral1 integral2 w cropW cropH y s')).
  { intros y s' [[Hy Hdy] Hs'] Hc. apply Z.leb_le in Hc. unfold stride. split.
    - split; [lia|]. apply Z.divide_add_r; [assumption|apply Z.divide_refl].
    - apply scanRow_ok; auto; lia. }
  assert (H0 : P 0 ((ofInt (-1), 0, 0) : num * Z * Z)).
  { split; [split; [lia|apply Z.divide_0_r]|].
    unfold scanOK. repeat split; try lia; apply Z.divide_0_r. }
  destruct (for_loop_invariant _ _ _ P Hstep (trips ymax stride) 0 _ H0)
    as [j [_ Hj]].
  exact Hj.
Qed.
End Scan.

(** What [findCoBrightestROI] returns, in terms of the crop size. *)
Lemma findCoBrightestROI_spec {N : NumberModel} (img1 img2 : ImageData)
    (r : Q) (clip : Z) :
  let h := Z.max 1 (height img1 - clip) in
  let R := findCoBrightestROI img1 img2 r clip in
  (rw R, rh R) = cropSize (width img1) h r
  /\ (0 <= rx R <= Z.max 0 (width img1 - rw R) /\ (4 | rx R))
  /\ (0 <= ry R <= Z.max 0 (h - rh R) /\ (4 | ry R)).
Proof.
  intros h R. subst R. unfold findCoBrightestROI. fold h.
  destruct (cropSize (width img1) h r) as [cropW cropH].
  pose proof (scan_ok (computeIntegralImage (data img1) (width img1) (height img1))
                (computeIntegralImage (data img2) (width img1) (height img1))
                (width img1) cropW cropH (h - cropH)) as Hok.
  destruct (for_loop _ _ _ _ _ _) as [[m bx] by']. simpl.
  split; [reflexivity|exact Hok].
Qed.

(** The second raster is read through its pixel array only. *)
Lemma findCoBrightestROI_second_data {N : NumberModel} (img1 img2 img2' : ImageData)
    (r : Q) (clip : Z) :
  data img2 = data img2' ->
  findCoBrightestROI img1 img2 r clip = findCoBrightestROI img1 img2' r clip.
Proof.
  intros Hdata. unfold findCoBrightestROI. rewrite Hdata. reflexivity.
Qed.

(** The scan moves to a brighter window: on a raster whose right half is
    white, the crop of a 4 by 4 window lands on column 4. *)
Example scan_finds_bright_window :
  findCoBrightestROI (N := ieee) halfBright halfBright 1 0
  = {| rx := 4; ry := 0; rw := 4; rh := 4 |}
  /\ findCoBrightestROI (N := exact) halfBright halfBright 1 0
     = {| rx := 4; ry := 0; rw := 4; rh := 4 |}.
Proof. split; vm_compute; reflexivity. Qed.

(** ** The crop rectangle *)

(** C10. The corner of the rectangle [findCoBrightestROI] returns has both
    coordinates multiples of 4: the scan samples corners from 0 in steps of
    the stride 4, and the corner stays [(0, 0)] when nothing is sampled.
    This holds in every number model, whatever the comparisons of the
    brightness totals answer. *)
Theorem roi_corner_multiple_of_stride {N : NumberModel} (img1 img2 : ImageData)
    (targetAspectRatio : Q) (clipBottom : Z) :
  rx (findCoBrightestROI img1 img2 targetAspectRatio clipBottom) mod 4 = 0
  /\ ry (findCoBrightestROI img1 img2 targetAspectRatio clipBottom) mod 4 = 0.
Proof.
  destruct (findCoBrightestROI_spec img1 img2 targetAspectRatio clipBottom)
    as (_ & [_ Hx] & [_ Hy]).
  split; apply Z.mod_divide; try lia; assumption.
Qed.

(** C4. For a positive aspect ratio the rectangle [findCoBrightestROI]
    returns lies inside the first raster's width and inside the effective
    height [max(1, height - clipBottom)]: [x >= 0], [y >= 0],
    [x + w <= width] and [y + h <= max(1, height - clipBottom)]. Neither
    the second raster nor the sign of [clipBottom] matters. *)
Theorem roi_containment {N : NumberModel} (img1 img2 : ImageData)
    (targetAspectRatio : Q) (clipBottom : Z) :
  (0 < targetAspectRatio)%Q ->
  let R := findCoBrightestROI img1 img2 targetAspectRatio clipBottom in
  0 <= rx R /\ 0 <= ry R
  /\ rx R + rw R <= width img1
  /\ ry R + rh R <= Z.max 1 (height img1 - clipBottom).
Proof.
  intros Hr R. subst R.
  destruct (findCoBrightestROI_spec img1 img2 targetAspectRatio clipBottom)
    as (Hsize & [Hx _] & [Hy _]).
  pose proof (cropSize_cases (width img1) (Z.max 1 (height img1 - clipBottom))
                targetAspectRatio Hr) as Hc.
  rewrite <- Hsize in Hc.
  destruct Hc as [(Hw & _ & Hh)|(Hh & _ & _ & Hw)]; lia.
Qed.

Lemma roi_containment_witness :
  (0 < 1)%Q
  /\ (0 <= rx (findCoBrightestROI (N := ieee) halfBright halfBright 1 2)
      /\ 0 <= ry (findCoBrightestROI (N := ieee) halfBright halfBright 1 2)
      /\ rx (findCoBrightestROI (N := ieee) halfBright halfBright 1 2)
         + rw (findCoBrightestROI (N := ieee) halfBright halfBright 1 2)
         <= width halfBright
      /\ ry (findCoBrightestROI (N := ieee) halfBright halfBright 1 2)
         + rh (findCoBrightestROI (N := ieee) halfBright halfBright 1 2)
         <= Z.max 1 (height halfBright - 2)).
Proof.
  split; [reflexivity|].
  apply (roi_containment (N := ieee) halfBright halfBright 1 2).
  reflexivity.
Defined.

(** C9. [findCoBrightestROI] never reads the second raster's [width] and
    [height]: both integral tables are built with the first raster's
    dimensions, and the second raster is read through its pixel array only.
    Two second rasters with the same pixel array give the same
    rectangle. *)
Theorem roi_ignores_second_dimensions {N : NumberModel} (img1 img2 img2' : ImageData)
    (targetAspectRatio : Q) (clipBottom : Z) :
  data img2 = data img2' ->
  findCoBrightestROI img1 img2 targetAspectRatio clipBottom
  = findCoBrightestROI img1 img2' targetAspectRatio clipBottom
  /\ findCoBrightestROI img1 img2 targetAspectRatio clipBottom
     = findCoBrightestROI img1
         {| width := width img1; height := height img1; data := data img2 |}
         targetAspectRatio clipBottom.
Proof.
  intros Hdata. split.
  - apply findCoBrightestROI_second_data. exact Hdata.
  - apply findCoBrightestROI_second_data. reflexivity.
Qed.

Lemma roi_ignores_second_dimensions_witness :
  data (solid 2 2 9 9 9) = data (solid 4 1 9 9 9)
  /\ (findCoBrightestROI (N := ieee) (solid 2 2 1 2 3) (solid 2 2 9 9 9) 1 0
      = findCoBrightestROI (N := ieee) (solid 2 2 1 2 3) (solid 4 1 9 9 9) 1 0
      /\ findCoBrightestROI (N := ieee) (solid 2 2 1 2 3) (solid 2 2 9 9 9) 1 0
         = findCoBrightestROI (N := ieee) (solid 2 2 1 2 3)
             {| width := 2; height := 2; data := data (solid 2 2 9 9 9) |} 1 0).
Proof.
  split; [reflexivity|].
  apply (roi_ignores_second_dimensions (N := ieee) (solid 2 2 1 2 3)
           (solid 2 2 9 9 9) (solid 4 1 9 9 9) 1 0).
  reflexivity.
Defined.

(** ** Sums *)

Lemma sumFrom_ext (n : nat) (i : Z) (f g : Z -> Qc) :
  (forall k, i <= k < i + Z.of_nat n -> f k = g k) ->
  sumFrom n i f = sumFrom n i g.
Proof.
  revert i. induction n as [|n IH]; intros i Hfg; cbn [sumFrom]; [reflexivity|].
  rewrite Hfg by lia. rewrite IH; [reflexivity|]. intros k Hk. apply Hfg. lia.
Qed.

Lemma sumFrom_app (n m : nat) (i : Z) (f : Z -> Qc) :
  sumFrom (n + m) i f = (sumFrom n i f + sumFrom m (i + Z.of_nat n) f)%Qc.
Proof.
  revert i. induction n as [|n IH]; intros i.
  - cbn [Nat.add sumFrom]. replace (i + Z.of_nat 0) with i by lia. ring.
  - change (sumFrom (Datatypes.S n + m) i f)
      with (f i + sumFrom (n + m) (i + 1) f)%Qc.
    rewrite IH. cbn [sumFrom].
    replace (i + 1 + Z.of_nat n) with (i + Z.of_nat (Datatypes.S n)) by lia. ring.
Qed.

Lemma sumFrom_minus (n : nat) (i : Z) (f g : Z -> Qc) :
  sumFrom n i (fun k => (f k - g k)%Qc) = (sumFrom n i f - sumFrom n i g)%Qc.
Proof.
  revert i. induction n as [|n IH]; intros i; cbn [sumFrom]; [ring|].
  rewrite IH. ring.
Qed.

Lemma sumFrom_zero (n : nat) (i : Z) : sumFrom n i (fun _ => Q2Qc 0) = Q2Qc 0.
Proof.
  revert i. induction n as [|n IH]; intros i; cbn [sumFrom]; [reflexivity|].
  rewrite IH. ring.
Qed.

Section Prefix.
Variables (data : list Z) (width : Z).

Lemma rowPrefix_step (y x : Z) :
  0 <= x ->
  rowPrefix data width y x
  = (rowPrefix data width y (x - 1) + pixelLuminance data width x y)%Qc.
Proof.
  intros Hx. unfold rowPrefix.
  replace (Z.to_nat (x + 1)) with (Z.to_nat (x - 1 + 1) + 1)%nat by lia.
  rewrite sumFrom_app. cbn [sumFrom].
  replace (0 + Z.of_nat (Z.to_nat (x - 1 + 1))) with x by lia. ring.
Qed.

Lemma prefixSum_step (y x : Z) :
  0 <= y ->
  prefixSum data width y x
  = (rowPrefix data width y x + prefixSum data width (y - 1) x)%Qc.
Proof.
  intros Hy. unfold prefixSum.
  replace (Z.to_nat (y + 1)) with (Z.to_nat (y - 1 + 1) + 1)%nat by lia.
  rewrite sumFrom_app. cbn [sumFrom].
  replace (0 + Z.of_nat (Z.to_nat (y - 1 + 1))) with y by lia. ring.
Qed.

(** The sum over rows [y .. y+h-1] of the row prefixes up to column [c]. *)
Lemma prefixSum_rows (y h c : Z) :
  0 <= y -> 0 <= h ->
  prefixSum data width (y + h - 1) c
  = (prefixSum data width (y - 1) c
     + sumFrom (Z.to_nat h) y (fun j => rowPrefix data width j c))%Qc.
Proof.
  intros Hy Hh. unfold prefixSum.
  replace (Z.to_nat (y + h - 1 + 1)) with (Z.to_nat (y - 1 + 1) + Z.to_nat h)%nat by lia.
  rewrite sumFrom_app.
  replace (0 + Z.of_nat (Z.to_nat (y - 1 + 1))) with y by lia. reflexivity.
Qed.

Lemma rowPrefix_cols (j x w : Z) :
  0 <= x -> 0 <= w ->
  rowPrefix data width j (x + w - 1)
  = (rowPrefix data width j (x - 1)
     + sumFrom (Z.to_nat w) x (fun i => pixelLuminance data width i j))%Qc.
Proof.
  intros Hx Hw. unfold rowPrefix.
  replace (Z.to_nat (x + w - 1 + 1)) with (Z.to_nat (x - 1 + 1) + Z.to_nat w)%nat by lia.
  rewrite sumFrom_app.
  replace (0 + Z.of_nat (Z.to_nat (x - 1 + 1))) with x by lia. reflexivity.
Qed.

(** Inclusion and exclusion on the prefix sums. *)
Lemma prefixSum_rectangle (x y w h : Z) :
  0 <= x -> 0 <= y -> 0 <= w -> 0 <= h ->
  (prefixSum data width (y + h - 1) (x + w - 1)
   - prefixSum data width (y - 1) (x + w - 1)
   - prefixSum data width (y + h - 1) (x - 1)
   + prefixSum data width (y - 1) (x - 1))%Qc
  = bruteForceSum data width x y w h.
Proof.
  intros Hx Hy Hw Hh.
  rewrite (prefixSum_rows y h (x + w - 1)), (prefixSum_rows y h (x - 1)) by lia.
  unfold bruteForceSum.
  rewrite (sumFrom_ext _ _ (fun j => sumFrom (Z.to_nat w) x
                              (fun i => pixelLuminance data width i j))
             (fun j => (rowPrefix data width j (x + w - 1)
                        - rowPrefix data width j (x - 1))%Qc)).
  - rewrite sumFrom_minus. ring.
  - intros j _. rewrite (rowPrefix_cols j x w) by lia. ring.
Qed.
End Prefix.

(** ** The integral image *)

Lemma cell_index_bounds (W H y x : Z) :
  0 <= y < H -> 0 <= x < W -> 0 <= y * W + x < W * H.
Proof.
  intros Hy Hx.
  assert (y * W <= (H - 1) * W) by (apply Z.mul_le_mono_nonneg_r; lia).
  assert (0 <= y * W) by (apply Z.mul_nonneg_nonneg; lia).
  lia.
Qed.

Lemma cell_index_inj (W y x j i : Z) :
  0 <= x < W -> 0 <= i < W -> j * W + i = y * W + x -> j = y /\ i = x.
Proof.
  intros Hx Hi Heq.
  assert (j = y); [|subst; lia].
  destruct (Z.lt_trichotomy j y) as [Hlt|[Heq'|Hgt]]; [|exact Heq'|].
  - assert ((j + 1) * W <= y * W) by (apply Z.mul_le_mono_nonneg_r; lia). lia.
  - assert ((y + 1) * W <= j * W) by (apply Z.mul_le_mono_nonneg_r; lia). lia.
Qed.

Lemma prefixSum_left (data : list Z) (W y : Z) : prefixSum data W y (-1) = Q2Qc 0.
Proof. unfold prefixSum. apply sumFrom_zero. Qed.

(** The constants of the binary64 model are the doubles nearest to 0.299,
    0.587 and 0.114: each is within half a unit in the last place. *)
Lemma ieee_constants_nearest :
  (Qabs (inject_Z 5386305154335113 * Qpower 2 (-54) - (299 # 1000)) <= Qpower 2 (-55))%Q
  /\ (Qabs (inject_Z 5287225962532962 * Qpower 2 (-53) - (587 # 1000)) <= Qpower 2 (-54))%Q
  /\ (Qabs (inject_Z 8214565720323785 * Qpower 2 (-56) - (114 # 1000)) <= Qpower 2 (-57))%Q
  /\ SF2Q (@c0299 ieee) = Some (inject_Z 5386305154335113 * Qpower 2 (-54))%Q
  /\ SF2Q (@c0587 ieee) = Some (inject_Z 5287225962532962 * Qpower 2 (-53))%Q
  /\ SF2Q (@c0114 ieee) = Some (inject_Z 8214565720323785 * Qpower 2 (-56))%Q.
Proof.
  repeat split; vm_compute; try reflexivity; discriminate.
Qed.

(** C3, as the specification words it, fails on the code's numbers. For
    the one-pixel raster [(1, 0, 0, 255)] the luminance is the double
    0.299; the table is a [Float32Array], so the stored cell is the nearest
    binary32, 0.2989999949932098..., and that is what [getRectSum]
    returns. It is neither the sum 299/1000 nor the luminance computed in
    binary64. *)
Lemma float32_table_rounds :
  len (px 1 0 0) = 1 * 1 * 4
  /\ ~ floatIs (getRectSum (N := ieee)
                  (computeIntegralImage (N := ieee) (px 1 0 0) 1 1) 1 0 0 1 1)
       (bruteForceSum (px 1 0 0) 1 0 0 1 1)
  /\ getRectSum (N := ieee) (computeIntegralImage (N := ieee) (px 1 0 0) 1 1) 1 0 0 1 1
     <> luminance (N := ieee) (px 1 0 0) 0
  /\ floatIs (getRectSum (N := ieee)
                (computeIntegralImage (N := ieee) (px 1 0 0) 1 1) 1 0 0 1 1)
       (Q2Qc (10032775 # 33554432)).
Proof.
  split; [reflexivity|]. split; [|split].
  - vm_compute. discriminate.
  - vm_compute. discriminate.
  - vm_compute. reflexivity.
Qed.

(** ** Channel normalisation *)

Lemma toUint8Clamp_range (q : Qc) : 0 <= toUint8Clamp q <= 255.
Proof.
  unfold toUint8Clamp.
  destruct (Z.ltb_spec (Qfloor q) 0); [lia|].
  destruct (Z.leb_spec 255 (Qfloor q)); [lia|].
  destruct (Qccompare _ _); [destruct (Z.even _)| |]; lia.
Qed.

Lemma scaledByte_range (o : option Z) (scale : Qc) : 0 <= scaledByte o scale <= 255.
Proof.
  destruct o as [v|]; simpl; [apply toUint8Clamp_range|lia].
Qed.

Lemma scaleCell_len scale i m : len (scaleCell scale i m) = len m.
Proof. unfold scaleCell. rewrite !len_store. reflexivity. Qed.

Lemma scaleCell_frame scale i m k :
  k < i \/ i + 4 <= k -> index (scaleCell scale i m) k = index m k.
Proof.
  intros Hk. unfold scaleCell. rewrite !index_store_ne by lia. reflexivity.
Qed.

Lemma scaleCell_rgb scale j m k v :
  j <= k < j + 3 -> index (scaleCell scale j m) k = Some v -> 0 <= v <= 255.
Proof.
  intros Hk Hv. unfold scaleCell in Hv.
  assert (Hin : 0 <= k < len m).
  { apply index_Some_lt in Hv. rewrite !len_store in Hv. exact Hv. }
  destruct (Z.eq_dec k (j + 2)) as [->|H2].
  { rewrite index_store_eq in Hv by (rewrite !len_store; lia).
    injection Hv as <-. apply scaledByte_range. }
  rewrite index_store_ne in Hv by lia.
  destruct (Z.eq_dec k (j + 1)) as [->|H1].
  { rewrite index_store_eq in Hv by (rewrite !len_store; lia).
    injection Hv as <-. apply scaledByte_range. }
  rewrite index_store_ne in Hv by lia.
  assert (k = j) as -> by lia.
  rewrite index_store_eq in Hv by lia.
  injection Hv as <-. apply scaledByte_range.
Qed.

Lemma applyScale_rgb (scale : Qc) (data : list Z) (k v : Z) :
  index (applyScale scale data) k = Some v -> k mod 4 <> 3 -> 0 <= v <= 255.
Proof.
  intros Hv Hk. unfold applyScale in *.
  pose proof (index_Some_lt _ _ _ Hv) as Hin.
  rewrite (quad_loop_len (len data) (scaleCell scale) (scaleCell_len scale)) in Hin.
  pose proof (Z.mod_pos_bound k 4 ltac:(lia)) as Hm.
  pose proof (Z.div_mod k 4 ltac:(lia)) as Hd.
  set (j := 4 * (k / 4)) in *.
  destruct (quad_loop_at (len data) (scaleCell scale) (scaleCell_len scale)
              (scaleCell_frame scale) (quads (len data)) 0 data j)
    as (m' & _ & _ & Hat).
  - lia.
  - replace (j - 0) with (0 + (k / 4) * 4) by lia. rewrite Z.mod_add by lia. reflexivity.
  - apply quads_cover. lia.
  - rewrite (Hat k) in Hv by lia.
    apply (scaleCell_rgb scale j m' k v); [lia|exact Hv].
Qed.

Lemma channelMax_floor (data : list Z) : 1 <= channelMax data.
Proof.
  unfold channelMax.
  destruct (for_loop_invariant (fun i => i <? len data) 4 (maxCell data)
              (fun _ max => 1 <= max)) with (fuel := quads (len data)) (i := 0) (s := 1)
    as [j Hj].
  - intros i max Hmax _. unfold maxCell.
    destruct (max3 _ _ _) as [val|]; [|exact Hmax].
    destruct (Z.gtb_spec val max); lia.
  - lia.
  - exact Hj.
Qed.

(** C6. Every R, G and B element of the array [processChannel] produces
    lies in [0, 255], whatever the source, the crop, the configuration and
    the random draw, also when the scale exceeds 1; and the divisor [max]
    of the scale is at least 1, hence not zero. *)
Theorem normalizer_output_in_byte_range
    (drawImage : ImageData -> Rect -> Z -> Z -> list Z)
    (config : ProcessingConfig) (source : ImageData) (roi : Rect)
    (s : RandomState) (k v : Z) :
  index (fst (processChannel drawImage config source roi s)) k = Some v ->
  k mod 4 <> 3 ->
  0 <= v <= 255
  /\ 1 <= channelMax (drawImage source roi (targetWidth config) (targetHeight config))
  /\ Q2Qc (inject_Z (channelMax (drawImage source roi (targetWidth config)
                                  (targetHeight config)))) <> Q2Qc 0.
Proof.
  intros Hv Hk. unfold processChannel in Hv. simpl in Hv.
  pose proof (channelMax_floor
                (drawImage source roi (targetWidth config) (targetHeight config))) as Hmax.
  split; [exact (applyScale_rgb _ _ k v Hv Hk)|].
  split; [exact Hmax|].
  intros Heq. apply Q2Qc_eq_iff in Heq. unfold Qeq in Heq. simpl in Heq. lia.
Qed.

Lemma normalizer_output_in_byte_range_witness :
  (index (fst (processChannel drawNearest config0 (solid 4 4 90 200 250)
                 {| rx := 0; ry := 0; rw := 4; rh := 4 |} (draws (Q2Qc (99 # 100))))) 2
   = Some 205
   /\ 2 mod 4 <> 3)
  /\ (0 <= 205 <= 255
      /\ 1 <= channelMax (drawNearest (solid 4 4 90 200 250)
                            {| rx := 0; ry := 0; rw := 4; rh := 4 |} 2 2)
      /\ Q2Qc (inject_Z (channelMax (drawNearest (solid 4 4 90 200 250)
                                       {| rx := 0; ry := 0; rw := 4; rh := 4 |} 2 2)))
         <> Q2Qc 0).
Proof.
  split; [split; [vm_compute; reflexivity|discriminate]|].
  apply (normalizer_output_in_byte_range drawNearest config0 (solid 4 4 90 200 250)
           {| rx := 0; ry := 0; rw := 4; rh := 4 |} (draws (Q2Qc (99 # 100))) 2 205).
  - vm_compute. reflexivity.
  - discriminate.
Defined.

(** A scale above 1: with the draw 1/2 the target is 200 and the scale
    200/30, so 10, 20 and 30 become 66.67, 133.33 and 200, stored as 67,
    133 and 200. *)
Example normalizer_scales_up :
  fst (processChannel drawNearest config0 (solid 1 1 10 20 30)
         {| rx := 0; ry := 0; rw := 1; rh := 1 |} (draws (Q2Qc (1 # 2))))
  = [67; 133; 200; 255; 67; 133; 200; 255; 67; 133; 200; 255; 67; 133; 200; 255].
Proof. vm_compute. reflexivity. Qed.

(** ** Merge *)

Lemma mergeCell_len d1 d2 i m : len (mergeCell d1 d2 i m) = len m.
Proof. unfold mergeCell. destruct (_ && _); rewrite !len_store; reflexivity. Qed.

Lemma mergeCell_frame d1 d2 i m k :
  k < i \/ i + 4 <= k -> index (mergeCell d1 d2 i m) k = index m k.
Proof.
  intros Hk. unfold mergeCell.
  destruct (_ && _); rewrite !index_store_ne by lia; reflexivity.
Qed.

Lemma pixelAt_Some (d : list Z) (p r g b a : Z) :
  pixelAt d p = Some (r, g, b, a) ->
  index d (4 * p) = Some r /\ index d (4 * p + 1) = Some g
  /\ index d (4 * p + 2) = Some b /\ index d (4 * p + 3) = Some a.
Proof.
  unfold pixelAt.
  destruct (index d (4 * p)), (index d (4 * p + 1)), (index d (4 * p + 2)),
    (index d (4 * p + 3)); try discriminate.
  intros [= -> -> -> ->]. repeat split.
Qed.

Lemma mergeCell_pixel d1 d2 p m r1 g1 b1 a1 r2 g2 b2 a2 :
  0 <= p -> 4 * p + 4 <= len m ->
  pixelAt d1 p = Some (r1, g1, b1, a1) ->
  pixelAt d2 p = Some (r2, g2, b2, a2) ->
  0 <= r1 <= 255 -> 0 <= g1 <= 255 -> 0 <= b1 <= 255 ->
  0 <= r2 <= 255 -> 0 <= g2 <= 255 -> 0 <= b2 <= 255 ->
  pixelAt (mergeCell d1 d2 (4 * p) m) p
  = Some (if (r1 =? g1) && (g1 =? b1) && (r1 =? b1) then (r2, r1, 0, 255)
          else (Z.min 255 (r1 + r2), Z.min 255 (g1 + g2), Z.min 255 (b1 + b2), 255)).
Proof.
  intros Hp Hlen H1 H2 Hr1 Hg1 Hb1 Hr2 Hg2 Hb2.
  apply pixelAt_Some in H1 as (E1r & E1g & E1b & _).
  apply pixelAt_Some in H2 as (E2r & E2g & E2b & _).
  unfold pixelAt, mergeCell. rewrite E1r, E1g, E1b, E2r, E2g, E2b. simpl.
  destruct (Z.eqb_spec r1 g1) as [Hrg|Hrg], (Z.eqb_spec g1 b1) as [Hgb|Hgb],
    (Z.eqb_spec r1 b1) as [Hrb|Hrb]; simpl; try lia;
    rewrite ?(index_store_ne _ (4 * p + 3)) by lia;
    rewrite ?(index_store_ne _ (4 * p + 2) (4 * p + 1)) by lia;
    rewrite ?(index_store_ne _ (4 * p + 2) (4 * p)) by lia;
    rewrite ?(index_store_ne _ (4 * p + 1) (4 * p)) by lia;
    rewrite !index_store_eq by (rewrite ?len_store; lia);
    repeat f_equal; lia.
Qed.

(** C5. For a pixel [p] of the target size that both channel arrays hold,
    with byte components, the merge loop writes [(R2, R1, 0, 255)] when the
    R, G and B of channel 1 are pairwise equal, and otherwise
    [(min(255, R1 + R2), min(255, G1 + G2), min(255, B1 + B2), 255)]. *)
Theorem merge_pixel (d1 d2 : list Z) (targetWidth targetHeight p : Z)
    (r1 g1 b1 a1 r2 g2 b2 a2 : Z) :
  0 <= p < targetWidth * targetHeight ->
  pixelAt d1 p = Some (r1, g1, b1, a1) ->
  pixelAt d2 p = Some (r2, g2, b2, a2) ->
  0 <= r1 <= 255 -> 0 <= g1 <= 255 -> 0 <= b1 <= 255 ->
  0 <= r2 <= 255 -> 0 <= g2 <= 255 -> 0 <= b2 <= 255 ->
  pixelAt (merge d1 d2 targetWidth targetHeight) p
  = Some (if (r1 =? g1) && (g1 =? b1) && (r1 =? b1) then (r2, r1, 0, 255)
          else (Z.min 255 (r1 + r2), Z.min 255 (g1 + g2), Z.min 255 (b1 + b2), 255)).
Proof.
  intros Hp H1 H2 Hr1 Hg1 Hb1 Hr2 Hg2 Hb2. unfold merge.
  set (mData := replicate (Z.to_nat (targetWidth * targetHeight * 4)) 0).
  assert (Hlen : len mData = targetWidth * targetHeight * 4).
  { unfold len, mData. rewrite length_replicate. lia. }
  destruct (quad_loop_at (len mData) (mergeCell d1 d2) (mergeCell_len d1 d2)
              (mergeCell_frame d1 d2) (quads (len mData)) 0 mData (4 * p))
    as (m' & Hlen' & _ & Hat).
  - lia.
  - replace (4 * p - 0) with (0 + p * 4) by lia. rewrite Z.mod_add by lia. reflexivity.
  - apply quads_cover. lia.
  - rewrite <- (mergeCell_pixel d1 d2 p m' r1 g1 b1 a1 r2 g2 b2 a2)
      by (try assumption; lia).
    unfold pixelAt. rewrite !Hat by lia. reflexivity.
Qed.

Lemma merge_pixel_witness :
  (0 <= 1 < 2 * 1
   /\ pixelAt (px 9 9 9 ++ px 200 100 7) 1 = Some (200, 100, 7, 255)
   /\ pixelAt (px 5 5 5 ++ px 90 90 90) 1 = Some (90, 90, 90, 255)
   /\ 0 <= 200 <= 255 /\ 0 <= 100 <= 255 /\ 0 <= 7 <= 255
   /\ 0 <= 90 <= 255 /\ 0 <= 90 <= 255 /\ 0 <= 90 <= 255)
  /\ pixelAt (merge (px 9 9 9 ++ px 200 100 7) (px 5 5 5 ++ px 90 90 90) 2 1) 1
     = Some (if (200 =? 100) && (100 =? 7) && (200 =? 7) then (90, 200, 0, 255)
             else (Z.min 255 (200 + 90), Z.min 255 (100 + 90), Z.min 255 (7 + 90), 255)).
Proof.
  split; [repeat split; try reflexivity; lia|].
  apply (merge_pixel (px 9 9 9 ++ px 200 100 7) (px 5 5 5 ++ px 90 90 90) 2 1 1
           200 100 7 255 90 90 90 255);
    try reflexivity; lia.
Defined.

(** Both branches on that example: the gray pixel 0 gives [(5, 9, 0, 255)],
    the coloured pixel 1 gives [(255, 190, 97, 255)]. *)
Example merge_both_branches :
  merge (px 9 9 9 ++ px 200 100 7) (px 5 5 5 ++ px 90 90 90) 2 1
  = [5; 9; 0; 255; 255; 190; 97; 255].
Proof. reflexivity. Qed.

(** ** The entry point *)

(** [processRow] has no [throw]: for a positive target size it returns,
    with the crop of [findCoBrightestROI] and the layout
    [3 * targetWidth + 2 * padding] by [targetHeight]. *)
Lemma processRow_returns {N : NumberModel}
    (drawImage : ImageData -> Rect -> Z -> Z -> list Z)
    (img1 img2 : ImageData) (config : ProcessingConfig) (s : RandomState) :
  0 < targetWidth config -> 0 < targetHeight config ->
  exists fig,
    fst (processRow drawImage img1 img2 config s) = Normal fig
    /\ roi fig = findCoBrightestROI img1 img2
                   (inject_Z (targetWidth config) / inject_Z (targetHeight config))%Q
                   (clipBottom config)
    /\ finalWidth fig = targetWidth config * 3 + padding config * 2
    /\ finalHeight fig = targetHeight config.
Proof.
  intros _ _. unfold processRow.
  destruct (processChannel drawImage config img1 _ s) as [c1 s1].
  destruct (processChannel drawImage config img2 _ s1) as [c2 s2].
  eexists. simpl. repeat split.
Qed.

Lemma zero_jitter (u : Qc) : (u * Q2Qc 0 - Q2Qc 0 / Q2Qc 2 = Q2Qc 0)%Qc.
Proof. unfold Qcdiv. ring. Qed.

(** C7. With [randomness = 0] the array [processChannel] produces is the
    same for any two random sources: the draw is multiplied by 0. And for
    any two random sources, whatever [randomness] is, [processRow] returns
    figures with the same crop rectangle and the same layout. The target
    size is positive, as [ProcessingConfig] demands. *)
Theorem two_run_determinism {N : NumberModel}
    (drawImage : ImageData -> Rect -> Z -> Z -> list Z)
    (img1 img2 : ImageData) (config : ProcessingConfig) (s1 s2 : RandomState) :
  0 < targetWidth config -> 0 < targetHeight config ->
  (randomness config = Q2Qc 0 ->
   forall source roi,
     fst (processChannel drawImage config source roi s1)
     = fst (processChannel drawImage config source roi s2))
  /\ (exists f1 f2,
        fst (processRow drawImage img1 img2 config s1) = Normal f1
        /\ fst (processRow drawImage img1 img2 config s2) = Normal f2
        /\ roi f1 = roi f2
        /\ finalWidth f1 = finalWidth f2 /\ finalHeight f1 = finalHeight f2).
Proof.
  intros Htw Hth. split.
  - intros Hzero source roi. unfold processChannel. simpl.
    rewrite Hzero, !zero_jitter. reflexivity.
  - destruct (processRow_returns drawImage img1 img2 config s1 Htw Hth)
      as (f1 & E1 & R1 & W1 & H1).
    destruct (processRow_returns drawImage img1 img2 config s2 Htw Hth)
      as (f2 & E2 & R2 & W2 & H2).
    exists f1, f2. repeat split; congruence.
Qed.

Lemma two_run_determinism_witness :
  (0 < targetWidth (noJitter config0) /\ 0 < targetHeight (noJitter config0)
   /\ randomness (noJitter config0) = Q2Qc 0)
  /\ fst (processChannel drawNearest (noJitter config0) (solid 4 4 10 20 30)
            {| rx := 0; ry := 0; rw := 4; rh := 4 |} (draws (Q2Qc (1 # 10))))
     = fst (processChannel drawNearest (noJitter config0) (solid 4 4 10 20 30)
              {| rx := 0; ry := 0; rw := 4; rh := 4 |} (draws (Q2Qc (9 # 10))))
  /\ exists f1 f2,
       fst (processRow (N := ieee) drawNearest (solid 4 4 10 20 30) (solid 4 4 10 20 30)
              (noJitter config0) (draws (Q2Qc (1 # 10)))) = Normal f1
       /\ fst (processRow (N := ieee) drawNearest (solid 4 4 10 20 30)
                 (solid 4 4 10 20 30) (noJitter config0) (draws (Q2Qc (9 # 10))))
          = Normal f2
       /\ roi f1 = roi f2
       /\ finalWidth f1 = finalWidth f2 /\ finalHeight f1 = finalHeight f2.
Proof.
  split; [repeat split|].
  destruct (two_run_determinism (N := ieee) drawNearest (solid 4 4 10 20 30)
              (solid 4 4 10 20 30) (noJitter config0)
              (draws (Q2Qc (1 # 10))) (draws (Q2Qc (9 # 10))) eq_refl eq_refl)
    as [Hchannel Hrow].
  split; [apply Hchannel; reflexivity|exact Hrow].
Defined.

(** With [randomness = 5/100] the two draws [0] and [99/100] do give
    different arrays: the jitter is the only source of difference. *)
Example jitter_changes_brightness :
  fst (processChannel drawNearest config0 (solid 1 1 10 20 30)
         {| rx := 0; ry := 0; rw := 1; rh := 1 |} (draws (Q2Qc 0)))
  <> fst (processChannel drawNearest config0 (solid 1 1 10 20 30)
            {| rx := 0; ry := 0; rw := 1; rh := 1 |} (draws (Q2Qc (99 # 100)))).
Proof. vm_compute. discriminate. Qed.

(** C1, as the code has it. [processRow] compares no dimensions and has no
    [DimensionMismatchError]: for rasters of different width or height it
    returns (the target size being positive), and the crop is the one
    computed with the first raster's width and height over the second
    raster's pixel array. *)
Theorem processRow_checks_no_dimensions {N : NumberModel}
    (drawImage : ImageData -> Rect -> Z -> Z -> list Z)
    (img1 img2 : ImageData) (config : ProcessingConfig) (s : RandomState) :
  0 < targetWidth config -> 0 < targetHeight config ->
  width img1 <> width img2 \/ height img1 <> height img2 ->
  exists fig,
    fst (processRow drawImage img1 img2 config s) = Normal fig
    /\ roi fig
       = findCoBrightestROI img1
           {| width := width img1; height := height img1; data := data img2 |}
           (inject_Z (targetWidth config) / inject_Z (targetHeight config))%Q
           (clipBottom config).
Proof.
  intros Htw Hth _.
  destruct (processRow_returns drawImage img1 img2 config s Htw Hth)
    as (fig & E & R & _).
  exists fig. split; [exact E|]. rewrite R.
  apply findCoBrightestROI_second_data. reflexivity.
Qed.

Lemma processRow_checks_no_dimensions_witness :
  (0 < targetWidth config0 /\ 0 < targetHeight config0
   /\ (width (solid 4 4 10 10 10) <> width (solid 2 2 7 7 7)
       \/ height (solid 4 4 10 10 10) <> height (solid 2 2 7 7 7)))
  /\ exists fig,
       fst (processRow (N := ieee) drawNearest (solid 4 4 10 10 10) (solid 2 2 7 7 7)
              config0 (draws (Q2Qc (1 # 2)))) = Normal fig
       /\ roi fig
          = findCoBrightestROI (N := ieee) (solid 4 4 10 10 10)
              {| width := 4; height := 4; data := data (solid 2 2 7 7 7) |}
              (inject_Z 2 / inject_Z 2)%Q 0.
Proof.
  split; [repeat split; left; discriminate|].
  apply (processRow_checks_no_dimensions (N := ieee) drawNearest (solid 4 4 10 10 10)
           (solid 2 2 7 7 7) config0 (draws (Q2Qc (1 # 2))));
    [reflexivity|reflexivity|left; discriminate].
Defined.

(** C1, as the specification words it, fails: a 4 by 4 and a 2 by 2 raster
    are processed, no error is thrown, and a figure comes out. *)
Lemma mismatched_rasters_are_processed :
  (width (solid 4 4 10 10 10) <> width (solid 2 2 7 7 7)
   \/ height (solid 4 4 10 10 10) <> height (solid 2 2 7 7 7))
  /\ fst (processRow (N := ieee) drawNearest (solid 4 4 10 10 10) (solid 2 2 7 7 7)
            config0 (draws (Q2Qc (1 # 2))))
     <> Throw "DimensionMismatchError"
  /\ exists fig,
       fst (processRow (N := ieee) drawNearest (solid 4 4 10 10 10) (solid 2 2 7 7 7)
              config0 (draws (Q2Qc (1 # 2)))) = Normal fig
       /\ roi fig = {| rx := 0; ry := 0; rw := 4; rh := 4 |}
       /\ finalWidth fig = 26 /\ finalHeight fig = 2.
Proof.
  split; [left; discriminate|]. split.
  - vm_compute. discriminate.
  - eexists. split; [vm_compute; reflexivity|]. repeat split.
Qed.




(** A crop of height 0 is returned as well, when the aspect ratio exceeds
    the width. At [y = 0] the sum reads row [-1] and is [NaN]; at [y = 4]
    it is 0, which is above the initial [-1]. *)
Example zero_height_crop_is_returned :
  findCoBrightestROI (N := ieee) (solid 4 4 10 10 10) (solid 4 4 7 7 7) 100 0
  = {| rx := 0; ry := 4; rw := 4; rh := 0 |}.
Proof. vm_compute. reflexivity. Qed.

(** * Further properties *)

(** ** More on loops *)

Section LoopExit.
Context {S : Type}.
Variables (cond : Z -> bool) (step : Z) (body : Z -> S -> S) (limit : Z).
Hypothesis cond_limit : forall x, limit < x -> cond x = false.

(** With enough fuel the loop is left with its condition false. *)
Lemma for_loop_exit (P : Z -> S -> Prop) :
  (forall i s, P i s -> cond i = true -> P (i + step) (body i s)) ->
  forall fuel i s,
    limit < i + step * Z.of_nat fuel -> P i s ->
    exists j, P j (for_loop fuel i cond step body s) /\ cond j = false.
Proof.
  intros Hstep fuel. induction fuel as [|fuel IH]; intros i s Hfuel HP.
  - exists i. split; [exact HP|]. apply cond_limit. lia.
  - simpl. destruct (cond i) eqn:Hc.
    + apply IH; [lia|]. apply Hstep; assumption.
    + exists i. split; assumption.
Qed.
End LoopExit.

(** ** The output of the normalisation *)

Lemma processChannel_applies_scale
    (drawImage : ImageData -> Rect -> Z -> Z -> list Z)
    (config : ProcessingConfig) (source : ImageData) (roi : Rect) (s : RandomState) :
  fst (processChannel drawImage config source roi s)
  = applyScale
      (scaleOf config
         (channelMax (drawImage source roi (targetWidth config) (targetHeight config)))
         (s O))
      (drawImage source roi (targetWidth config) (targetHeight config)).
Proof. reflexivity. Qed.

Lemma applyScale_at (scale : Qc) (data : list Z) (k v : Z) :
  index data k = Some v ->
  index (applyScale scale data) k
  = Some (if k mod 4 =? 3 then v else scaledByte (Some v) scale).
Proof.
  intros Hv. pose proof (index_Some_lt _ _ _ Hv) as Hin.
  pose proof (Z.mod_pos_bound k 4 ltac:(lia)) as Hm.
  pose proof (Z.div_mod k 4 ltac:(lia)) as Hd.
  unfold applyScale.
  destruct (quad_loop_at (len data) (scaleCell scale) (scaleCell_len scale)
              (scaleCell_frame scale) (quads (len data)) 0 data (4 * (k / 4)))
    as (m' & Hlen & Hsame & Hat).
  - lia.
  - replace (4 * (k / 4) - 0) with (0 + (k / 4) * 4) by lia.
    rewrite Z.mod_add by lia. reflexivity.
  - apply quads_cover. lia.
  - rewrite (Hat k) by lia. unfold scaleCell.
    assert (Hj : k mod 4 = k - 4 * (k / 4)) by lia.
    assert (Hv' : index m' k = Some v) by (rewrite Hsame by lia; exact Hv).
    assert (Hlen' : len m' = len data) by exact Hlen.
    clear Hat Hsame Hlen Hd Hv.
    set (j := 4 * (k / 4)) in *. clearbody j.
    destruct (Z.eqb_spec (k mod 4) 3) as [H3|H3].
    + rewrite !index_store_ne by lia. exact Hv'.
    + destruct (Z.eq_dec k (j + 2)) as [E2|E2].
      { rewrite <- E2 at 1. rewrite index_store_eq by (rewrite ?len_store; lia).
        rewrite <- E2, Hv'. reflexivity. }
      rewrite (index_store_ne _ (j + 2)) by lia.
      destruct (Z.eq_dec k (j + 1)) as [E1|E1].
      { rewrite <- E1 at 1. rewrite index_store_eq by (rewrite ?len_store; lia).
        rewrite <- E1, Hv'. reflexivity. }
      rewrite (index_store_ne _ (j + 1)) by lia.
      assert (E0 : k = j) by lia.
      rewrite <- E0. rewrite index_store_eq by lia. rewrite Hv'. reflexivity.
Qed.

(** ** Order *)

Lemma Qccompare_cases (a b : Qc) :
  (Qccompare a b = Lt /\ (a < b)%Qc)
  \/ (Qccompare a b = Eq /\ a = b)
  \/ (Qccompare a b = Gt /\ (b < a)%Qc).
Proof.
  destruct (Qccompare a b) eqn:E.
  - right. left. split; [reflexivity|]. apply Qceq_alt. exact E.
  - left. split; [reflexivity|]. apply Qclt_alt. exact E.
  - right. right. split; [reflexivity|]. apply Qcgt_alt. exact E.
Qed.

Lemma Math_min_mono (c a b : Qc) :
  (a <= b)%Qc -> (Math_min c a <= Math_min c b)%Qc.
Proof.
  intros Hab. unfold Math_min.
  destruct (Qccompare_cases c a) as [[-> Hca]|[[-> Hca]|[-> Hca]]];
    destruct (Qccompare_cases c b) as [[-> Hcb]|[[-> Hcb]|[-> Hcb]]];
    try apply Qcle_refl.
  - exfalso. apply (Qclt_not_le _ _ Hcb). apply Qcle_trans with a; [|exact Hab].
    apply Qclt_le_weak. exact Hca.
  - subst c. exfalso. apply (Qclt_not_le _ _ Hcb). exact Hab.
  - apply Qclt_le_weak. exact Hca.
  - subst c. apply Qclt_le_weak. exact Hca.
  - exact Hab.
Qed.

Lemma toUint8Clamp_floor (q : Qc) :
  0 <= Qfloor q < 255 -> Qfloor q <= toUint8Clamp q <= Qfloor q + 1.
Proof.
  intros Hf. unfold toUint8Clamp.
  destruct (Z.ltb_spec (Qfloor q) 0); [lia|].
  destruct (Z.leb_spec 255 (Qfloor q)); [lia|].
  destruct (Qccompare _ _); [destruct (Z.even _)| |]; lia.
Qed.

Lemma toUint8Clamp_mono (q q' : Qc) :
  (q <= q')%Qc -> toUint8Clamp q <= toUint8Clamp q'.
Proof.
  intros Hq.
  assert (Hf : Qfloor q <= Qfloor q') by (apply Qfloor_resp_le; exact Hq).
  pose proof (toUint8Clamp_range q) as Hr. pose proof (toUint8Clamp_range q') as Hr'.
  destruct (Z.lt_ge_cases (Qfloor q) 0) as [Hneg|Hnn].
  { unfold toUint8Clamp at 1. destruct (Z.ltb_spec (Qfloor q) 0); lia. }
  destruct (Z.le_gt_cases 255 (Qfloor q')) as [Hbig'|Hsmall'].
  { unfold toUint8Clamp at 2.
    destruct (Z.ltb_spec (Qfloor q') 0); [lia|].
    destruct (Z.leb_spec 255 (Qfloor q')); lia. }
  pose proof (toUint8Clamp_floor q ltac:(lia)) as Hb.
  pose proof (toUint8Clamp_floor q' ltac:(lia)) as Hb'.
  destruct (Z.eq_dec (Qfloor q) (Qfloor q')) as [Heq|Hne]; [|lia].
  unfold toUint8Clamp.
  destruct (Z.ltb_spec (Qfloor q) 0); [lia|].
  destruct (Z.leb_spec 255 (Qfloor q)); [lia|].
  rewrite <- Heq.
  destruct (Z.ltb_spec (Qfloor q) 0); [lia|].
  destruct (Z.leb_spec 255 (Qfloor q)); [lia|].
  set (f := Q2Qc (inject_Z (Qfloor q))).
  assert (Hd : (q - f <= q' - f)%Qc).
  { unfold Qcminus. apply Qcplus_le_mono_r. exact Hq. }
  destruct (Qccompare_cases (q - f) (Q2Qc (1 # 2))) as [[-> Ha]|[[-> Ha]|[-> Ha]]];
    destruct (Qccompare_cases (q' - f) (Q2Qc (1 # 2))) as [[-> Hc]|[[-> Hc]|[-> Hc]]];
    try (destruct (Z.even (Qfloor q))); try lia; exfalso;
    try (apply (f_equal this) in Ha); try (apply (f_equal this) in Hc);
    unfold Qcle, Qclt in *;
    generalize dependent (this (q - f)); generalize dependent (this (q' - f));
    generalize dependent (this (Q2Qc (1 # 2)));
    intros; subst; lra.
Qed.

Lemma Q2Qc_inject_le (v v' : Z) :
  v <= v' -> (Q2Qc (inject_Z v) <= Q2Qc (inject_Z v'))%Qc.
Proof.
  intros Hv. unfold Qcle. simpl. rewrite !Qred_correct. rewrite <- Zle_Qle. exact Hv.
Qed.

Lemma scaledByte_mono (v v' : Z) (scale : Qc) :
  (0 <= scale)%Qc -> v <= v' ->
  scaledByte (Some v) scale <= scaledByte (Some v') scale.
Proof.
  intros Hs Hv. unfold scaledByte.
  apply toUint8Clamp_mono. apply Math_min_mono.
  apply Qcmult_le_mono_nonneg_r; [exact Hs|].
  apply Q2Qc_inject_le. exact Hv.
Qed.

Lemma stochastic_nonneg (u rnd : Qc) :
  (0 <= u)%Qc -> (0 <= rnd)%Qc -> (rnd <= Q2Qc 2)%Qc ->
  (0 <= 1 + (u * rnd - rnd / Q2Qc 2))%Qc.
Proof.
  unfold Qcle. intros Hu Hr Hr2.
  unfold Qcdiv, Qcminus, Qcopp, Qcinv, Qcplus, Qcmult. simpl in *.
  rewrite !Qred_correct in *.
  assert (Hur : (0 <= this u * this rnd)%Q) by (apply Qmult_le_0_compat; assumption).
  set (p := (this u * this rnd)%Q) in *. clearbody p.
  set (x := this rnd) in *. clearbody x.
  assert (Hhalf : (x * / 2 <= 1)%Q).
  { apply Qle_trans with (2 * / 2)%Q; [|discriminate].
    apply Qmult_le_compat_r; [exact Hr2|]. discriminate. }
  set (y := (x * / 2)%Q) in *. clearbody y. lra.
Qed.

Lemma scaleOf_nonneg (config : ProcessingConfig) (max : Z) (u : Qc) :
  1 <= max ->
  (0 <= targetIntensity config)%Qc ->
  (0 <= randomness config)%Qc -> (randomness config <= Q2Qc 2)%Qc ->
  (0 <= u)%Qc ->
  (0 <= scaleOf config max u)%Qc.
Proof.
  intros Hmax HT Hr Hr2 Hu. unfold scaleOf, Qcdiv.
  apply Qcmult_nonneg_nonneg.
  - apply Qcmult_nonneg_nonneg; [exact HT|].
    apply stochastic_nonneg; assumption.
  - apply Qclt_le_weak. apply Qcinv_pos.
    unfold Qclt. simpl. rewrite !Qred_correct.
    unfold Qlt. simpl. lia.
Qed.

(** ** The running maximum *)

Lemma maxCell_keeps (data : list Z) (i max : Z) :
  maxSoFar data i max -> 1 <= max -> (i <? len data) = true ->
  maxSoFar data (i + 4) (maxCell data i max) /\ 1 <= maxCell data i max.
Proof.
  intros ([Hi Hmod] & Hbound & Hatt) Hone Hc. apply Z.ltb_lt in Hc.
  assert (Hquad : forall k, i <= k < i + 4 -> 4 * (k / 4) = i /\ k mod 4 = k - i).
  { intros k Hk. pose proof (Z.div_mod i 4 ltac:(lia)) as Hdi.
    assert (Hkd : k / 4 = i / 4).
    { symmetry. apply (Z.div_unique k 4 (i / 4) (k - i)); lia. }
    pose proof (Z.div_mod k 4 ltac:(lia)). lia. }
  unfold maxCell, max3.
  destruct (index data i) as [a|] eqn:Ea.
  2:{ destruct (index_lt_Some data i ltac:(lia)) as [a Ea']. congruence. }
  destruct (index data (i + 1)) as [b|] eqn:Eb;
    [destruct (index data (i + 2)) as [c|] eqn:Ec|].
  - set (val := Z.max (Z.max a b) c).
    assert (Hnew : (if val >? max then val else max) = Z.max max val).
    { destruct (Z.gtb_spec val max); lia. }
    rewrite Hnew. split; [|lia]. split; [|split].
    + split; [lia|]. rewrite <- Hmod. replace (i + 4) with (i + 1 * 4) by lia.
      apply Z.mod_add. lia.
    + intros k v Hk H3 Hcomp Hv.
      destruct (Z.lt_ge_cases k i) as [Hlt|Hge].
      * pose proof (Hbound k v ltac:(lia) H3 Hcomp Hv). lia.
      * destruct (Hquad k ltac:(lia)) as [_ Hkm].
        assert (Hcase : k = i \/ k = i + 1 \/ k = i + 2) by lia.
        destruct Hcase as [ -> | [ -> | -> ] ];
          [rewrite Ea in Hv|rewrite Eb in Hv|rewrite Ec in Hv];
          injection Hv as <-; lia.
    + destruct (Z.max_spec max val) as [[Hlt ->]|[Hge ->]]; [|exact Hatt].
      right. unfold val.
      destruct (Z.max_spec (Z.max a b) c) as [[_ ->]|[_ ->]].
      * exists (i + 2). split; [|exact Ec]. destruct (Hquad (i + 2) ltac:(lia)). lia.
      * destruct (Z.max_spec a b) as [[_ ->]|[_ ->]].
        -- exists (i + 1). split; [|exact Eb]. destruct (Hquad (i + 1) ltac:(lia)). lia.
        -- exists i. split; [|exact Ea]. destruct (Hquad i ltac:(lia)). lia.
  - split; [|exact Hone]. split; [|split]; [| |exact Hatt].
    + split; [lia|]. rewrite <- Hmod. replace (i + 4) with (i + 1 * 4) by lia.
      apply Z.mod_add. lia.
    + intros k v Hk H3 Hcomp Hv.
      destruct (Z.lt_ge_cases k i) as [Hlt|Hge]; [apply (Hbound k v); auto; lia|].
      exfalso. destruct (Hquad k ltac:(lia)) as [Hq _].
      destruct (index_lt_Some data (i + 2) ltac:(lia)) as [c Ec']. congruence.
  - split; [|exact Hone]. split; [|split]; [| |exact Hatt].
    + split; [lia|]. rewrite <- Hmod. replace (i + 4) with (i + 1 * 4) by lia.
      apply Z.mod_add. lia.
    + intros k v Hk H3 Hcomp Hv.
      destruct (Z.lt_ge_cases k i) as [Hlt|Hge]; [apply (Hbound k v); auto; lia|].
      exfalso. destruct (Hquad k ltac:(lia)) as [Hq _].
      destruct (index_lt_Some data (i + 1) ltac:(lia)) as [c Ec']. congruence.
Qed.

Lemma channelMax_spec (data : list Z) :
  1 <= channelMax data
  /\ (forall k v, k mod 4 <> 3 -> 4 * (k / 4) + 2 < len data ->
        index data k = Some v -> v <= channelMax data)
  /\ (channelMax data = 1
      \/ exists k, k mod 4 <> 3 /\ index data k = Some (channelMax data)).
Proof.
  unfold channelMax.
  assert (Hlimit : forall x, len data - 1 < x -> (x <? len data) = false).
  { intros x Hx. apply Z.ltb_ge. lia. }
  destruct (for_loop_exit (fun i => i <? len data) 4 (maxCell data) (len data - 1)
              Hlimit (fun i max => maxSoFar data i max /\ 1 <= max))
    with (fuel := quads (len data)) (i := 0) (s := 1) as (j & [Hinv Hone] & Hexit).
  - intros i max [Hinv Hone] Hc. apply maxCell_keeps; assumption.
  - pose proof (Z.le_gt_cases (len data) 0) as [Hle|Hgt]; [lia|].
    pose proof (quads_cover (len data) (len data - 1) ltac:(lia)). lia.
  - split; [split; [split; [lia|reflexivity]|split]|lia].
    + intros k v Hk. lia.
    + left. reflexivity.
  - apply Z.ltb_ge in Hexit. destruct Hinv as (_ & Hbound & Hatt).
    split; [exact Hone|]. split; [|exact Hatt].
    intros k v H3 Hcomp Hv. pose proof (index_Some_lt _ _ _ Hv).
    apply (Hbound k v); auto. lia.
Qed.

(** X4. The first loop of [processChannel]: [max] is at least every R,
    G and B of the pixels that are complete in the array, and it is
    either the initial 1 or one of these components. *)
Theorem channelMax_is_maximum (data : list Z) (k v : Z) :
  index data k = Some v -> k mod 4 <> 3 -> 4 * (k / 4) + 2 < len data ->
  v <= channelMax data
  /\ (channelMax data = 1
      \/ exists k', k' mod 4 <> 3 /\ index data k' = Some (channelMax data)).
Proof.
  intros Hv Hk Hcomp. destruct (channelMax_spec data) as (_ & Hbound & Hatt).
  split; [|exact Hatt]. apply (Hbound k v); assumption.
Qed.

Lemma channelMax_is_maximum_witness :
  (index (px 10 20 30 ++ px 40 50 60) 1 = Some 20 /\ 1 mod 4 <> 3
   /\ 4 * (1 / 4) + 2 < len (px 10 20 30 ++ px 40 50 60))
  /\ (20 <= channelMax (px 10 20 30 ++ px 40 50 60)
      /\ (channelMax (px 10 20 30 ++ px 40 50 60) = 1
          \/ exists k', k' mod 4 <> 3
               /\ index (px 10 20 30 ++ px 40 50 60) k'
                  = Some (channelMax (px 10 20 30 ++ px 40 50 60)))).
Proof.
  split; [split; [reflexivity|split; [discriminate|reflexivity]]|].
  apply (channelMax_is_maximum (px 10 20 30 ++ px 40 50 60) 1 20);
    [reflexivity|discriminate|reflexivity].
Defined.

(** X7. [processChannel] keeps the order of intensities: for a target
    intensity that is not negative, a randomness between 0 and 2 and a
    draw that is not negative, a component that is at most another one in
    the crop drawn is at most that one in the array returned. *)
Theorem normalizer_preserves_order
    (drawImage : ImageData -> Rect -> Z -> Z -> list Z)
    (config : ProcessingConfig) (source : ImageData) (roi : Rect)
    (s : RandomState) (a b va vb : Z) :
  (0 <= targetIntensity config)%Qc ->
  (0 <= randomness config)%Qc -> (randomness config <= Q2Qc 2)%Qc ->
  (0 <= s O)%Qc ->
  index (drawImage source roi (targetWidth config) (targetHeight config)) a = Some va ->
  index (drawImage source roi (targetWidth config) (targetHeight config)) b = Some vb ->
  a mod 4 <> 3 -> b mod 4 <> 3 ->
  va <= vb ->
  exists oa ob,
    index (fst (processChannel drawImage config source roi s)) a = Some oa
    /\ index (fst (processChannel drawImage config source roi s)) b = Some ob
    /\ oa <= ob.
Proof.
  intros HT Hr Hr2 Hu Ha Hb Ha3 Hb3 Hle.
  rewrite processChannel_applies_scale.
  rewrite (applyScale_at _ _ a va Ha), (applyScale_at _ _ b vb Hb).
  destruct (Z.eqb_spec (a mod 4) 3) as [H|_]; [contradiction|].
  destruct (Z.eqb_spec (b mod 4) 3) as [H|_]; [contradiction|].
  eexists _, _. split; [reflexivity|]. split; [reflexivity|].
  apply scaledByte_mono; [|exact Hle].
  apply scaleOf_nonneg; try assumption. apply channelMax_spec.
Qed.

Lemma normalizer_preserves_order_witness :
  ((0 <= targetIntensity config0)%Qc
   /\ (0 <= randomness config0)%Qc /\ (randomness config0 <= Q2Qc 2)%Qc
   /\ (0 <= draws (Q2Qc (99 # 100)) O)%Qc
   /\ index (drawNearest (solid 4 4 90 200 250) {| rx := 0; ry := 0; rw := 4; rh := 4 |}
               (targetWidth config0) (targetHeight config0)) 0 = Some 90
   /\ index (drawNearest (solid 4 4 90 200 250) {| rx := 0; ry := 0; rw := 4; rh := 4 |}
               (targetWidth config0) (targetHeight config0)) 1 = Some 200
   /\ 0 mod 4 <> 3 /\ 1 mod 4 <> 3 /\ 90 <= 200)
  /\ exists oa ob,
       index (fst (processChannel drawNearest config0 (solid 4 4 90 200 250)
                     {| rx := 0; ry := 0; rw := 4; rh := 4 |} (draws (Q2Qc (99 # 100))))) 0
       = Some oa
       /\ index (fst (processChannel drawNearest config0 (solid 4 4 90 200 250)
                        {| rx := 0; ry := 0; rw := 4; rh := 4 |}
                        (draws (Q2Qc (99 # 100))))) 1
          = Some ob
       /\ oa <= ob.
Proof.
  split.
  - split; [discriminate|]. split; [discriminate|]. split; [discriminate|].
    split; [discriminate|]. split; [reflexivity|]. split; [reflexivity|].
    split; [discriminate|]. split; [discriminate|lia].
  - apply (normalizer_preserves_order drawNearest config0 (solid 4 4 90 200 250)
             {| rx := 0; ry := 0; rw := 4; rh := 4 |} (draws (Q2Qc (99 # 100)))
             0 1 90 200);
      try reflexivity; try discriminate; lia.
Defined.

(** ** More on the merge *)

Lemma merge_len (d1 d2 : list Z) (tw th : Z) :
  len (merge d1 d2 tw th) = Z.max 0 (tw * th * 4).
Proof.
  unfold merge.
  rewrite (quad_loop_len _ (mergeCell d1 d2) (mergeCell_len d1 d2)).
  unfold len. rewrite length_replicate. lia.
Qed.

(** Pixel [p] of the merged array is what the iteration of [p] wrote. *)
Lemma merge_at (d1 d2 : list Z) (tw th p : Z) :
  0 <= p < tw * th ->
  exists m', len m' = tw * th * 4
    /\ pixelAt (merge d1 d2 tw th) p = pixelAt (mergeCell d1 d2 (4 * p) m') p.
Proof.
  intros Hp. unfold merge.
  set (mData := replicate (Z.to_nat (tw * th * 4)) 0).
  assert (Hlen : len mData = tw * th * 4).
  { unfold len, mData. rewrite length_replicate. lia. }
  destruct (quad_loop_at (len mData) (mergeCell d1 d2) (mergeCell_len d1 d2)
              (mergeCell_frame d1 d2) (quads (len mData)) 0 mData (4 * p))
    as (m' & Hlen' & _ & Hat).
  - lia.
  - replace (4 * p - 0) with (0 + p * 4) by lia. rewrite Z.mod_add by lia. reflexivity.
  - apply quads_cover. lia.
  - exists m'. split; [lia|]. unfold pixelAt. rewrite !Hat by lia. reflexivity.
Qed.

Lemma copyByte_range (a : option Z) : 0 <= copyByte a <= 255.
Proof. destruct a; simpl; lia. Qed.

Lemma addClamp_range (a b : option Z) : 0 <= addClamp a b <= 255.
Proof. destruct a, b; simpl; lia. Qed.

Lemma mergeCell_opaque (d1 d2 : list Z) (p : Z) (m : list Z) :
  0 <= p -> 4 * p + 4 <= len m ->
  exists r g b,
    pixelAt (mergeCell d1 d2 (4 * p) m) p = Some (r, g, b, 255)
    /\ 0 <= r <= 255 /\ 0 <= g <= 255 /\ 0 <= b <= 255.
Proof.
  intros Hp Hlen. unfold pixelAt, mergeCell.
  destruct (optEqb _ _ && optEqb _ _);
    rewrite ?(index_store_ne _ (4 * p + 3)) by lia;
    rewrite ?(index_store_ne _ (4 * p + 2) (4 * p + 1)) by lia;
    rewrite ?(index_store_ne _ (4 * p + 2) (4 * p)) by lia;
    rewrite ?(index_store_ne _ (4 * p + 1) (4 * p)) by lia;
    rewrite !index_store_eq by (rewrite ?len_store; lia);
    eexists _, _, _; (split; [reflexivity|]);
    repeat split; try apply copyByte_range; try apply addClamp_range; lia.
Qed.

(** X8. The merge loop fills the whole array: whatever the two channel
    arrays hold, also when they are shorter than the target, every pixel
    of the merged array has alpha 255 and R, G and B between 0 and 255. *)
Theorem merge_is_opaque_bytes (d1 d2 : list Z) (targetWidth targetHeight p : Z) :
  0 <= p < targetWidth * targetHeight ->
  len (merge d1 d2 targetWidth targetHeight) = targetWidth * targetHeight * 4
  /\ exists r g b,
       pixelAt (merge d1 d2 targetWidth targetHeight) p = Some (r, g, b, 255)
       /\ 0 <= r <= 255 /\ 0 <= g <= 255 /\ 0 <= b <= 255.
Proof.
  intros Hp. split; [rewrite merge_len; lia|].
  destruct (merge_at d1 d2 targetWidth targetHeight p Hp) as (m' & Hlen & ->).
  apply mergeCell_opaque; lia.
Qed.

Lemma merge_is_opaque_bytes_witness :
  0 <= 1 < 2 * 1
  /\ (len (merge (px 9 9 9) [] 2 1) = 2 * 1 * 4
      /\ exists r g b,
           pixelAt (merge (px 9 9 9) [] 2 1) 1 = Some (r, g, b, 255)
           /\ 0 <= r <= 255 /\ 0 <= g <= 255 /\ 0 <= b <= 255).
Proof.
  split; [lia|]. apply (merge_is_opaque_bytes (px 9 9 9) [] 2 1 1). lia.
Defined.

(** ** Properties of the history *)

Lemma withCanvas_same (r : ProcessedRow) :
  withCanvas r (processedCanvas r) = r.
Proof. destruct r; reflexivity. Qed.

Lemma currentSnapshot_stripped (st : AppState) : stripped (currentSnapshot st).
Proof.
  unfold stripped, currentSnapshot. simpl.
  induction (rows st) as [|r l IH]; simpl; constructor; [reflexivity|exact IH].
Qed.

Lemma stripped_restore (l : list ProcessedRow) :
  Forall (fun r => processedCanvas r = None) l ->
  map (fun r => withCanvas r None) l = l.
Proof.
  induction l as [|r l IH]; intros Hall; [reflexivity|].
  inversion Hall as [|? ? Hr Hl]; subst. simpl.
  rewrite <- Hr at 1. rewrite withCanvas_same, (IH Hl). reflexivity.
Qed.

Lemma len_app {A : Type} (l k : list A) : len (l ++ k) = len l + len k.
Proof. unfold len. rewrite length_app. lia. Qed.

Lemma len_nonneg {A : Type} (l : list A) : 0 <= len l.
Proof. unfold len. lia. Qed.

(** The last element of a non-empty array and the rest of it. *)
Lemma index_last {A : Type} (l : list A) (x : A) :
  index (l ++ [x]) (len (l ++ [x]) - 1) = Some x.
Proof.
  rewrite len_app. change (len [x]) with 1. unfold index.
  pose proof (len_nonneg l) as Hl.
  destruct (Z.ltb_spec (len l + 1 - 1) 0); [lia|].
  replace (Z.to_nat (len l + 1 - 1)) with (length l) by (unfold len; lia).
  rewrite lookup_app_r by lia. rewrite Nat.sub_diag. reflexivity.
Qed.

Lemma index_last_inv {A : Type} (l : list A) (x : A) :
  index l (len l - 1) = Some x -> l = removelast l ++ [x].
Proof.
  intros Hx. destruct l as [|a l] using rev_ind.
  - unfold index in Hx. simpl in Hx. discriminate.
  - rewrite index_last in Hx. injection Hx as ->. rewrite removelast_last. reflexivity.
Qed.

Lemma pushToHistory_ok (st : AppState) :
  historyOK (history st) -> historyOK (history (pushToHistory st)).
Proof.
  intros (Hlen & Hp & Hf). unfold pushToHistory, historyOK. simpl.
  assert (Hall : Forall stripped (past (history st) ++ [currentSnapshot st])).
  { apply Forall_app. split; [exact Hp|]. constructor; [|constructor].
    apply currentSnapshot_stripped. }
  pose proof (len_nonneg (future (history st))) as Hfut.
  assert (Hl : len (past (history st) ++ [currentSnapshot st])
               = len (past (history st)) + 1) by (rewrite len_app; reflexivity).
  destruct (Z.ltb_spec 30 (len (past (history st) ++ [currentSnapshot st]))) as [Hfull|Hroom].
  - destruct (past (history st) ++ [currentSnapshot st]) as [|a l] eqn:E.
    + destruct (past (history st)); discriminate.
    + simpl. unfold len in *. simpl in *. split; [lia|]. split; [|constructor].
      inversion Hall; assumption.
  - change (len (@nil Snapshot)) with 0. split; [lia|]. split; [exact Hall|constructor].
Qed.

Lemma undo_ok (st : AppState) :
  historyOK (history st) -> historyOK (history (undo st)).
Proof.
  intros Hok. pose proof Hok as (Hlen & Hp & Hf). unfold undo.
  destruct (len (past (history st)) =? 0); [exact Hok|].
  destruct (index (past (history st)) _) as [previous|] eqn:E; [|exact Hok].
  apply index_last_inv in E. unfold historyOK. simpl.
  assert (Hl : len (past (history st)) = len (removelast (past (history st))) + 1).
  { rewrite E at 1. rewrite len_app. reflexivity. }
  split; [|split].
  - unfold len in *. simpl. lia.
  - rewrite E in Hp. apply Forall_app in Hp. apply Hp.
  - constructor; [apply currentSnapshot_stripped|exact Hf].
Qed.

Lemma redo_ok (st : AppState) :
  historyOK (history st) -> historyOK (history (redo st)).
Proof.
  intros Hok. pose proof Hok as (Hlen & Hp & Hf). unfold redo.
  destruct (future (history st)) as [|next newFuture] eqn:E; [exact Hok|].
  change (len (next :: newFuture) =? 0) with false.
  change (index (next :: newFuture) 0) with (Some next).
  unfold historyOK. simpl. split; [|split].
  - rewrite len_app. unfold len in *. simpl in *. lia.
  - apply Forall_app. split; [exact Hp|]. constructor; [|constructor].
    apply currentSnapshot_stripped.
  - inversion Hf; assumption.
Qed.

Lemma applyEvent_ok (st : AppState) (e : Event) :
  historyOK (history st) -> historyOK (history (applyEvent st e)).
Proof.
  destruct e; simpl; intros Hok.
  - apply pushToHistory_ok, Hok.
  - apply undo_ok, Hok.
  - apply redo_ok, Hok.
  - exact Hok.
  - exact Hok.
Qed.

(** X10. The history holds at most 30 snapshots, [past] and [future]
    taken together, and no row of a snapshot holds a canvas, whatever
    sequence of [pushToHistory], [undo], [redo] and other changes of rows
    and configuration the application has gone through since it started. *)
Theorem history_is_bounded_and_stripped (c : ProcessingConfig) (events : list Event) :
  len (past (history (fold_left applyEvent events (initialState c))))
  + len (future (history (fold_left applyEvent events (initialState c)))) <= 30
  /\ (forall sn r,
        In sn (past (history (fold_left applyEvent events (initialState c)))
               ++ future (history (fold_left applyEvent events (initialState c)))) ->
        In r (snapRows sn) -> processedCanvas r = None).
Proof.
  assert (Hok : historyOK (history (fold_left applyEvent events (initialState c)))).
  { assert (H0 : historyOK (history (initialState c))).
    { unfold historyOK, initialState. simpl. unfold len. simpl.
      split; [lia|split; constructor]. }
    revert H0. generalize (initialState c). induction events as [|e events IH]; intros st H0.
    - exact H0.
    - simpl. apply IH, applyEvent_ok, H0. }
  destruct Hok as (Hlen & Hp & Hf). split; [exact Hlen|].
  intros sn r Hsn Hr. apply in_app_or in Hsn.
  assert (Hs : stripped sn).
  { destruct Hsn as [Hsn|Hsn].
    - rewrite List.Forall_forall in Hp. apply Hp, Hsn.
    - rewrite List.Forall_forall in Hf. apply Hf, Hsn. }
  unfold stripped in Hs. rewrite List.Forall_forall in Hs. apply Hs, Hr.
Qed.

(** [undo] and [redo] where they do something. *)
Lemma undo_eq (st : AppState) (p : list Snapshot) (previous : Snapshot) :
  past (history st) = p ++ [previous] ->
  undo st = {| rows := snapRows previous; config := snapConfig previous;
               history := {| past := p;
                             future := currentSnapshot st :: future (history st) |} |}.
Proof.
  intros E. unfold undo. rewrite E, index_last, removelast_last.
  assert (Hne : (len (p ++ [previous]) =? 0) = false).
  { apply Z.eqb_neq. rewrite len_app. pose proof (len_nonneg p).
    change (len [previous]) with 1. lia. }
  rewrite Hne. reflexivity.
Qed.

Lemma redo_eq (st : AppState) (next : Snapshot) (newFuture : list Snapshot) :
  future (history st) = next :: newFuture ->
  redo st = {| rows := snapRows next; config := snapConfig next;
               history := {| past := past (history st) ++ [currentSnapshot st];
                             future := newFuture |} |}.
Proof. intros E. unfold redo. rewrite E. reflexivity. Qed.

Lemma snapshot_restore (sn : Snapshot) (h : History) :
  stripped sn ->
  currentSnapshot {| rows := snapRows sn; config := snapConfig sn; history := h |} = sn.
Proof.
  intros Hs. unfold currentSnapshot. simpl. rewrite (stripped_restore _ Hs).
  destruct sn; reflexivity.
Qed.

(** The history after [pushToHistory] ends with the snapshot taken. *)
Lemma pushToHistory_past (st : AppState) :
  exists p, past (history (pushToHistory st)) = p ++ [currentSnapshot st]
            /\ future (history (pushToHistory st)) = []
            /\ rows (pushToHistory st) = rows st
            /\ config (pushToHistory st) = config st.
Proof.
  unfold pushToHistory. simpl.
  destruct (Z.ltb_spec 30 (len (past (history st) ++ [currentSnapshot st]))) as [Hfull|_].
  - destruct (past (history st)) as [|a l] eqn:E.
    + unfold len in Hfull. simpl in Hfull. lia.
    + exists l. simpl. auto.
  - exists (past (history st)). auto.
Qed.

(** [undo] right after [pushToHistory] and any change of rows and
    configuration. *)
Lemma undo_after_push (st : AppState) (newRows : list ProcessedRow)
    (newConfig : ProcessingConfig) :
  let st' := setConfig newConfig (setRows newRows (pushToHistory st)) in
  rows (undo st') = map (fun r => withCanvas r None) (rows st)
  /\ config (undo st') = config st
  /\ redo (undo st') = setRows (map (fun r => withCanvas r None) newRows) st'.
Proof.
  cbv zeta. destruct (pushToHistory_past st) as (p & Hp & Hf & _ & _).
  set (st' := setConfig newConfig (setRows newRows (pushToHistory st))).
  assert (Hp' : past (history st') = p ++ [currentSnapshot st]) by exact Hp.
  assert (Hf' : future (history st') = []) by exact Hf.
  rewrite (undo_eq st' p _ Hp'). simpl. split; [reflexivity|]. split; [reflexivity|].
  erewrite redo_eq by reflexivity. simpl.
  change {| snapRows := map (fun r => withCanvas r None) (rows st); snapConfig := config st |}
    with (currentSnapshot st).
  rewrite (snapshot_restore (currentSnapshot st) _ (currentSnapshot_stripped st)).
  unfold setRows. f_equal.
  destruct (history st') as [p' f'] eqn:E. simpl in Hp', Hf'. subst p' f'. reflexivity.
Qed.

(** X11. Each handler that edits the rows pushes the state it starts
    from: [undo] right after [handleAddRow], [handleRemoveRow] or
    [handleSwap] gives back the rows, without their canvases, and the
    configuration from before the edit, and [redo] after that gives back
    the edited rows, without their canvases, and the history the edit
    left. *)
Theorem undo_reverts_a_row_edit (st : AppState) (newId : string) (now : Z)
    (id0 : string) (st' : AppState) :
  st' = handleAddRow newId now st \/ st' = handleRemoveRow id0 st
  \/ st' = handleSwap id0 st ->
  rows (undo st') = map (fun r => withCanvas r None) (rows st)
  /\ config (undo st') = config st
  /\ rows (redo (undo st')) = map (fun r => withCanvas r None) (rows st')
  /\ config (redo (undo st')) = config st'
  /\ history (redo (undo st')) = history st'.
Proof.
  intros Hst'.
  assert (Hedit : exists newRows,
             st' = setConfig (config st) (setRows newRows (pushToHistory st))).
  { destruct Hst' as [ -> | [ -> | -> ] ];
      [exists (rows (handleAddRow newId now st))
      |exists (rows (handleRemoveRow id0 st))
      |exists (rows (handleSwap id0 st))]; reflexivity. }
  destruct Hedit as [newRows ->].
  destruct (undo_after_push st newRows (config st)) as (Hr & Hc & Hredo).
  rewrite Hredo. repeat split; assumption.
Qed.

Lemma undo_reverts_a_row_edit_witness :
  (handleRemoveRow "b" state0 = handleAddRow "d" 7 state0
   \/ handleRemoveRow "b" state0 = handleRemoveRow "b" state0
   \/ handleRemoveRow "b" state0 = handleSwap "b" state0)
  /\ (rows (undo (handleRemoveRow "b" state0))
      = map (fun r => withCanvas r None) (rows state0)
      /\ config (undo (handleRemoveRow "b" state0)) = config state0
      /\ rows (redo (undo (handleRemoveRow "b" state0)))
         = map (fun r => withCanvas r None) (rows (handleRemoveRow "b" state0))
      /\ config (redo (undo (handleRemoveRow "b" state0)))
         = config (handleRemoveRow "b" state0)
      /\ history (redo (undo (handleRemoveRow "b" state0)))
         = history (handleRemoveRow "b" state0)).
Proof.
  split; [right; left; reflexivity|].
  apply (undo_reverts_a_row_edit state0 "d" 7 "b" (handleRemoveRow "b" state0)).
  right; left; reflexivity.
Defined.

(** X12. From any state the application reaches, [redo] after [undo],
    when there is something to undo, and [undo] after [redo], when there
    is something to redo, give back the rows without their canvases, the
    configuration and the history. *)
Theorem undo_redo_round_trip (c : ProcessingConfig) (events : list Event)
    (st : AppState) :
  st = fold_left applyEvent events (initialState c) ->
  (past (history st) <> [] ->
     redo (undo st) = setRows (map (fun r => withCanvas r None) (rows st)) st)
  /\ (future (history st) <> [] ->
     undo (redo st) = setRows (map (fun r => withCanvas r None) (rows st)) st).
Proof.
  intros Hst.
  assert (Hok : historyOK (history st)).
  { subst st.
    assert (H0 : historyOK (history (initialState c))).
    { unfold historyOK, initialState. simpl. unfold len. simpl.
      split; [lia|split; constructor]. }
    revert H0. generalize (initialState c). induction events as [|e events IH]; intros st H0.
    - exact H0.
    - simpl. apply IH, applyEvent_ok, H0. }
  clear Hst. destruct Hok as (_ & Hp & Hf).
  destruct st as [r cfg [p f]]. simpl in *. split; intros Hne.
  - destruct p as [|a p] using rev_ind; [congruence|]. clear IHp.
    apply Forall_app in Hp as [_ Ha]. inversion Ha as [|? ? Hsa _]; subst.
    erewrite (undo_eq _ p a) by reflexivity.
    erewrite redo_eq by reflexivity. simpl.
    rewrite (snapshot_restore a _ Hsa). reflexivity.
  - destruct f as [|a f]; [congruence|].
    inversion Hf as [|? ? Hsa _]; subst.
    erewrite redo_eq by reflexivity.
    erewrite (undo_eq _ p) by reflexivity. simpl.
    rewrite (snapshot_restore a _ Hsa). reflexivity.
Qed.

Lemma undo_redo_round_trip_witness :
  applyEvent (applyEvent (initialState config0) (EvSetRows (rows state0))) EvPush
  = fold_left applyEvent [EvSetRows (rows state0); EvPush] (initialState config0)
  /\ ((past (history (applyEvent (applyEvent (initialState config0)
                                    (EvSetRows (rows state0))) EvPush)) <> [] ->
       redo (undo (applyEvent (applyEvent (initialState config0)
                                 (EvSetRows (rows state0))) EvPush))
       = setRows (map (fun r => withCanvas r None)
                    (rows (applyEvent (applyEvent (initialState config0)
                                         (EvSetRows (rows state0))) EvPush)))
           (applyEvent (applyEvent (initialState config0)
                          (EvSetRows (rows state0))) EvPush))
      /\ (future (history (applyEvent (applyEvent (initialState config0)
                                         (EvSetRows (rows state0))) EvPush)) <> [] ->
          undo (redo (applyEvent (applyEvent (initialState config0)
                                    (EvSetRows (rows state0))) EvPush))
          = setRows (map (fun r => withCanvas r None)
                       (rows (applyEvent (applyEvent (initialState config0)
                                            (EvSetRows (rows state0))) EvPush)))
              (applyEvent (applyEvent (initialState config0)
                             (EvSetRows (rows state0))) EvPush))).
Proof.
  split; [reflexivity|].
  apply (undo_redo_round_trip config0 [EvSetRows (rows state0); EvPush]).
  reflexivity.
Defined.

(** ** The montage *)

(** The rows [handleDownload] draws, from index [n] on. *)
Lemma placed_from (l : list ProcessedRow) :
  Forall (fun r => hasCanvas r = true) l ->
  forall g : nat -> Z,
    omap (fun d => d)
      (imap (fun idx row =>
               match processedCanvas row with
               | Some c => Some (c, g idx)
               | None => None
               end) l)
    = imap (fun idx c => (c, g idx)) (omap processedCanvas l).
Proof.
  induction 1 as [|r l Hr Hl IH]; intros g; [reflexivity|].
  unfold hasCanvas in Hr. simpl. destruct (processedCanvas r) as [c|]; [|discriminate].
  simpl. f_equal. exact (IH (fun i => g (S i))).
Qed.

Lemma filter_hasCanvas (l : list ProcessedRow) :
  Forall (fun r => hasCanvas r = true) (List.filter hasCanvas l)
  /\ omap processedCanvas (List.filter hasCanvas l) = omap processedCanvas l
  /\ length (omap processedCanvas l) = length (List.filter hasCanvas l).
Proof.
  induction l as [|r l (IH1 & IH2 & IH3)]; [repeat split; constructor|].
  cbn [List.filter omap list_omap].
  destruct (hasCanvas r) eqn:Hr; unfold hasCanvas in Hr;
    destruct (processedCanvas r) as [c|] eqn:E; try discriminate.
  - cbn [omap list_omap length]. rewrite E, IH2, IH3. repeat split.
    constructor; [|exact IH1]. unfold hasCanvas. rewrite E. reflexivity.
  - auto.
Qed.

Lemma placed_figures (l : list Figure) (g : nat -> Z) :
  map fst (imap (fun idx c => (c, g idx)) l) = l.
Proof.
  revert g. induction l as [|c l IH]; intros g; [reflexivity|].
  simpl. f_equal. exact (IH (fun i => g (S i))).
Qed.

Lemma handleDownload_eq (st : AppState) :
  handleDownload st =
    let figs := omap processedCanvas (rows st) in
    let rowH := targetHeight (config st) in
    if len figs =? 0 then None else
    Some {| canvasWidth := targetWidth (config st) * 3 + padding (config st) * 2;
            canvasHeight := rowH * len figs + 10 * (len figs - 1);
            placed := imap (fun idx c => (c, Z.of_nat idx * (rowH + 10))) figs |}.
Proof.
  unfold handleDownload. cbv zeta.
  destruct (filter_hasCanvas (rows st)) as (Hall & Hfigs & Hlen).
  assert (Hl : len (List.filter hasCanvas (rows st)) = len (omap processedCanvas (rows st))).
  { unfold len. rewrite Hlen. reflexivity. }
  rewrite Hl.
  destruct (Z.eqb_spec (len (rows st)) 0) as [H0|_].
  - destruct (rows st); [reflexivity|]. unfold len in H0. simpl in H0. lia.
  - destruct (len (omap processedCanvas (rows st)) =? 0); [reflexivity|].
    f_equal. f_equal.
    rewrite (placed_from _ Hall (fun k => Z.of_nat k * (targetHeight (config st) + 10))).
    rewrite Hfigs. reflexivity.
Qed.

(** X13. [handleDownload] makes no montage exactly when no row has a
    canvas. When it makes one, the canvas is [3 * targetWidth + 2 * padding]
    wide, the figures drawn are the canvases of the rows in the order of
    the rows, figure [idx] is drawn at [y = idx * (targetHeight + 10)], and
    for a target height that is not negative every band of [targetHeight]
    lines lies inside the canvas, the last one ending at its bottom. *)
Theorem montage_layout (st : AppState) :
  0 <= targetHeight (config st) ->
  (handleDownload st = None <-> omap processedCanvas (rows st) = [])
  /\ forall m, handleDownload st = Some m ->
       canvasWidth m = targetWidth (config st) * 3 + padding (config st) * 2
       /\ map fst (placed m) = omap processedCanvas (rows st)
       /\ 1 <= len (placed m)
       /\ forall idx fig y, index (placed m) idx = Some (fig, y) ->
            y = idx * (targetHeight (config st) + 10)
            /\ 0 <= y
            /\ y + targetHeight (config st) <= canvasHeight m
            /\ (idx = len (placed m) - 1 ->
                y + targetHeight (config st) = canvasHeight m).
Proof.
  intros Hh. rewrite handleDownload_eq. cbv zeta.
  set (figs := omap processedCanvas (rows st)).
  set (rowH := targetHeight (config st)) in *.
  pose proof (len_nonneg figs) as Hn.
  destruct (Z.eqb_spec (len figs) 0) as [H0|H0].
  - split; [|discriminate]. split; [intros _|reflexivity].
    destruct figs; [reflexivity|]. unfold len in H0. simpl in H0. lia.
  - split.
    { split; [discriminate|]. intros E. rewrite E in H0. unfold len in H0. simpl in H0. lia. }
    intros m Hm. injection Hm as <-. cbn [canvasWidth canvasHeight placed].
    assert (Hlen : len (imap (fun idx c => (c, Z.of_nat idx * (rowH + 10))) figs) = len figs).
    { unfold len. rewrite length_imap. reflexivity. }
    rewrite Hlen. split; [reflexivity|]. split.
    { apply (placed_figures figs (fun idx => Z.of_nat idx * (rowH + 10))). }
    split; [lia|].
    intros idx fig y Hi. unfold index in Hi.
    destruct (Z.ltb_spec idx 0) as [|Hidx]; [discriminate|].
    rewrite list_lookup_imap in Hi.
    destruct (figs !! Z.to_nat idx) as [c|] eqn:E; [|discriminate].
    apply lookup_lt_Some in E. simpl in Hi. injection Hi as -> <-.
    rewrite Z2Nat.id by lia. unfold len in *.
    assert (Hlt : idx < Z.of_nat (length figs)) by lia.
    split; [reflexivity|]. split; [nia|]. split; [nia|]. intros ->. ring.
Qed.

Lemma montage_layout_witness :
  0 <= targetHeight (config processed0)
  /\ ((handleDownload processed0 = None <-> omap processedCanvas (rows processed0) = [])
      /\ forall m, handleDownload processed0 = Some m ->
           canvasWidth m
           = targetWidth (config processed0) * 3 + padding (config processed0) * 2
           /\ map fst (placed m) = omap processedCanvas (rows processed0)
           /\ 1 <= len (placed m)
           /\ forall idx fig y, index (placed m) idx = Some (fig, y) ->
                y = idx * (targetHeight (config processed0) + 10)
                /\ 0 <= y
                /\ y + targetHeight (config processed0) <= canvasHeight m
                /\ (idx = len (placed m) - 1 ->
                    y + targetHeight (config processed0) = canvasHeight m)).
Proof.
  split; [vm_compute; discriminate|].
  apply (montage_layout processed0). vm_compute. discriminate.
Defined.

(** ** The two effects that call [processRow] *)

Section EffectProperties.
Context {N : NumberModel}.
Variable drawImage : ImageData -> Rect -> Z -> Z -> list Z.

(** [mapRows] with a function that returns: it returns, row for row. *)
Lemma mapRows_returns
    (f : ProcessedRow -> RandomState -> completion ProcessedRow * RandomState)
    (R : ProcessedRow -> ProcessedRow -> Prop) :
  (forall r s, exists r' s', f r s = (Normal r', s') /\ R r r') ->
  forall l s, exists l' s', mapRows f l s = (Normal l', s') /\ Forall2 R l l'.
Proof.
  intros Hf. induction l as [|r l IH]; intros s.
  - exists [], s. split; [reflexivity|constructor].
  - destruct (Hf r s) as (r' & s1 & E1 & HR). destruct (IH s1) as (l' & s2 & E2 & HRl).
    exists (r' :: l'), s2. simpl. rewrite E1, E2. split; [reflexivity|].
    constructor; assumption.
Qed.

Lemma regenerate_returns (config : ProcessingConfig) (r : ProcessedRow)
    (img1 img2 : ImageData) (s : RandomState) :
  0 < targetWidth config -> 0 < targetHeight config ->
  imgData1 r = Some img1 -> imgData2 r = Some img2 ->
  exists r' s', regenerate drawImage config r img1 img2 s = (Normal r', s')
                /\ regenerated drawImage config r r'.
Proof.
  intros Hw Hh H1 H2. unfold regenerate.
  destruct (processRow_returns drawImage img1 img2 config s Hw Hh) as (fig & Hfig & _).
  destruct (processRow drawImage img1 img2 config s) as [c s'] eqn:E.
  simpl in Hfig. subst c. eexists _, _. split; [reflexivity|].
  exists img1, img2, fig, s. rewrite E. auto.
Qed.

Lemma processingLoop_returns (st : AppState) (s : RandomState) :
  0 < targetWidth (config st) -> 0 < targetHeight (config st) ->
  exists newRows s',
    processingLoop drawImage st s = (Normal (setRows newRows st), s')
    /\ Forall2 (reprocessed drawImage (config st)) (rows st) newRows.
Proof.
  intros Hw Hh. unfold processingLoop.
  destruct (mapRows_returns
              (fun row s =>
                 match imgData1 row, imgData2 row with
                 | Some img1, Some img2 => regenerate drawImage (config st) row img1 img2 s
                 | _, _ => (Normal row, s)
                 end) (reprocessed drawImage (config st))) with (l := rows st) (s := s)
    as (l' & s' & E & HR).
  - intros r s0. unfold reprocessed.
    destruct (imgData1 r) as [img1|] eqn:E1; [|eexists _, _; split; reflexivity].
    destruct (imgData2 r) as [img2|] eqn:E2; [|eexists _, _; split; reflexivity].
    apply regenerate_returns; assumption.
  - rewrite E. exists l', s'. split; [reflexivity|exact HR].
Qed.

Lemma repairLoop_returns (st : AppState) (s : RandomState) :
  0 < targetWidth (config st) -> 0 < targetHeight (config st) ->
  exists newRows s',
    repairLoop drawImage st s = (Normal (setRows newRows st), s')
    /\ Forall2 (repaired drawImage (config st)) (rows st) newRows.
Proof.
  intros Hw Hh. unfold repairLoop.
  destruct (existsb needsProcess (rows st)) eqn:Hex.
  - destruct (mapRows_returns
                (fun r s =>
                   match imgData1 r, imgData2 r, processedCanvas r with
                   | Some img1, Some img2, None =>
                       regenerate drawImage (config st) r img1 img2 s
                   | _, _, _ => (Normal r, s)
                   end) (repaired drawImage (config st))) with (l := rows st) (s := s)
      as (l' & s' & E & HR).
    + intros r s0. unfold repaired, needsProcess.
      destruct (imgData1 r) as [img1|] eqn:E1; [|eexists _, _; split; reflexivity].
      destruct (imgData2 r) as [img2|] eqn:E2; [|eexists _, _; split; reflexivity].
      destruct (processedCanvas r) as [c|] eqn:E3; [eexists _, _; split; reflexivity|].
      apply regenerate_returns; assumption.
    + rewrite E. exists l', s'. split; [reflexivity|exact HR].
  - exists (rows st), s. split; [destruct st; reflexivity|].
    apply Forall2_same_length_lookup_2; [reflexivity|].
    intros i r r' Hr Hr'. rewrite Hr in Hr'. injection Hr' as <-.
    unfold repaired.
    destruct (needsProcess r) eqn:Hn; [|reflexivity].
    assert (Hin : In r (rows st)) by (apply list_elem_of_In, list_elem_of_lookup; eauto).
    assert (existsb needsProcess (rows st) = true)
      by (apply existsb_exists; exists r; auto).
    congruence.
Qed.

Lemma regenerated_canvas (config : ProcessingConfig) (r r' : ProcessedRow) :
  regenerated drawImage config r r' ->
  exists fig, processedCanvas r' = Some fig
    /\ finalWidth fig = targetWidth config * 3 + padding config * 2
    /\ finalHeight fig = targetHeight config
    /\ imgData1 r' = imgData1 r /\ imgData2 r' = imgData2 r.
Proof.
  intros (img1 & img2 & fig & s0 & H1 & H2 & Hfig & ->). exists fig.
  unfold processRow in Hfig.
  destruct (processChannel drawImage config img1 _ s0) as [c1 s1].
  destruct (processChannel drawImage config img2 _ s1) as [c2 s2].
  simpl in Hfig. injection Hfig as <-. simpl. auto.
Qed.

Lemma index_Forall2 {A B : Type} (R : A -> B -> Prop) (l : list A) (k : list B)
    (i : Z) (x : A) :
  Forall2 R l k -> index l i = Some x -> exists y, index k i = Some y /\ R x y.
Proof.
  intros HR. unfold index. destruct (i <? 0); [discriminate|].
  intros Hx. destruct (Forall2_lookup_l _ _ _ _ _ HR Hx) as (y & Hy & Hxy). eauto.
Qed.

Lemma Forall2_len {A B : Type} (R : A -> B -> Prop) (l : list A) (k : list B) :
  Forall2 R l k -> len k = len l.
Proof. intros HR. unfold len. apply Forall2_length in HR. lia. Qed.

(** X14. When the configuration changes, the processing loop returns
    for a positive target size, leaves configuration, history and the
    number of rows as they are, gives every row that has both images a
    new figure cut at the crop [findCoBrightestROI] finds for its two
    images, of size [3 * targetWidth + 2 * padding] by [targetHeight] of
    the new configuration, and leaves every other row untouched, with the
    canvas it had. *)
Theorem config_change_regenerates_complete_rows (st : AppState) (s : RandomState) :
  0 < targetWidth (config st) -> 0 < targetHeight (config st) ->
  exists st',
    fst (processingLoop drawImage st s) = Normal st'
    /\ config st' = config st /\ history st' = history st
    /\ len (rows st') = len (rows st)
    /\ forall i r, index (rows st) i = Some r ->
         exists r', index (rows st') i = Some r'
           /\ (forall img1 img2,
                 imgData1 r = Some img1 -> imgData2 r = Some img2 ->
                 exists fig,
                   r' = withCanvas r (Some fig)
                   /\ roi fig = findCoBrightestROI img1 img2
                                  (inject_Z (targetWidth (config st))
                                   / inject_Z (targetHeight (config st)))%Q
                                  (clipBottom (config st))
                   /\ finalWidth fig
                      = targetWidth (config st) * 3 + padding (config st) * 2
                   /\ finalHeight fig = targetHeight (config st))
           /\ (imgData1 r = None \/ imgData2 r = None -> r' = r).
Proof.
  intros Hw Hh.
  destruct (processingLoop_returns st s Hw Hh) as (newRows & s' & E & HR).
  exists (setRows newRows st). rewrite E. split; [reflexivity|].
  split; [reflexivity|]. split; [reflexivity|].
  split; [exact (Forall2_len _ _ _ HR)|].
  intros i r Hr. destruct (index_Forall2 _ _ _ _ _ HR Hr) as (r' & Hr' & Hrr').
  exists r'. split; [exact Hr'|]. unfold reprocessed in Hrr'. split.
  - intros img1 img2 H1 H2. rewrite H1, H2 in Hrr'.
    destruct Hrr' as (i1 & i2 & fig & s0 & H1' & H2' & Hfig & ->).
    assert (i1 = img1) by congruence. assert (i2 = img2) by congruence. subst i1 i2.
    exists fig. split; [reflexivity|].
    destruct (processRow_returns drawImage img1 img2 (config st) s0 Hw Hh)
      as (fig' & Hfig' & Hroi & Hfw & Hfh).
    assert (fig' = fig) by congruence. subst fig'. auto.
  - intros [H1|H2].
    + rewrite H1 in Hrr'. exact Hrr'.
    + rewrite H2 in Hrr'. destruct (imgData1 r); exact Hrr'.
Qed.

Lemma repaired_settled (config : ProcessingConfig) (r r' : ProcessedRow) :
  repaired drawImage config r r' -> needsProcess r' = false.
Proof.
  unfold repaired. destruct (needsProcess r) eqn:Hn.
  - intros (img1 & img2 & fig & s0 & _ & _ & _ & ->). unfold needsProcess. simpl.
    destruct (imgData1 r); [|reflexivity]. destruct (imgData2 r); reflexivity.
  - intros ->. exact Hn.
Qed.

(** X15. The repair loop returns for a positive target size. It gives
    every row that has both images and no canvas a figure of the size of
    the current configuration and leaves every other row untouched; after
    it no row with both images is without a canvas, so that the run its
    own [setRows] brings about changes nothing and draws no random
    number. *)
Theorem repair_loop_settles (st : AppState) (s : RandomState) :
  0 < targetWidth (config st) -> 0 < targetHeight (config st) ->
  exists st',
    fst (repairLoop drawImage st s) = Normal st'
    /\ config st' = config st /\ history st' = history st
    /\ (forall i r, index (rows st) i = Some r ->
          exists r', index (rows st') i = Some r'
            /\ (needsProcess r = false -> r' = r)
            /\ (needsProcess r = true ->
                 exists fig,
                   r' = withCanvas r (Some fig)
                   /\ finalWidth fig
                      = targetWidth (config st) * 3 + padding (config st) * 2
                   /\ finalHeight fig = targetHeight (config st)))
    /\ (forall r, In r (rows st') ->
          is_Some (imgData1 r) -> is_Some (imgData2 r) -> is_Some (processedCanvas r))
    /\ forall s', repairLoop drawImage st' s' = (Normal st', s').
Proof.
  intros Hw Hh.
  destruct (repairLoop_returns st s Hw Hh) as (newRows & s' & E & HR).
  exists (setRows newRows st). rewrite E. split; [reflexivity|].
  split; [reflexivity|]. split; [reflexivity|].
  assert (Hsettled : Forall (fun r => needsProcess r = false) newRows).
  { clear E. induction HR as [|r r' l l' Hrr' _ IH]; constructor; [|exact IH].
    exact (repaired_settled _ _ _ Hrr'). }
  split; [|split].
  - intros i r Hr. destruct (index_Forall2 _ _ _ _ _ HR Hr) as (r' & Hr' & Hrr').
    exists r'. split; [exact Hr'|]. unfold repaired in Hrr'. split; intros Hn;
      rewrite Hn in Hrr'; [exact Hrr'|].
    destruct (regenerated_canvas _ _ _ Hrr') as (fig & Hc & Hfw & Hfh & _).
    destruct Hrr' as (i1 & i2 & fig' & s0 & _ & _ & _ & ->). simpl in Hc.
    injection Hc as ->. exists fig. auto.
  - intros r Hr [i1 H1] [i2 H2]. rewrite List.Forall_forall in Hsettled.
    specialize (Hsettled r Hr). unfold needsProcess in Hsettled.
    rewrite H1, H2 in Hsettled. destruct (processedCanvas r); [eauto|discriminate].
  - intros s1. unfold repairLoop. cbn [rows setRows].
    assert (Hex : existsb needsProcess newRows = false).
    { clear -Hsettled. induction Hsettled as [|r l Hr _ IH]; [reflexivity|].
      simpl. rewrite Hr, IH. reflexivity. }
    rewrite Hex. reflexivity.
Qed.

(** X16. The montage after a change of configuration. When no row
    holds a canvas without holding both images, every figure
    [handleDownload] draws after the processing loop has the width of the
    montage and the target height, so that it fills its band: it ends
    inside the canvas and the next figure starts 10 lines below its end. *)
Theorem montage_figures_fill_their_bands (st st' : AppState) (s : RandomState)
    (m : Montage) :
  0 < targetWidth (config st) -> 0 < targetHeight (config st) ->
  (forall r, In r (rows st) -> is_Some (processedCanvas r) ->
     is_Some (imgData1 r) /\ is_Some (imgData2 r)) ->
  fst (processingLoop drawImage st s) = Normal st' ->
  handleDownload st' = Some m ->
  forall idx fig y, index (placed m) idx = Some (fig, y) ->
    finalWidth fig = canvasWidth m
    /\ finalHeight fig = targetHeight (config st)
    /\ 0 <= y /\ y + finalHeight fig <= canvasHeight m
    /\ forall fig' y', index (placed m) (idx + 1) = Some (fig', y') ->
         y' = y + finalHeight fig + 10.
Proof.
  intros Hw Hh Hfresh Hloop Hm idx fig y Hi.
  destruct (processingLoop_returns st s Hw Hh) as (newRows & s' & E & HR).
  rewrite E in Hloop. simpl in Hloop. injection Hloop as <-.
  rewrite handleDownload_eq in Hm. cbv zeta in Hm. cbn [rows config setRows] in Hm.
  set (figs := omap processedCanvas newRows) in *.
  destruct (len figs =? 0); [discriminate|]. injection Hm as <-.
  cbn [placed canvasWidth canvasHeight] in *.
  assert (Hat : forall j f z,
             index (imap (fun idx c => (c, Z.of_nat idx * (targetHeight (config st) + 10)))
                      figs) j = Some (f, z) ->
             z = j * (targetHeight (config st) + 10) /\ 0 <= j < len figs /\ In f figs).
  { intros j f z Hj. unfold index in Hj. destruct (Z.ltb_spec j 0); [discriminate|].
    rewrite list_lookup_imap in Hj.
    destruct (figs !! Z.to_nat j) as [c|] eqn:Ec; [|discriminate].
    simpl in Hj. injection Hj as -> <-. rewrite Z2Nat.id by lia.
    split; [reflexivity|]. split.
    - apply lookup_lt_Some in Ec. unfold len. lia.
    - apply list_elem_of_In, list_elem_of_lookup. eauto. }
  destruct (Hat _ _ _ Hi) as (-> & Hidx & Hin).
  assert (Hsize : finalWidth fig = targetWidth (config st) * 3 + padding (config st) * 2
                  /\ finalHeight fig = targetHeight (config st)).
  { apply list_elem_of_In in Hin. unfold figs in Hin.
    apply list_elem_of_omap in Hin as (r' & Hr' & Hc).
    apply list_elem_of_lookup in Hr' as [k Hk].
    destruct (Forall2_lookup_r _ _ _ _ _ HR Hk) as (r & Hr & Hrr').
    unfold reprocessed in Hrr'.
    assert (Hcase : regenerated drawImage (config st) r r' \/ r' = r).
    { destruct (imgData1 r); [destruct (imgData2 r)|]; auto. }
    destruct Hcase as [Hreg| ->].
    - destruct (regenerated_canvas _ _ _ Hreg) as (fig' & Hc' & Hfw & Hfh & _).
      assert (fig' = fig) by congruence. subst fig'. auto.
    - assert (Hinr : In r (rows st))
        by (apply list_elem_of_In, list_elem_of_lookup; eauto).
      destruct (Hfresh r Hinr) as [[i1 H1] [i2 H2]]; [rewrite Hc; eauto|].
      rewrite H1, H2 in Hrr'.
      destruct (regenerated_canvas _ _ _ Hrr') as (fig' & Hc' & Hfw & Hfh & _).
      assert (fig' = fig) by congruence. subst fig'. auto. }
  destruct Hsize as [Hfw Hfh]. rewrite Hfw, Hfh.
  split; [reflexivity|]. split; [reflexivity|]. split; [nia|]. split; [nia|].
  intros fig' y' Hi'. destruct (Hat _ _ _ Hi') as (-> & _ & _). ring.
Qed.
End EffectProperties.

Lemma config_change_regenerates_complete_rows_witness :
  (0 < targetWidth (config state0) /\ 0 < targetHeight (config state0))
  /\ exists st',
       fst (processingLoop (N := exact) drawNearest state0 (draws (Q2Qc (99 # 100))))
       = Normal st'
       /\ config st' = config state0 /\ history st' = history state0
       /\ len (rows st') = len (rows state0)
       /\ forall i r, index (rows state0) i = Some r ->
            exists r', index (rows st') i = Some r'
              /\ (forall img1 img2,
                    imgData1 r = Some img1 -> imgData2 r = Some img2 ->
                    exists fig,
                      r' = withCanvas r (Some fig)
                      /\ roi fig = findCoBrightestROI (N := exact) img1 img2
                                     (inject_Z (targetWidth (config state0))
                                      / inject_Z (targetHeight (config state0)))%Q
                                     (clipBottom (config state0))
                      /\ finalWidth fig
                         = targetWidth (config state0) * 3 + padding (config state0) * 2
                      /\ finalHeight fig = targetHeight (config state0))
              /\ (imgData1 r = None \/ imgData2 r = None -> r' = r).
Proof.
  split; [split; reflexivity|].
  apply (config_change_regenerates_complete_rows (N := exact) drawNearest state0
           (draws (Q2Qc (99 # 100)))); reflexivity.
Defined.

Lemma repair_loop_settles_witness :
  (0 < targetWidth (config state0) /\ 0 < targetHeight (config state0))
  /\ exists st',
       fst (repairLoop (N := exact) drawNearest state0 (draws (Q2Qc (99 # 100))))
       = Normal st'
       /\ config st' = config state0 /\ history st' = history state0
       /\ (forall i r, index (rows state0) i = Some r ->
             exists r', index (rows st') i = Some r'
               /\ (needsProcess r = false -> r' = r)
               /\ (needsProcess r = true ->
                    exists fig,
                      r' = withCanvas r (Some fig)
                      /\ finalWidth fig
                         = targetWidth (config state0) * 3 + padding (config state0) * 2
                      /\ finalHeight fig = targetHeight (config state0)))
       /\ (forall r, In r (rows st') ->
             is_Some (imgData1 r) -> is_Some (imgData2 r) -> is_Some (processedCanvas r))
       /\ forall s', repairLoop (N := exact) drawNearest st' s' = (Normal st', s').
Proof.
  split; [split; reflexivity|].
  apply (repair_loop_settles (N := exact) drawNearest state0 (draws (Q2Qc (99 # 100))));
    reflexivity.
Defined.

Lemma montage_figures_fill_their_bands_witness :
  (0 < targetWidth (config state0) /\ 0 < targetHeight (config state0)
   /\ (forall r, In r (rows state0) -> is_Some (processedCanvas r) ->
         is_Some (imgData1 r) /\ is_Some (imgData2 r))
   /\ fst (processingLoop (N := exact) drawNearest state0 (draws (Q2Qc (99 # 100))))
      = Normal processed0
   /\ handleDownload processed0 = Some montage0
   /\ index (placed montage0) 0 = Some (fst placed0, snd placed0))
  /\ (finalWidth (fst placed0) = canvasWidth montage0
      /\ finalHeight (fst placed0) = targetHeight (config state0)
      /\ 0 <= snd placed0
      /\ snd placed0 + finalHeight (fst placed0) <= canvasHeight montage0
      /\ forall fig' y', index (placed montage0) (0 + 1) = Some (fig', y') ->
           y' = snd placed0 + finalHeight (fst placed0) + 10).
Proof.
  assert (Hfresh : forall r, In r (rows state0) -> is_Some (processedCanvas r) ->
                     is_Some (imgData1 r) /\ is_Some (imgData2 r)).
  { intros r Hr [c Hc]. simpl in Hr.
    destruct Hr as [ <- | [ <- | [ <- | [] ] ] ]; discriminate. }
  assert (Hloop : fst (processingLoop (N := exact) drawNearest state0
                         (draws (Q2Qc (99 # 100)))) = Normal processed0).
  { vm_compute. reflexivity. }
  assert (Hm : handleDownload processed0 = Some montage0).
  { vm_compute. reflexivity. }
  assert (Hi : index (placed montage0) 0 = Some (fst placed0, snd placed0)).
  { vm_compute. reflexivity. }
  split.
  - split; [reflexivity|]. split; [reflexivity|]. split; [exact Hfresh|].
    split; [exact Hloop|]. split; [exact Hm|exact Hi].
  - apply (montage_figures_fill_their_bands (N := exact) drawNearest state0 processed0
             (draws (Q2Qc (99 # 100))) montage0 ltac:(reflexivity) ltac:(reflexivity)
             Hfresh Hloop Hm 0 (fst placed0) (snd placed0) Hi).
Defined.

(** ** [updateRowWithProcess] *)

Lemma findIndexFrom_spec {A : Type} (p : A -> bool) (l : list A) (i : Z) :
  0 <= i ->
  (findIndexFrom p l i = -1 /\ Forall (fun x => p x = false) l)
  \/ exists k x, findIndexFrom p l i = i + Z.of_nat k
       /\ l !! k = Some x /\ p x = true
       /\ forall j y, (j < k)%nat -> l !! j = Some y -> p y = false.
Proof.
  revert i. induction l as [|a l IH]; intros i Hi; simpl.
  - left. split; [reflexivity|constructor].
  - destruct (p a) eqn:Ha.
    + right. exists O, a. split; [lia|]. split; [reflexivity|]. split; [exact Ha|].
      intros j y Hj. lia.
    + destruct (IH (i + 1) ltac:(lia)) as [[E Hall]|(k & x & E & Hk & Hx & Hbefore)].
      * left. split; [exact E|]. constructor; assumption.
      * right. exists (S k), x. split; [lia|]. split; [exact Hk|]. split; [exact Hx|].
        intros [|j] y Hj Hy; simpl in Hy.
        -- injection Hy as <-. exact Ha.
        -- apply (Hbefore j); [lia|exact Hy].
Qed.

Section UpdateProperties.
Context {N : NumberModel}.
Variable drawImage : ImageData -> Rect -> Z -> Z -> list Z.

(** X17. [updateRowWithProcess] returns for a positive target size and
    keeps the number of rows. When no row has the identifier it returns
    the rows it was given and draws no random number. Otherwise it
    replaces the first row with the identifier by that row with the
    updates applied, processed again when it has both images and the
    updates bring an image or a label, and leaves every other row, also a
    later one with the same identifier, as it was. *)
Theorem update_replaces_first_match (id0 : string) (updates : RowUpdates)
    (config : ProcessingConfig) (prev : list ProcessedRow) (s : RandomState) :
  0 < targetWidth config -> 0 < targetHeight config ->
  exists newRows s',
    updateRowWithProcess drawImage id0 updates config prev s = (Normal newRows, s')
    /\ len newRows = len prev
    /\ ((forall r, In r prev -> id r <> id0) -> newRows = prev /\ s' = s)
    /\ (forall i r, index prev i = Some r -> id r = id0 ->
          (forall j r0, 0 <= j < i -> index prev j = Some r0 -> id r0 <> id0) ->
          exists newRow,
            index newRows i = Some newRow
            /\ updatedRow drawImage updates config r s newRow s')
    /\ forall i r, index prev i = Some r ->
         (id r <> id0
          \/ exists j r0, 0 <= j < i /\ index prev j = Some r0 /\ id r0 = id0) ->
         index newRows i = Some r.
Proof.
  intros Hw Hh. unfold updateRowWithProcess, findIndex.
  destruct (findIndexFrom_spec (fun r => String.eqb (id r) id0) prev 0 ltac:(lia))
    as [[E Hall]|(k & x & E & Hk & Hx & Hbefore)].
  - rewrite E. simpl. exists prev, s. split; [reflexivity|]. split; [reflexivity|].
    split; [auto|]. split.
    + intros i r Hr Hid _. exfalso.
      unfold index in Hr. destruct (i <? 0); [discriminate|].
      rewrite Forall_lookup in Hall. specialize (Hall _ _ Hr). simpl in Hall.
      apply String.eqb_neq in Hall. contradiction.
    + intros i r Hr _. exact Hr.
  - rewrite Z.add_0_l in E. rewrite E.
    destruct (Z.eqb_spec (Z.of_nat k) (-1)) as [|_]; [lia|].
    assert (Hix : index prev (Z.of_nat k) = Some x).
    { unfold index. destruct (Z.ltb_spec (Z.of_nat k) 0); [lia|].
      rewrite Nat2Z.id. exact Hk. }
    rewrite Hix. cbv zeta. rewrite Nat2Z.id.
    set (newRow := applyUpdates x updates).
    assert (Hnew : exists r' s',
               match imgData1 newRow, imgData2 newRow with
               | Some img1, Some img2 =>
                   if truthy (upd_imgData1 updates) || truthy (upd_imgData2 updates)
                      || bool_decide (is_Some (upd_rowLabel updates))
                   then regenerate drawImage config newRow img1 img2 s
                   else (Normal newRow, s)
               | _, _ => (Normal newRow, s)
               end = (Normal r', s')
               /\ updatedRow drawImage updates config x s r' s').
    { unfold updatedRow. fold newRow.
      destruct (imgData1 newRow) as [img1|] eqn:E1; [|eauto].
      destruct (imgData2 newRow) as [img2|] eqn:E2; [|eauto].
      destruct (_ || _ || _); [|eauto].
      unfold regenerate.
      destruct (processRow_returns drawImage img1 img2 config s Hw Hh) as (fig & Hfig & _).
      destruct (processRow drawImage img1 img2 config s) as [c s'] eqn:Ep.
      simpl in Hfig. subst c. eexists _, _. split; [reflexivity|].
      exists fig. split; reflexivity. }
    destruct Hnew as (r' & s' & -> & Hupd).
    exists (<[k := r']> prev), s'. split; [reflexivity|].
    split; [unfold len; rewrite length_insert; reflexivity|]. split; [|split].
    + intros Hnone. exfalso. apply (Hnone x).
      * apply list_elem_of_In, list_elem_of_lookup. eauto.
      * apply String.eqb_eq, Hx.
    + intros i r Hr Hid Hfirst.
      assert (Hi : i = Z.of_nat k).
      { unfold index in Hr. destruct (Z.ltb_spec i 0); [discriminate|].
        destruct (Z.lt_trichotomy i (Z.of_nat k)) as [Hlt|[Heq|Hgt]]; [|exact Heq|].
        - assert (Hf : String.eqb (id r) id0 = false)
            by (apply (Hbefore (Z.to_nat i)); [lia|exact Hr]).
          apply String.eqb_neq in Hf. contradiction.
        - exfalso. apply (Hfirst (Z.of_nat k) x); [lia|exact Hix|].
          apply String.eqb_eq, Hx. }
      subst i. rewrite Hix in Hr. injection Hr as <-.
      exists r'. split; [|exact Hupd].
      unfold index. destruct (Z.ltb_spec (Z.of_nat k) 0); [lia|]. rewrite Nat2Z.id.
      apply list_lookup_insert_eq. apply lookup_lt_Some in Hk. exact Hk.
    + intros i r Hr Hcase. unfold index in *.
      destruct (Z.ltb_spec i 0); [discriminate|].
      rewrite list_lookup_insert_ne; [exact Hr|]. intros ->.
      rewrite Hk in Hr. injection Hr as <-.
      destruct Hcase as [Hne|(j & r0 & Hj & Hr0 & Hid)].
      * apply Hne, String.eqb_eq, Hx.
      * destruct (Z.ltb_spec j 0); [lia|].
        assert (Hf : String.eqb (id r0) id0 = false).
        { apply (Hbefore (Z.to_nat j)); [lia|exact Hr0]. }
        apply String.eqb_neq in Hf. contradiction.
Qed.

Lemma omap_insert_same (l : list ProcessedRow) (k : nat) (x r' : ProcessedRow) :
  l !! k = Some x -> processedCanvas r' = processedCanvas x ->
  omap processedCanvas (<[k := r']> l) = omap processedCanvas l.
Proof.
  revert k. induction l as [|a l IH]; intros [|k] Hk Hc; try discriminate.
  - injection Hk as ->. cbn [insert list_insert omap list_omap]. rewrite Hc. reflexivity.
  - simpl. destruct (processedCanvas a); [f_equal|]; apply IH; assumption.
Qed.

(** X18. Taking an image out of a row, with the update the drop slot
    sends ([null] for the file and for its image data, and no canvas),
    processes nothing and keeps the canvas the row had: the row has lost
    an image and [handleDownload] draws the montage it drew before. *)
Theorem removing_an_image_keeps_the_figure (id0 : string) (updates : RowUpdates)
    (st : AppState) (s : RandomState) :
  upd_processedCanvas updates = None ->
  upd_imgData1 updates = Some None \/ upd_imgData2 updates = Some None ->
  exists newRows,
    updateRowWithProcess drawImage id0 updates (config st) (rows st) s
      = (Normal newRows, s)
    /\ omap processedCanvas newRows = omap processedCanvas (rows st)
    /\ handleDownload (setRows newRows st) = handleDownload st
    /\ forall i r, index (rows st) i = Some r -> id r = id0 ->
         (forall j r0, 0 <= j < i -> index (rows st) j = Some r0 -> id r0 <> id0) ->
         index newRows i = Some (applyUpdates r updates)
         /\ (imgData1 (applyUpdates r updates) = None
             \/ imgData2 (applyUpdates r updates) = None).
Proof.
  intros Hcanvas Himg. unfold updateRowWithProcess, findIndex.
  assert (Hmiss : forall r, imgData1 (applyUpdates r updates) = None
                            \/ imgData2 (applyUpdates r updates) = None).
  { intros r. unfold applyUpdates. simpl. destruct Himg as [-> | ->]; auto. }
  assert (Hdl : forall newRows,
             len newRows = len (rows st) ->
             omap processedCanvas newRows = omap processedCanvas (rows st) ->
             handleDownload (setRows newRows st) = handleDownload st).
  { intros newRows Hl Ho. rewrite !handleDownload_eq. cbn [rows config setRows].
    rewrite Ho. reflexivity. }
  destruct (findIndexFrom_spec (fun r => String.eqb (id r) id0) (rows st) 0 ltac:(lia))
    as [[E Hall]|(k & x & E & Hk & Hx & Hbefore)].
  - rewrite E. simpl. exists (rows st). split; [reflexivity|]. split; [reflexivity|].
    split; [destruct st; reflexivity|].
    intros i r Hr Hid _. exfalso. unfold index in Hr. destruct (i <? 0); [discriminate|].
    rewrite Forall_lookup in Hall. specialize (Hall _ _ Hr). simpl in Hall.
    apply String.eqb_neq in Hall. contradiction.
  - rewrite Z.add_0_l in E. rewrite E.
    destruct (Z.eqb_spec (Z.of_nat k) (-1)) as [|_]; [lia|].
    assert (Hix : index (rows st) (Z.of_nat k) = Some x).
    { unfold index. destruct (Z.ltb_spec (Z.of_nat k) 0); [lia|].
      rewrite Nat2Z.id. exact Hk. }
    rewrite Hix. cbv zeta. rewrite Nat2Z.id.
    assert (Hnew : match imgData1 (applyUpdates x updates),
                         imgData2 (applyUpdates x updates) with
                   | Some img1, Some img2 =>
                       if truthy (upd_imgData1 updates) || truthy (upd_imgData2 updates)
                          || bool_decide (is_Some (upd_rowLabel updates))
                       then regenerate drawImage (config st) (applyUpdates x updates)
                              img1 img2 s
                       else (Normal (applyUpdates x updates), s)
                   | _, _ => (Normal (applyUpdates x updates), s)
                   end = (Normal (applyUpdates x updates), s)).
    { destruct (Hmiss x) as [-> | ->]; [reflexivity|].
      destruct (imgData1 (applyUpdates x updates)); reflexivity. }
    rewrite Hnew. exists (<[k := applyUpdates x updates]> (rows st)).
    assert (Ho : omap processedCanvas (<[k := applyUpdates x updates]> (rows st))
                 = omap processedCanvas (rows st)).
    { apply (omap_insert_same _ _ x); [exact Hk|].
      unfold applyUpdates. simpl. rewrite Hcanvas. reflexivity. }
    split; [reflexivity|]. split; [exact Ho|]. split.
    { apply Hdl; [unfold len; rewrite length_insert; reflexivity|exact Ho]. }
    intros i r Hr Hid Hfirst. split; [|apply Hmiss].
    assert (Hi : i = Z.of_nat k).
    { unfold index in Hr. destruct (Z.ltb_spec i 0); [discriminate|].
      destruct (Z.lt_trichotomy i (Z.of_nat k)) as [Hlt|[Heq|Hgt]]; [|exact Heq|].
      - assert (Hf : String.eqb (id r) id0 = false)
          by (apply (Hbefore (Z.to_nat i)); [lia|exact Hr]).
        apply String.eqb_neq in Hf. contradiction.
      - exfalso. apply (Hfirst (Z.of_nat k) x); [lia|exact Hix|].
        apply String.eqb_eq, Hx. }
    subst i. rewrite Hix in Hr. injection Hr as <-.
    unfold index. destruct (Z.ltb_spec (Z.of_nat k) 0); [lia|]. rewrite Nat2Z.id.
    apply list_lookup_insert_eq. apply lookup_lt_Some in Hk. exact Hk.
Qed.
End UpdateProperties.

Lemma update_replaces_first_match_witness :
  (0 < targetWidth config0 /\ 0 < targetHeight config0)
  /\ exists newRows s',
       updateRowWithProcess (N := exact) drawNearest "c" newImage2 config0
         (rows state0) (draws (Q2Qc (99 # 100))) = (Normal newRows, s')
       /\ len newRows = len (rows state0)
       /\ ((forall r, In r (rows state0) -> id r <> "c"%string) ->
           newRows = rows state0 /\ s' = draws (Q2Qc (99 # 100)))
       /\ (forall i r, index (rows state0) i = Some r -> id r = "c"%string ->
             (forall j r0, 0 <= j < i -> index (rows state0) j = Some r0 ->
                id r0 <> "c"%string) ->
             exists newRow,
               index newRows i = Some newRow
               /\ updatedRow (N := exact) drawNearest newImage2 config0 r
                    (draws (Q2Qc (99 # 100))) newRow s')
       /\ forall i r, index (rows state0) i = Some r ->
            (id r <> "c"%string
             \/ exists j r0, 0 <= j < i /\ index (rows state0) j = Some r0 /\ id r0 = "c"%string) ->
            index newRows i = Some r.
Proof.
  split; [split; reflexivity|].
  apply (update_replaces_first_match (N := exact) drawNearest "c" newImage2 config0
           (rows state0) (draws (Q2Qc (99 # 100)))); reflexivity.
Defined.

Lemma removing_an_image_keeps_the_figure_witness :
  (upd_processedCanvas removeImage1 = None
   /\ (upd_imgData1 removeImage1 = Some None \/ upd_imgData2 removeImage1 = Some None))
  /\ exists newRows,
       updateRowWithProcess (N := exact) drawNearest "c" removeImage1 (config processed0)
         (rows processed0) (draws (Q2Qc (99 # 100)))
       = (Normal newRows, draws (Q2Qc (99 # 100)))
       /\ omap processedCanvas newRows = omap processedCanvas (rows processed0)
       /\ handleDownload (setRows newRows processed0) = handleDownload processed0
       /\ forall i r, index (rows processed0) i = Some r -> id r = "c"%string ->
            (forall j r0, 0 <= j < i -> index (rows processed0) j = Some r0 ->
               id r0 <> "c"%string) ->
            index newRows i = Some (applyUpdates r removeImage1)
            /\ (imgData1 (applyUpdates r removeImage1) = None
                \/ imgData2 (applyUpdates r removeImage1) = None).
Proof.
  split; [split; [reflexivity|left; reflexivity]|].
  apply (removing_an_image_keeps_the_figure (N := exact) drawNearest "c" removeImage1
           processed0 (draws (Q2Qc (99 # 100))));
    [reflexivity|left; reflexivity].
Defined.

(** ** [handleSwap] *)

Lemma swapRow_involutive (r : ProcessedRow) : swapRow (swapRow r) = r.
Proof. destruct r; reflexivity. Qed.

Lemma swapRow_needsProcess (r : ProcessedRow) :
  needsProcess (swapRow r) = needsProcess r.
Proof.
  unfold needsProcess. simpl.
  destruct (imgData1 r), (imgData2 r), (processedCanvas r); reflexivity.
Qed.

Section SwapProperties.
Context {N : NumberModel}.
Variable drawImage : ImageData -> Rect -> Z -> Z -> list Z.

(** X19. [handleSwap] exchanges the files and the images of the rows
    with the identifier and keeps their canvases. Once no row with both
    images is without a canvas, the repair loop that follows the swap
    processes nothing, so the figures, and the montage [handleDownload]
    draws, are the ones from before the swap. Swapping twice gives back
    the rows. *)
Theorem swap_keeps_the_figures (id0 : string) (st : AppState) (s : RandomState) :
  existsb needsProcess (rows st) = false ->
  repairLoop drawImage (handleSwap id0 st) s = (Normal (handleSwap id0 st), s)
  /\ map processedCanvas (rows (handleSwap id0 st)) = map processedCanvas (rows st)
  /\ handleDownload (handleSwap id0 st) = handleDownload st
  /\ rows (handleSwap id0 (handleSwap id0 st)) = rows st
  /\ forall i r, index (rows st) i = Some r ->
       index (rows (handleSwap id0 st)) i
       = Some (if String.eqb (id r) id0 then swapRow r else r).
Proof.
  intros Hsettled. unfold handleSwap. cbn [rows setRows pushToHistory setHistory config].
  set (f := fun r => if String.eqb (id r) id0 then swapRow r else r).
  assert (Hcanvas : forall r, processedCanvas (f r) = processedCanvas r).
  { intros r. unfold f. destruct (String.eqb (id r) id0); reflexivity. }
  assert (Hneeds : forall r, needsProcess (f r) = needsProcess r).
  { intros r. unfold f. destruct (String.eqb (id r) id0);
      [apply swapRow_needsProcess|reflexivity]. }
  assert (Hmap : forall l, map processedCanvas (map f l) = map processedCanvas l).
  { induction l as [|r l IH]; [reflexivity|]. simpl. rewrite Hcanvas, IH. reflexivity. }
  assert (Homap : forall l, omap processedCanvas (map f l) = omap processedCanvas l).
  { induction l as [|r l IH]; [reflexivity|]. simpl. rewrite Hcanvas.
    destruct (processedCanvas r); [f_equal|]; exact IH. }
  split; [|split; [|split; [|split]]].
  - unfold repairLoop. cbn [rows setRows pushToHistory setHistory config].
    assert (Hex : existsb needsProcess (map f (rows st)) = false).
    { revert Hsettled. induction (rows st) as [|r l IH]; [reflexivity|].
      simpl. rewrite Hneeds. destruct (needsProcess r); [discriminate|]. exact IH. }
    rewrite Hex. reflexivity.
  - apply Hmap.
  - rewrite !handleDownload_eq. cbn [rows setRows pushToHistory setHistory config].
    rewrite Homap. reflexivity.
  - rewrite map_map. clear Hsettled. induction (rows st) as [|r l IH]; [reflexivity|].
    simpl. rewrite IH. f_equal. unfold f.
    destruct (String.eqb (id r) id0) eqn:E.
    + simpl. rewrite E. apply swapRow_involutive.
    + rewrite E. reflexivity.
  - intros i r Hr. unfold index in *. destruct (i <? 0); [discriminate|].
    rewrite list_lookup_fmap, Hr. reflexivity.
Qed.
End SwapProperties.

Lemma swap_keeps_the_figures_witness :
  existsb needsProcess (rows processed0) = false
  /\ (repairLoop (N := exact) drawNearest (handleSwap "c" processed0)
        (draws (Q2Qc (99 # 100)))
      = (Normal (handleSwap "c" processed0), draws (Q2Qc (99 # 100)))
      /\ map processedCanvas (rows (handleSwap "c" processed0))
         = map processedCanvas (rows processed0)
      /\ handleDownload (handleSwap "c" processed0) = handleDownload processed0
      /\ rows (handleSwap "c" (handleSwap "c" processed0)) = rows processed0
      /\ forall i r, index (rows processed0) i = Some r ->
           index (rows (handleSwap "c" processed0)) i
           = Some (if String.eqb (id r) "c" then swapRow r else r)).
Proof.
  split; [vm_compute; reflexivity|].
  apply (swap_keeps_the_figures (N := exact) drawNearest "c" processed0
           (draws (Q2Qc (99 # 100)))).
  vm_compute. reflexivity.
Defined.

(** * Binary floating point: what the operations of [SpecFloat] compute *)

(** ** Powers of two *)

Lemma pow2_pos (e : Z) : (0 < pow2 e)%Q.
Proof. apply Qpower_0_lt. reflexivity. Qed.

Lemma pow2_add (a b : Z) : (pow2 (a + b) == pow2 a * pow2 b)%Q.
Proof. apply Qpower_plus. discriminate. Qed.

Lemma pow2_0 : (pow2 0 == 1)%Q.
Proof. reflexivity. Qed.

Lemma pow2_1 : (pow2 1 == 2)%Q.
Proof. reflexivity. Qed.

Lemma pow2_opp (e : Z) : (pow2 (- e) == / pow2 e)%Q.
Proof. apply Qpower_opp. Qed.

Lemma pow2_sub (a b : Z) : (pow2 (a - b) == pow2 a / pow2 b)%Q.
Proof.
  unfold Z.sub. rewrite pow2_add, pow2_opp. reflexivity.
Qed.

Lemma pow2_cancel (e : Z) : (pow2 e * pow2 (- e) == 1)%Q.
Proof.
  rewrite <- pow2_add. replace (e + - e) with 0 by lia. reflexivity.
Qed.

Lemma pow2_le (a b : Z) : a <= b -> (pow2 a <= pow2 b)%Q.
Proof. intros H. apply Qpower_le_compat_l; [exact H|discriminate]. Qed.

Lemma pow2_lt (a b : Z) : a < b -> (pow2 a < pow2 b)%Q.
Proof. intros H. apply Qpower_lt_compat_l; [exact H|reflexivity]. Qed.

Lemma pow2_lt_inv (a b : Z) : (pow2 a < pow2 b)%Q -> a < b.
Proof.
  intros H. destruct (Z.lt_ge_cases a b) as [Hlt|Hge]; [exact Hlt|].
  apply pow2_le in Hge. lra.
Qed.

Lemma pow2_Z (n : Z) : 0 <= n -> (inject_Z (2 ^ n) == pow2 n)%Q.
Proof. intros H. apply Zpower_Qpower. exact H. Qed.

Lemma pow2_succ (e : Z) : (pow2 (e + 1) == 2 * pow2 e)%Q.
Proof. rewrite pow2_add, pow2_1. ring. Qed.

(** ** The number of binary digits *)

Lemma digits2_pos_spec (p : positive) :
  2 ^ (Zpos (digits2_pos p) - 1) <= Zpos p < 2 ^ Zpos (digits2_pos p).
Proof.
  induction p as [p IH|p IH|]; simpl digits2_pos.
  - rewrite Pos2Z.inj_succ.
    replace (Z.succ (Zpos (digits2_pos p)) - 1) with (Zpos (digits2_pos p) - 1 + 1) by lia.
    rewrite Z.pow_succ_r by lia.
    destruct (Z.eq_dec (Zpos (digits2_pos p)) 1) as [E|E].
    + rewrite E in *. simpl in *. lia.
    + rewrite Z.pow_add_r by lia. simpl (2 ^ 1). lia.
  - rewrite Pos2Z.inj_succ.
    replace (Z.succ (Zpos (digits2_pos p)) - 1) with (Zpos (digits2_pos p) - 1 + 1) by lia.
    rewrite Z.pow_succ_r by lia.
    destruct (Z.eq_dec (Zpos (digits2_pos p)) 1) as [E|E].
    + rewrite E in *. simpl in *. lia.
    + rewrite Z.pow_add_r by lia. simpl (2 ^ 1). lia.
  - simpl. lia.
Qed.

Lemma Zdigits2_spec (m : Z) :
  0 < m -> 0 < Zdigits2 m /\ 2 ^ (Zdigits2 m - 1) <= m < 2 ^ Zdigits2 m.
Proof.
  destruct m as [|p|p]; try lia. intros _. simpl. split; [lia|].
  apply digits2_pos_spec.
Qed.

Lemma Zdigits2_0 : Zdigits2 0 = 0.
Proof. reflexivity. Qed.

Lemma Zdigits2_nonneg (m : Z) : 0 <= Zdigits2 m.
Proof. destruct m; simpl; lia. Qed.

(** The digits of a number below a power of two. *)
Lemma Zdigits2_le (m d : Z) : 0 <= m -> 0 <= d -> m < 2 ^ d -> Zdigits2 m <= d.
Proof.
  intros Hm Hd Hlt. destruct (Z.eq_dec m 0) as [->|Hne]; [simpl; lia|].
  destruct (Zdigits2_spec m ltac:(lia)) as (Hpos & Hlo & _).
  destruct (Z.le_gt_cases (Zdigits2 m) d) as [H|H]; [exact H|].
  assert (2 ^ d <= 2 ^ (Zdigits2 m - 1)) by (apply Z.pow_le_mono_r; lia). lia.
Qed.

Lemma Zdigits2_ge (m d : Z) : 0 <= d -> 2 ^ d <= m -> d + 1 <= Zdigits2 m.
Proof.
  intros Hd Hle. assert (0 < m) by (pose proof (Z.pow_pos_nonneg 2 d); lia).
  destruct (Zdigits2_spec m ltac:(lia)) as (Hpos & _ & Hhi).
  destruct (Z.le_gt_cases (d + 1) (Zdigits2 m)) as [H'|H']; [exact H'|].
  assert (2 ^ Zdigits2 m <= 2 ^ d) by (apply Z.pow_le_mono_r; lia). lia.
Qed.

(** ** Shifting right *)

Lemma located_ext (mrs : shr_record) (t t' : Q) :
  (t == t')%Q -> located mrs t -> located mrs t'.
Proof.
  intros E. unfold located. destruct (shr_r mrs), (shr_s mrs); rewrite E; auto.
Qed.

Lemma located_bounds (mrs : shr_record) (t : Q) :
  located mrs t -> (inject_Z (shr_m mrs) <= t /\ t < inject_Z (shr_m mrs) + 1)%Q.
Proof.
  unfold located. destruct (shr_r mrs), (shr_s mrs); intros H; lra.
Qed.

Lemma shr_1_m (mrs : shr_record) :
  0 <= shr_m mrs ->
  shr_m (shr_1 mrs) = shr_m mrs / 2
  /\ shr_r (shr_1 mrs) = Z.odd (shr_m mrs)
  /\ shr_s (shr_1 mrs) = shr_r mrs || shr_s mrs.
Proof.
  destruct mrs as [m r s]. simpl. intros Hm.
  destruct m as [|[p|p|]|p]; try lia; simpl; repeat split.
  - rewrite Pos2Z.inj_xI. apply (Z.div_unique _ 2 _ 1); lia.
  - rewrite Pos2Z.inj_xO. apply (Z.div_unique _ 2 _ 0); lia.
Qed.

Lemma shr_1_located (mrs : shr_record) (t : Q) :
  0 <= shr_m mrs -> located mrs t -> located (shr_1 mrs) (t * (1 # 2)).
Proof.
  intros Hm Ht. destruct (shr_1_m mrs Hm) as (Em & Er & Es).
  unfold located in *. rewrite Em, Er, Es.
  pose proof (Z.div_mod (shr_m mrs) 2 ltac:(lia)) as Hdm.
  pose proof (Z.mod_pos_bound (shr_m mrs) 2 ltac:(lia)) as Hb.
  pose proof (Zmod_odd (shr_m mrs)) as Hodd.
  assert (Hq : (inject_Z (shr_m mrs)
                == 2 * inject_Z (shr_m mrs / 2) + inject_Z (shr_m mrs mod 2))%Q).
  { rewrite Hdm at 1. rewrite inject_Z_plus, inject_Z_mult. reflexivity. }
  destruct (Z.odd (shr_m mrs)); rewrite Hodd in Hq.
  - change (inject_Z 1) with 1%Q in Hq.
    destruct (shr_r mrs), (shr_s mrs); simpl; lra.
  - change (inject_Z 0) with 0%Q in Hq.
    destruct (shr_r mrs), (shr_s mrs); simpl; lra.
Qed.

Lemma iter_pos_shr_1 (p : positive) :
  forall (mrs : shr_record) (t : Q),
    0 <= shr_m mrs -> located mrs t ->
    shr_m (SpecFloat.iter_pos shr_1 p mrs) = shr_m mrs / 2 ^ Zpos p
    /\ located (SpecFloat.iter_pos shr_1 p mrs) (t * pow2 (- Zpos p)).
Proof.
  assert (Hhalf : forall t, (t * (1 # 2) == t * pow2 (-1))%Q) by (intros; reflexivity).
  assert (Hstep : forall mrs, 0 <= shr_m mrs -> 0 <= shr_m (shr_1 mrs)).
  { intros mrs Hm. destruct (shr_1_m mrs Hm) as (-> & _). apply Z.div_pos; lia. }
  induction p as [p IH|p IH|]; intros mrs t Hm Ht; simpl SpecFloat.iter_pos.
  - pose proof (shr_1_located mrs t Hm Ht) as H1.
    destruct (shr_1_m mrs Hm) as (E1 & _).
    destruct (IH _ _ (Hstep _ Hm) H1) as (E2 & H2).
    assert (Hm2 : 0 <= shr_m (SpecFloat.iter_pos shr_1 p (shr_1 mrs))).
    { rewrite E2. apply Z.div_pos; [auto|]. apply Z.pow_pos_nonneg; lia. }
    destruct (IH _ _ Hm2 H2) as (E3 & H3). split.
    + rewrite E3, E2, E1. rewrite !Z.div_div by (try apply Z.pow_pos_nonneg; lia).
      f_equal.
      replace (Zpos p~1) with (1 + Zpos p + Zpos p) by lia.
      rewrite !Z.pow_add_r by lia. simpl (2 ^ 1). ring.
    + eapply located_ext; [|exact H3]. rewrite Hhalf.
      replace (- Zpos p~1) with (-1 + (- Zpos p + - Zpos p)) by lia.
      rewrite !pow2_add. ring.
  - destruct (IH _ _ Hm Ht) as (E2 & H2).
    assert (Hm2 : 0 <= shr_m (SpecFloat.iter_pos shr_1 p mrs)).
    { rewrite E2. apply Z.div_pos; [auto|]. apply Z.pow_pos_nonneg; lia. }
    destruct (IH _ _ Hm2 H2) as (E3 & H3). split.
    + rewrite E3, E2. rewrite !Z.div_div by (try apply Z.pow_pos_nonneg; lia).
      f_equal.
      replace (Zpos p~0) with (Zpos p + Zpos p) by lia.
      rewrite !Z.pow_add_r by lia. ring.
    + eapply located_ext; [|exact H3].
      replace (- Zpos p~0) with (- Zpos p + - Zpos p) by lia.
      rewrite !pow2_add. ring.
  - destruct (shr_1_m mrs Hm) as (E1 & _). split.
    + rewrite E1. reflexivity.
    + eapply located_ext; [|exact (shr_1_located mrs t Hm Ht)]. apply Hhalf.
Qed.

(** [shr] by [n] places, or by none when [n] is not positive. *)
Lemma shr_spec (mrs : shr_record) (e n : Z) (t : Q) :
  0 <= shr_m mrs -> located mrs t ->
  snd (shr mrs e n) = e + Z.max 0 n
  /\ shr_m (fst (shr mrs e n)) = shr_m mrs / 2 ^ Z.max 0 n
  /\ located (fst (shr mrs e n)) (t * pow2 (- Z.max 0 n)).
Proof.
  intros Hm Ht. destruct n as [|p|p]; simpl.
  - split; [lia|]. split; [rewrite Z.div_1_r; reflexivity|].
    eapply located_ext; [|exact Ht]. change (pow2 (-0)) with 1%Q. ring.
  - destruct (iter_pos_shr_1 p mrs t Hm Ht) as (E & H).
    split; [reflexivity|]. split; [exact E|exact H].
  - split; [lia|]. split; [rewrite Z.div_1_r; reflexivity|].
    eapply located_ext; [|exact Ht]. change (pow2 (-0)) with 1%Q. ring.
Qed.

Lemma located_of_loc (m : Z) (l : location) :
  shr_m (shr_record_of_loc m l) = m
  /\ loc_of_shr_record (shr_record_of_loc m l) = l.
Proof. destruct l as [|[| |]]; split; reflexivity. Qed.

(** ** Rounding to nearest, ties to even *)

Lemma round_nearest_even_spec (mrs : shr_record) (t : Q) :
  located mrs t ->
  shr_m mrs <= round_nearest_even (shr_m mrs) (loc_of_shr_record mrs) <= shr_m mrs + 1
  /\ (inject_Z (round_nearest_even (shr_m mrs) (loc_of_shr_record mrs)) - (1 # 2) <= t
      /\ t <= inject_Z (round_nearest_even (shr_m mrs) (loc_of_shr_record mrs)) + (1 # 2))%Q.
Proof.
  destruct mrs as [m r s]. unfold located. simpl.
  destruct r, s; simpl; intros Ht.
  - rewrite inject_Z_plus. change (inject_Z 1) with 1%Q. split; [lia|lra].
  - destruct (Z.even m); [|rewrite inject_Z_plus; change (inject_Z 1) with 1%Q];
      (split; [lia|lra]).
  - split; [lia|lra].
  - split; [lia|lra].
Qed.

Section Round.
Variables prec emax : Z.
Hypothesis prec_pos : 0 < prec.

Lemma fexp_ge_emin (e : Z) : emin prec emax <= fexp prec emax e.
Proof. unfold fexp. lia. Qed.

Lemma fexp_mono (a b : Z) : a <= b -> fexp prec emax a <= fexp prec emax b.
Proof. unfold fexp. lia. Qed.

Lemma fexp_succ (a : Z) : fexp prec emax (a + 1) <= fexp prec emax a + 1.
Proof. unfold fexp. lia. Qed.

Lemma shr_fexp_spec (m e : Z) (l : location) (t : Q) :
  0 <= m -> located (shr_record_of_loc m l) t ->
  snd (shr_fexp prec emax m e l) = Z.max e (fexp prec emax (Zdigits2 m + e))
  /\ shr_m (fst (shr_fexp prec emax m e l))
     = m / 2 ^ (snd (shr_fexp prec emax m e l) - e)
  /\ located (fst (shr_fexp prec emax m e l))
       (t * pow2 (e - snd (shr_fexp prec emax m e l))).
Proof.
  intros Hm Ht. unfold shr_fexp.
  destruct (located_of_loc m l) as [Em _].
  destruct (shr_spec (shr_record_of_loc m l) e
              (fexp prec emax (Zdigits2 m + e) - e) t) as (E1 & E2 & H3).
  { rewrite Em. exact Hm. }
  { exact Ht. }
  rewrite E1. split; [lia|]. split.
  - rewrite E2, Em. f_equal. f_equal. lia.
  - eapply located_ext; [|exact H3]. apply Qmult_comp; [reflexivity|].
    replace (e - (e + Z.max 0 (fexp prec emax (Zdigits2 m + e) - e)))
      with (- Z.max 0 (fexp prec emax (Zdigits2 m + e) - e)) by lia.
    reflexivity.
Qed.

(** The digits left after a shift. *)
Lemma Zdigits2_shift (m k : Z) :
  0 <= m -> 0 <= k -> m / 2 ^ k = 0 \/ Zdigits2 (m / 2 ^ k) + k <= Zdigits2 m.
Proof.
  intros Hm Hk. set (m' := m / 2 ^ k).
  assert (Hp : 0 < 2 ^ k) by (apply Z.pow_pos_nonneg; lia).
  assert (Hm' : 0 <= m') by (apply Z.div_pos; lia).
  destruct (Z.eq_dec m' 0) as [E|E]; [left; exact E|right].
  assert (Hle : m' * 2 ^ k <= m).
  { unfold m'. rewrite Z.mul_comm. apply Z.mul_div_le. lia. }
  destruct (Zdigits2_spec m' ltac:(lia)) as (Hd' & Hlo & _).
  assert (0 < m) by nia.
  assert (H2 : 2 ^ (Zdigits2 m' - 1 + k) <= m).
  { rewrite Z.pow_add_r by lia. nia. }
  pose proof (Zdigits2_ge m (Zdigits2 m' - 1 + k) ltac:(lia) H2). lia.
Qed.

(** What [binary_round_aux] returns for a number [t * 2 ^ ex] below
    [2 ^ K]: the float [m1 * 2 ^ e1] with [m1] one of the two integers
    around [t * 2 ^ (ex - e1)], the nearest one. *)
Lemma binary_round_aux_spec (sx : bool) (mx ex : Z) (lx : location) (t : Q) (K : Z) :
  0 <= mx -> located (shr_record_of_loc mx lx) t ->
  ex < K -> (t * pow2 ex < pow2 K)%Q ->
  emin prec emax < K -> K <= emax - prec ->
  exists m1 e1,
    e1 = Z.max ex (fexp prec emax (Zdigits2 mx + ex))
    /\ mx / 2 ^ (e1 - ex) <= m1 <= mx / 2 ^ (e1 - ex) + 1
    /\ (inject_Z (mx / 2 ^ (e1 - ex)) <= t * pow2 (ex - e1)
        /\ t * pow2 (ex - e1) < inject_Z (mx / 2 ^ (e1 - ex)) + 1)%Q
    /\ (inject_Z m1 - (1 # 2) <= t * pow2 (ex - e1)
        /\ t * pow2 (ex - e1) <= inject_Z m1 + (1 # 2))%Q
    /\ match binary_round_aux prec emax sx mx ex lx with
       | S754_zero s => s = sx /\ m1 = 0
       | S754_finite s m e =>
           s = sx /\ e1 <= e /\ Zdigits2 (Zpos m) <= prec
           /\ (inject_Z (Zpos m) * pow2 e == inject_Z m1 * pow2 e1)%Q
       | _ => False
       end.
Proof.
  intros Hmx Ht HexK HtK HeminK HKmax. unfold binary_round_aux.
  destruct (shr_fexp_spec mx ex lx t Hmx Ht) as (Ee' & Em' & Hloc).
  destruct (shr_fexp prec emax mx ex lx) as [mrs' e'].
  cbn [fst snd] in Ee', Em', Hloc.
  set (m' := shr_m mrs') in *.
  destruct (round_nearest_even_spec mrs' _ Hloc) as (Hm1 & Hnear).
  fold m' in Hm1, Hnear.
  set (m1 := round_nearest_even m' (loc_of_shr_record mrs')) in *.
  assert (Hk0 : 0 <= e' - ex) by lia.
  assert (Hm'0 : 0 <= m').
  { rewrite Em'. apply Z.div_pos; [exact Hmx|]. apply Z.pow_pos_nonneg; lia. }
  assert (Hexact : located (shr_record_of_loc m1 loc_Exact) (inject_Z m1)).
  { unfold located. simpl. reflexivity. }
  destruct (shr_fexp_spec m1 e' loc_Exact (inject_Z m1) ltac:(lia) Hexact)
    as (Ee'' & Em'' & _).
  destruct (shr_fexp prec emax m1 e' loc_Exact) as [mrs'' e''].
  cbn [fst snd] in Ee'', Em''.
  (* the exponent reached fits the mantissa left *)
  assert (HF : fexp prec emax (Zdigits2 m' + e') <= e').
  { destruct (Zdigits2_shift mx (e' - ex) Hmx Hk0) as [E0|Hd].
    - rewrite Em', E0. simpl Zdigits2. pose proof (fexp_ge_emin (Zdigits2 mx + ex)).
      unfold fexp in *. lia.
    - rewrite <- Em' in Hd.
      pose proof (fexp_mono (Zdigits2 m' + e') (Zdigits2 mx + ex) ltac:(lia)). lia. }
  (* rounding up adds at most one digit, and then gives a power of two *)
  assert (Hdig : Zdigits2 m1 <= Zdigits2 m'
                 \/ (m1 = 2 ^ Zdigits2 m' /\ Zdigits2 m1 = Zdigits2 m' + 1)).
  { destruct (Z.eq_dec m' 0) as [E0|Hne].
    - rewrite E0 in *. simpl Zdigits2.
      assert (Hc : m1 = 0 \/ m1 = 1) by lia.
      destruct Hc as [-> | ->]; [left; simpl; lia|right; split; reflexivity].
    - destruct (Zdigits2_spec m' ltac:(lia)) as (Hd' & _ & Hhi).
      destruct (Z.eq_dec m1 (2 ^ Zdigits2 m')) as [E|E].
      + right. split; [exact E|].
        pose proof (Zdigits2_ge m1 (Zdigits2 m') ltac:(lia) ltac:(lia)).
        assert (m1 < 2 ^ (Zdigits2 m' + 1)).
        { rewrite Z.pow_add_r by lia. simpl (2 ^ 1). lia. }
        pose proof (Zdigits2_le m1 (Zdigits2 m' + 1) ltac:(lia) ltac:(lia) ltac:(lia)).
        lia.
      + left. apply Zdigits2_le; lia. }
  assert (Hk : e'' = e' \/ (e'' = e' + 1 /\ exists h, m1 = 2 * h)).
  { destruct Hdig as [Hle|[E Hd]].
    - left. pose proof (fexp_mono (Zdigits2 m1 + e') (Zdigits2 m' + e') ltac:(lia)). lia.
    - pose proof (fexp_succ (Zdigits2 m' + e')).
      replace (Zdigits2 m' + e' + 1) with (Zdigits2 m1 + e') in * by lia.
      destruct (Z.eq_dec e'' e') as [E'|E']; [left; exact E'|right].
      split; [lia|].
      destruct (Z.eq_dec (Zdigits2 m') 0) as [Ed|Ed].
      + exfalso. rewrite Ed in *. pose proof (fexp_ge_emin (Zdigits2 mx + ex)).
        unfold fexp in *. lia.
      + pose proof (Zdigits2_nonneg m').
        exists (2 ^ (Zdigits2 m' - 1)). rewrite E.
        replace (Zdigits2 m') with (1 + (Zdigits2 m' - 1)) at 1 by lia.
        rewrite Z.pow_add_r by lia. reflexivity. }
  assert (Hval : m1 = shr_m mrs'' * 2 ^ (e'' - e')).
  { rewrite Em''. destruct Hk as [->|[-> [h ->]]].
    - rewrite Z.sub_diag. simpl. rewrite Z.div_1_r. lia.
    - replace (e' + 1 - e') with 1 by lia. simpl (2 ^ 1).
      rewrite Z.mul_comm, Z.div_mul by lia. lia. }
  assert (Hm''0 : 0 <= shr_m mrs'').
  { rewrite Em''. apply Z.div_pos; [lia|]. apply Z.pow_pos_nonneg; lia. }
  (* no overflow *)
  assert (He'K : e' <= K - 1).
  { rewrite Ee'. apply Z.max_lub; [lia|].
    destruct (Z.eq_dec mx 0) as [->|Hne].
    - simpl Zdigits2. unfold fexp, emin in *. lia.
    - destruct (Zdigits2_spec mx ltac:(lia)) as (Hd & Hlo & _).
      destruct (located_bounds _ _ Ht) as [Hlow _].
      destruct (located_of_loc mx lx) as [Emx _]. rewrite Emx in Hlow.
      assert (Hp : (pow2 (Zdigits2 mx - 1 + ex) < pow2 K)%Q).
      { rewrite pow2_add. rewrite <- pow2_Z by lia.
        pose proof (pow2_pos ex).
        assert ((inject_Z (2 ^ (Zdigits2 mx - 1)) <= inject_Z mx)%Q)
          by (rewrite <- Zle_Qle; exact Hlo).
        apply Qle_lt_trans with (t * pow2 ex)%Q; [|exact HtK].
        apply Qmult_le_compat_r; lra. }
      apply pow2_lt_inv in Hp. unfold fexp, emin in *. lia. }
  exists m1, e'. split; [exact Ee'|]. rewrite <- Em'. split; [exact Hm1|].
  split; [apply (located_bounds _ _ Hloc)|]. split; [exact Hnear|].
  destruct (shr_m mrs'') as [|m''|m''] eqn:Emm; [| |lia].
  - split; [reflexivity|]. lia.
  - assert (Hle : (e'' <=? emax - prec) = true) by (apply Z.leb_le; lia).
    rewrite Hle. split; [reflexivity|]. split; [lia|]. split.
    { destruct (Zdigits2_shift m1 (e'' - e') ltac:(lia) ltac:(lia)) as [E0|Hd].
      - rewrite <- Em'' in E0. discriminate.
      - rewrite <- Em'' in Hd. unfold fexp in Ee''. lia. }
    rewrite Hval. rewrite inject_Z_mult. rewrite pow2_Z by lia.
    replace e'' with (e'' - e' + e') at 1 by lia. rewrite pow2_add. ring.
Qed.
End Round.

(** ** The value a rounding returns *)

Lemma finiteAt_ext (lo : Z) (x : spec_float) (v v' : Q) :
  (v == v')%Q -> finiteAt lo x v -> finiteAt lo x v'.
Proof.
  intros E. unfold finiteAt. destruct x as [s|s| |s m e]; try tauto.
  - intros H. rewrite <- E. exact H.
  - intros [H1 H2]. split; [exact H1|]. rewrite <- E. exact H2.
Qed.

Lemma finiteAt_weaken (lo lo' : Z) (x : spec_float) (v : Q) :
  lo' <= lo -> finiteAt lo x v -> finiteAt lo' x v.
Proof.
  intros Hle. unfold finiteAt. destruct x as [s|s| |s m e]; try tauto.
  intros [H1 H2]. split; [lia|exact H2].
Qed.

Lemma inject_Z_cond_Zopp (s : bool) (m : Z) :
  (inject_Z (cond_Zopp s m) == signed s (inject_Z m))%Q.
Proof. destruct s; simpl; [rewrite inject_Z_opp|]; reflexivity. Qed.

Section RoundValue.
Variables prec emax : Z.
Hypothesis prec_pos : 0 < prec.

(** [binary_round_aux] on a number [q = t * 2 ^ ex] below [2 ^ K] returns
    a float whose absolute value [v] is on the grid of step [2 ^ e1], at
    most half a step from [q], and on the same side of every point of the
    grid as [q] is. *)
Lemma round_aux_value (sx : bool) (mx ex : Z) (lx : location) (t : Q) (K : Z) :
  0 <= mx -> located (shr_record_of_loc mx lx) t ->
  ex < K -> (t * pow2 ex < pow2 K)%Q ->
  emin prec emax < K -> K <= emax - prec ->
  exists v : Q,
    finiteAt (Z.max ex (fexp prec emax (Zdigits2 mx + ex)))
      (binary_round_aux prec emax sx mx ex lx) (signed sx v)
    /\ mantissaFits prec (binary_round_aux prec emax sx mx ex lx)
    /\ (0 <= v)%Q
    /\ (v - t * pow2 ex
        <= pow2 (Z.max ex (fexp prec emax (Zdigits2 mx + ex)) - 1))%Q
    /\ (t * pow2 ex - v
        <= pow2 (Z.max ex (fexp prec emax (Zdigits2 mx + ex)) - 1))%Q
    /\ forall n : Z,
         ((inject_Z n * pow2 (Z.max ex (fexp prec emax (Zdigits2 mx + ex)))
           <= t * pow2 ex ->
           inject_Z n * pow2 (Z.max ex (fexp prec emax (Zdigits2 mx + ex))) <= v)
          /\ (t * pow2 ex
              <= inject_Z n * pow2 (Z.max ex (fexp prec emax (Zdigits2 mx + ex))) ->
              v <= inject_Z n * pow2 (Z.max ex (fexp prec emax (Zdigits2 mx + ex)))))%Q.
Proof.
  intros Hmx Ht HexK HtK HeminK HKmax.
  destruct (binary_round_aux_spec prec emax prec_pos sx mx ex lx t K
              Hmx Ht HexK HtK HeminK HKmax)
    as (m1 & e1 & Ee1 & Hm1 & Hfloor & Hnear & Hres).
  assert (Hge : ex <= e1) by lia.
  rewrite <- Ee1. clear Ee1.
  set (m0 := mx / 2 ^ (e1 - ex)) in *.
  set (t' := (t * pow2 (ex - e1))%Q) in *.
  pose proof (pow2_pos e1) as Hg.
  assert (Hq : (t * pow2 ex == t' * pow2 e1)%Q).
  { unfold t'. rewrite <- Qmult_assoc, <- pow2_add.
    replace (ex - e1 + e1) with ex by lia. reflexivity. }
  assert (Hm00 : 0 <= m0).
  { unfold m0. apply Z.div_pos; [exact Hmx|]. apply Z.pow_pos_nonneg; lia. }
  exists (inject_Z m1 * pow2 e1)%Q.
  assert (Hhalf : (pow2 (e1 - 1) == (1 # 2) * pow2 e1)%Q).
  { rewrite pow2_sub, pow2_1. field. }
  split; [|split; [|split; [|split; [|split]]]].
  - unfold finiteAt. destruct (binary_round_aux prec emax sx mx ex lx) as [s|s| |s m e];
      try contradiction.
    + destruct Hres as [_ ->]. unfold signed. destruct sx; simpl; ring.
    + destruct Hres as (-> & He & _ & Hv). split; [exact He|].
      rewrite inject_Z_cond_Zopp. unfold signed. destruct sx; lra.
  - unfold mantissaFits. destruct (binary_round_aux prec emax sx mx ex lx) as [s|s| |s m e];
      try exact I. apply Hres.
  - assert (0 <= inject_Z m1)%Q by (change 0%Q with (inject_Z 0); rewrite <- Zle_Qle; lia).
    apply Qmult_le_0_compat; lra.
  - rewrite Hq, Hhalf. nra.
  - rewrite Hq, Hhalf. nra.
  - intros n. rewrite Hq. split; intros Hn.
    + assert (Hn' : (inject_Z n <= t')%Q) by nra.
      assert (Hlt : (inject_Z n < inject_Z (m0 + 1))%Q).
      { rewrite inject_Z_plus. change (inject_Z 1) with 1%Q. lra. }
      rewrite <- Zlt_Qlt in Hlt.
      assert ((inject_Z n <= inject_Z m1)%Q) by (rewrite <- Zle_Qle; lia).
      nra.
    + assert (Hn' : (t' <= inject_Z n)%Q) by nra.
      assert ((inject_Z m1 <= inject_Z n)%Q); [|nra].
      rewrite <- Zle_Qle.
      destruct (Z.eq_dec m1 m0) as [E|E].
      * rewrite E. rewrite Zle_Qle. lra.
      * assert (E1 : m1 = m0 + 1) by lia.
        assert (Hgt : (inject_Z m0 < inject_Z n)%Q).
        { rewrite E1 in Hnear. rewrite inject_Z_plus in Hnear.
          change (inject_Z 1) with 1%Q in Hnear. lra. }
        rewrite <- Zlt_Qlt in Hgt. lia.
Qed.
End RoundValue.

(** ** Aligning and normalising *)

Lemma iter_xO (m d : positive) : Zpos (Pos.iter xO m d) = Zpos m * 2 ^ Zpos d.
Proof.
  induction d as [|d IH] using Pos.peano_ind.
  - simpl. lia.
  - rewrite Pos.iter_succ, Pos2Z.inj_xO, IH, Pos2Z.inj_succ, Z.pow_succ_r by lia. ring.
Qed.

Lemma shl_align_spec (mx : positive) (ex ex' : Z) :
  snd (shl_align mx ex ex') = Z.min ex ex'
  /\ Zpos (fst (shl_align mx ex ex')) = Zpos mx * 2 ^ (ex - Z.min ex ex').
Proof.
  unfold shl_align. destruct (ex' - ex) as [|d|d] eqn:E; simpl.
  - split; [lia|]. replace (ex - Z.min ex ex') with 0 by lia. simpl. lia.
  - split; [lia|]. replace (ex - Z.min ex ex') with 0 by lia. simpl. lia.
  - split; [lia|]. rewrite iter_xO. f_equal. f_equal. lia.
Qed.

Lemma Zdigits2_mul_pow2 (m k : Z) :
  0 < m -> 0 <= k -> Zdigits2 (m * 2 ^ k) = Zdigits2 m + k.
Proof.
  intros Hm Hk. destruct (Zdigits2_spec m Hm) as (Hd & Hlo & Hhi).
  assert (Hp : 0 < 2 ^ k) by (apply Z.pow_pos_nonneg; lia).
  apply Z.le_antisymm.
  - apply Zdigits2_le; [nia|lia|]. rewrite Z.pow_add_r by lia. nia.
  - assert (H2 : 2 ^ (Zdigits2 m - 1 + k) <= m * 2 ^ k).
    { rewrite Z.pow_add_r by lia. nia. }
    pose proof (Zdigits2_ge (m * 2 ^ k) (Zdigits2 m - 1 + k) ltac:(lia) H2). lia.
Qed.

Lemma pow2_lt_1 (m e K : Z) :
  0 < m -> (inject_Z m * pow2 e < pow2 K)%Q -> Zdigits2 m + e <= K /\ e < K.
Proof.
  intros Hm Hlt. destruct (Zdigits2_spec m Hm) as (Hd & Hlo & _).
  pose proof (pow2_pos e) as He.
  assert (H1 : (inject_Z (2 ^ (Zdigits2 m - 1)) <= inject_Z m)%Q)
    by (rewrite <- Zle_Qle; exact Hlo).
  assert (Hp : (pow2 (Zdigits2 m - 1 + e) < pow2 K)%Q).
  { rewrite pow2_add, <- pow2_Z by lia.
    apply Qle_lt_trans with (inject_Z m * pow2 e)%Q; [|exact Hlt].
    apply Qmult_le_compat_r; lra. }
  apply pow2_lt_inv in Hp. lia.
Qed.

Section Normalize.
Variables prec emax : Z.
Hypothesis prec_pos : 0 < prec.

(** [binary_round] rounds [m * 2 ^ e] on the grid of step [2 ^ f], with
    [f = fexp (digits m + e)]. *)
Lemma binary_round_value (sx : bool) (m : positive) (e K : Z) :
  (inject_Z (Zpos m) * pow2 e < pow2 K)%Q ->
  emin prec emax < K -> K <= emax - prec ->
  exists v : Q,
    finiteAt (fexp prec emax (Zdigits2 (Zpos m) + e))
      (binary_round prec emax sx m e) (signed sx v)
    /\ mantissaFits prec (binary_round prec emax sx m e)
    /\ (0 <= v)%Q
    /\ (v - inject_Z (Zpos m) * pow2 e
        <= pow2 (fexp prec emax (Zdigits2 (Zpos m) + e) - 1))%Q
    /\ (inject_Z (Zpos m) * pow2 e - v
        <= pow2 (fexp prec emax (Zdigits2 (Zpos m) + e) - 1))%Q
    /\ forall n : Z,
         ((inject_Z n * pow2 (fexp prec emax (Zdigits2 (Zpos m) + e))
           <= inject_Z (Zpos m) * pow2 e ->
           inject_Z n * pow2 (fexp prec emax (Zdigits2 (Zpos m) + e)) <= v)
          /\ (inject_Z (Zpos m) * pow2 e
              <= inject_Z n * pow2 (fexp prec emax (Zdigits2 (Zpos m) + e)) ->
              v <= inject_Z n * pow2 (fexp prec emax (Zdigits2 (Zpos m) + e))))%Q.
Proof.
  intros Hlt HeminK HKmax. unfold binary_round.
  set (f := fexp prec emax (Zdigits2 (Zpos m) + e)).
  change (Zpos (digits2_pos m)) with (Zdigits2 (Zpos m)). fold f.
  destruct (shl_align_spec m e f) as [Ee Em].
  destruct (shl_align m e f) as [mz ez]. cbn [fst snd] in Ee, Em.
  destruct (pow2_lt_1 (Zpos m) e K ltac:(lia) Hlt) as [HdK HeK].
  assert (Hk : 0 <= e - Z.min e f) by lia.
  assert (Hdig : Zdigits2 (Zpos mz) + ez = Zdigits2 (Zpos m) + e).
  { rewrite Em, Zdigits2_mul_pow2 by lia. lia. }
  assert (Hq : (inject_Z (Zpos mz) * pow2 ez == inject_Z (Zpos m) * pow2 e)%Q).
  { rewrite Em, inject_Z_mult, pow2_Z by lia. rewrite <- Qmult_assoc, <- pow2_add.
    replace (e - Z.min e f + ez) with e by lia. reflexivity. }
  assert (Hloc : located (shr_record_of_loc (Zpos mz) loc_Exact) (inject_Z (Zpos mz))).
  { unfold located. simpl. reflexivity. }
  destruct (round_aux_value prec emax prec_pos sx (Zpos mz) ez loc_Exact
              (inject_Z (Zpos mz)) K ltac:(lia) Hloc ltac:(lia)) as (v & Hv).
  { rewrite Hq. exact Hlt. }
  { exact HeminK. }
  { exact HKmax. }
  rewrite Hdig in Hv. fold f in Hv.
  assert (Emax : Z.max ez f = f).
  { pose proof (fexp_ge_emin prec emax (Zdigits2 (Zpos m) + e)). fold f in H. lia. }
  rewrite Emax in Hv. exists v.
  destruct Hv as (H1 & H2 & H3 & H4 & H5 & H6).
  split; [exact H1|]. split; [exact H2|]. split; [exact H3|].
  split; [rewrite <- Hq; exact H4|]. split; [rewrite <- Hq; exact H5|].
  intros n. rewrite <- Hq. apply H6.
Qed.

(** When the exponent [f] is not above [e], nothing is lost. *)
Lemma binary_round_exact (sx : bool) (m : positive) (e K : Z) :
  (inject_Z (Zpos m) * pow2 e < pow2 K)%Q ->
  emin prec emax < K -> K <= emax - prec ->
  fexp prec emax (Zdigits2 (Zpos m) + e) <= e ->
  finiteAt (fexp prec emax (Zdigits2 (Zpos m) + e))
    (binary_round prec emax sx m e) (signed sx (inject_Z (Zpos m) * pow2 e))
  /\ mantissaFits prec (binary_round prec emax sx m e).
Proof.
  intros Hlt HeminK HKmax Hf.
  destruct (binary_round_value sx m e K Hlt HeminK HKmax)
    as (v & H1 & H2 & H3 & _ & _ & H6).
  split; [|exact H2]. eapply finiteAt_ext; [|exact H1].
  set (f := fexp prec emax (Zdigits2 (Zpos m) + e)) in *.
  assert (Hq : (inject_Z (Zpos m) * pow2 e
                == inject_Z (Zpos m * 2 ^ (e - f)) * pow2 f)%Q).
  { rewrite inject_Z_mult, pow2_Z by lia. rewrite <- Qmult_assoc, <- pow2_add.
    replace (e - f + f) with e by lia. reflexivity. }
  destruct (H6 (Zpos m * 2 ^ (e - f))) as [Hlo Hhi].
  assert (v == inject_Z (Zpos m) * pow2 e)%Q.
  { assert (Hle : (v <= inject_Z (Zpos m * 2 ^ (e - f)) * pow2 f)%Q)
      by (apply Hhi; rewrite Hq; apply Qle_refl).
    assert (Hge : (inject_Z (Zpos m * 2 ^ (e - f)) * pow2 f <= v)%Q)
      by (apply Hlo; rewrite Hq; apply Qle_refl).
    lra. }
  unfold signed. destruct sx; lra.
Qed.

(** The relative error of a rounding that does not underflow. *)
Lemma binary_round_error (sx : bool) (m : positive) (e K : Z) :
  (inject_Z (Zpos m) * pow2 e < pow2 K)%Q ->
  emin prec emax < K -> K <= emax - prec ->
  emin prec emax <= e
  \/ (pow2 (emin prec emax + prec - 1) <= inject_Z (Zpos m) * pow2 e)%Q ->
  exists v : Q,
    finiteAt (emin prec emax) (binary_round prec emax sx m e) (signed sx v)
    /\ mantissaFits prec (binary_round prec emax sx m e)
    /\ (0 <= v)%Q
    /\ (v - inject_Z (Zpos m) * pow2 e
        <= pow2 (- prec) * (inject_Z (Zpos m) * pow2 e))%Q
    /\ (inject_Z (Zpos m) * pow2 e - v
        <= pow2 (- prec) * (inject_Z (Zpos m) * pow2 e))%Q.
Proof.
  intros Hlt HeminK HKmax Hnormal.
  set (f := fexp prec emax (Zdigits2 (Zpos m) + e)).
  pose proof (fexp_ge_emin prec emax (Zdigits2 (Zpos m) + e)) as Hfmin. fold f in Hfmin.
  assert (Hqpos : (0 < inject_Z (Zpos m) * pow2 e)%Q).
  { apply Qmult_lt_0_compat; [|apply pow2_pos].
    change 0%Q with (inject_Z 0). rewrite <- Zlt_Qlt. lia. }
  destruct (Z.le_gt_cases f e) as [Hfe|Hfe].
  - destruct (binary_round_exact sx m e K Hlt HeminK HKmax Hfe) as [H1 H2].
    exists (inject_Z (Zpos m) * pow2 e)%Q.
    split; [apply (finiteAt_weaken f); [exact Hfmin|exact H1]|].
    split; [exact H2|]. split; [lra|].
    pose proof (pow2_pos (- prec)).
    assert (0 <= pow2 (- prec) * (inject_Z (Zpos m) * pow2 e))%Q
      by (apply Qmult_le_0_compat; lra).
    split; lra.
  - destruct (binary_round_value sx m e K Hlt HeminK HKmax)
      as (v & H1 & H2 & H3 & H4 & H5 & _).
    fold f in H1, H4, H5.
    exists v. split; [apply (finiteAt_weaken f); [exact Hfmin|exact H1]|].
    split; [exact H2|]. split; [exact H3|].
    destruct (Zdigits2_spec (Zpos m) ltac:(lia)) as (Hd & Hlo & _).
    assert (Hf : f = Zdigits2 (Zpos m) + e - prec).
    { unfold f, fexp in *. destruct Hnormal as [He|Hq]; [lia|].
      assert (Hp : (pow2 (emin prec emax + prec - 1) < pow2 (Zdigits2 (Zpos m) + e))%Q).
      { apply Qle_lt_trans with (1 := Hq). rewrite pow2_add.
        apply Qmult_lt_compat_r; [apply pow2_pos|].
        rewrite <- pow2_Z by lia. rewrite <- Zlt_Qlt.
        apply (Zdigits2_spec (Zpos m)). lia. }
      apply pow2_lt_inv in Hp. lia. }
    assert (Hbound : (pow2 (f - 1) <= pow2 (- prec) * (inject_Z (Zpos m) * pow2 e))%Q).
    { replace (f - 1) with (- prec + (Zdigits2 (Zpos m) - 1 + e)) by lia.
      rewrite pow2_add. apply Qmult_le_l; [apply pow2_pos|].
      rewrite pow2_add. apply Qmult_le_compat_r; [|apply Qlt_le_weak, pow2_pos].
      rewrite <- pow2_Z by lia. rewrite <- Zle_Qle. exact Hlo. }
    split; lra.
Qed.
End Normalize.

(** ** Sums, differences and products *)

Lemma Qabs_bound (x y : Q) : (- y <= x)%Q -> (x <= y)%Q -> (Qabs x <= y)%Q.
Proof. intros H1 H2. apply Qabs_Qle_condition. split; assumption. Qed.

Lemma Qabs_inject_Z_pos (m : positive) (s : bool) (e : Z) :
  (Qabs (inject_Z (cond_Zopp s (Zpos m)) * pow2 e) == inject_Z (Zpos m) * pow2 e)%Q.
Proof.
  pose proof (pow2_pos e).
  assert (0 < inject_Z (Zpos m))%Q by (change 0%Q with (inject_Z 0); rewrite <- Zlt_Qlt; lia).
  rewrite Qabs_Qmult, (Qabs_pos (pow2 e)) by lra.
  destruct s; simpl cond_Zopp.
  - change (Zneg m) with (- Zpos m). rewrite inject_Z_opp, Qabs_opp, Qabs_pos by lra.
    reflexivity.
  - rewrite Qabs_pos by lra. reflexivity.
Qed.

Section Operations.
Variables prec emax : Z.
Hypothesis prec_pos : 0 < prec.

(** [binary_normalize] of the integer [M] scaled by [2 ^ e]. *)
Lemma binary_normalize_error (M e K : Z) (sz : bool) :
  (Qabs (inject_Z M * pow2 e) < pow2 K)%Q ->
  emin prec emax < K -> K <= emax - prec ->
  emin prec emax <= e
  \/ M = 0
  \/ (pow2 (emin prec emax + prec - 1) <= Qabs (inject_Z M * pow2 e))%Q ->
  exists v : Q,
    finiteAt (emin prec emax) (binary_normalize prec emax M e sz) v
    /\ mantissaFits prec (binary_normalize prec emax M e sz)
    /\ (Qabs (v - inject_Z M * pow2 e)
        <= pow2 (- prec) * Qabs (inject_Z M * pow2 e))%Q.
Proof.
  intros Hlt HeminK HKmax Hnormal. destruct M as [|m|m].
  - exists 0%Q. simpl. split; [reflexivity|]. split; [exact I|].
    assert (E1 : (0 - inject_Z 0 * pow2 e == 0)%Q) by (change (inject_Z 0) with 0%Q; ring).
    assert (E2 : (inject_Z 0 * pow2 e == 0)%Q) by (change (inject_Z 0) with 0%Q; ring).
    rewrite E1, E2. change (Qabs 0) with 0%Q. lra.
  - pose proof (Qabs_inject_Z_pos m false e) as Eabs. simpl cond_Zopp in Eabs.
    rewrite Eabs in Hlt.
    destruct (binary_round_error prec emax prec_pos false m e K Hlt HeminK HKmax)
      as (v & H1 & H2 & H3 & H4 & H5).
    { destruct Hnormal as [H|[H|H]]; [left; exact H|discriminate|right].
      rewrite Eabs in H. exact H. }
    exists v. simpl binary_normalize. split; [exact H1|]. split; [exact H2|].
    rewrite Eabs. apply Qabs_bound; lra.
  - pose proof (Qabs_inject_Z_pos m true e) as Eabs. simpl cond_Zopp in Eabs.
    rewrite Eabs in Hlt.
    destruct (binary_round_error prec emax prec_pos true m e K Hlt HeminK HKmax)
      as (v & H1 & H2 & H3 & H4 & H5).
    { destruct Hnormal as [H|[H|H]]; [left; exact H|discriminate|right].
      rewrite Eabs in H. exact H. }
    exists (- v)%Q. simpl binary_normalize. split; [exact H1|]. split; [exact H2|].
    rewrite Eabs.
    assert (En : (inject_Z (Zneg m) == - inject_Z (Zpos m))%Q)
      by (change (Zneg m) with (- Zpos m); rewrite inject_Z_opp; reflexivity).
    rewrite En. apply Qabs_bound; lra.
Qed.

Lemma binary_normalize_exact (M e K : Z) (sz : bool) :
  (Qabs (inject_Z M * pow2 e) < pow2 K)%Q ->
  emin prec emax < K -> K <= emax - prec ->
  fexp prec emax (Zdigits2 M + e) <= e ->
  finiteAt (emin prec emax) (binary_normalize prec emax M e sz) (inject_Z M * pow2 e)
  /\ mantissaFits prec (binary_normalize prec emax M e sz).
Proof.
  intros Hlt HeminK HKmax Hf. destruct M as [|m|m].
  - simpl. split; [|exact I]. change (inject_Z 0) with 0%Q. ring.
  - pose proof (Qabs_inject_Z_pos m false e) as Eabs. simpl cond_Zopp in Eabs.
    rewrite Eabs in Hlt.
    destruct (binary_round_exact prec emax prec_pos false m e K Hlt HeminK HKmax Hf)
      as [H1 H2].
    split; [|exact H2]. simpl binary_normalize.
    apply (finiteAt_weaken (fexp prec emax (Zdigits2 (Zpos m) + e)));
      [apply fexp_ge_emin|exact H1].
  - pose proof (Qabs_inject_Z_pos m true e) as Eabs. simpl cond_Zopp in Eabs.
    rewrite Eabs in Hlt.
    destruct (binary_round_exact prec emax prec_pos true m e K Hlt HeminK HKmax Hf)
      as [H1 H2].
    split; [|exact H2]. simpl binary_normalize.
    apply (finiteAt_weaken (fexp prec emax (Zdigits2 (Zpos m) + e)));
      [apply fexp_ge_emin|].
    eapply finiteAt_ext; [|exact H1]. simpl signed.
    change (Zneg m) with (- Zpos m). rewrite inject_Z_opp. ring.
Qed.

(** The aligned mantissa of a finite float. *)
Lemma aligned_value (s : bool) (m : positive) (e ez : Z) :
  ez <= e ->
  (inject_Z (cond_Zopp s (Zpos (fst (shl_align m e ez)))) * pow2 ez
   == inject_Z (cond_Zopp s (Zpos m)) * pow2 e)%Q.
Proof.
  intros Hle. destruct (shl_align_spec m e ez) as [_ Em]. rewrite Em.
  replace (Z.min e ez) with ez by lia.
  assert (Hp : (pow2 (e - ez) * pow2 ez == pow2 e)%Q).
  { rewrite <- pow2_add. replace (e - ez + ez) with e by lia. reflexivity. }
  assert (Hm : (inject_Z (Zpos m * 2 ^ (e - ez)) == inject_Z (Zpos m) * pow2 (e - ez))%Q).
  { rewrite inject_Z_mult, pow2_Z by lia. reflexivity. }
  destruct s; simpl cond_Zopp.
  - change (Zneg m) with (- Zpos m).
    rewrite !inject_Z_opp, Hm, <- Hp. ring.
  - rewrite Hm, <- Hp. ring.
Qed.

(** An addition: the relative error is at most [2 ^ - prec]. *)
Lemma SFadd_error (x y : spec_float) (a b : Q) (K : Z) :
  finiteAt (emin prec emax) x a -> finiteAt (emin prec emax) y b ->
  (Qabs (a + b) < pow2 K)%Q ->
  emin prec emax < K -> K <= emax - prec ->
  exists v : Q,
    finiteAt (emin prec emax) (SFadd prec emax x y) v
    /\ (Qabs (v - (a + b)) <= pow2 (- prec) * Qabs (a + b))%Q.
Proof.
  intros Hx Hy Hlt HeminK HKmax.
  assert (Hzero : forall q, (0 <= pow2 (- prec) * Qabs q)%Q).
  { intros q. apply Qmult_le_0_compat; [apply Qlt_le_weak, pow2_pos|apply Qabs_nonneg]. }
  assert (Hsame : forall z v, finiteAt (emin prec emax) z v -> (v == a + b)%Q ->
            exists v : Q, finiteAt (emin prec emax) z v
              /\ (Qabs (v - (a + b)) <= pow2 (- prec) * Qabs (a + b))%Q).
  { intros z v Hz E. exists v. split; [exact Hz|].
    setoid_replace (v - (a + b))%Q with 0%Q using relation Qeq by lra.
    change (Qabs 0) with 0%Q. apply Hzero. }
  destruct x as [sx|sx| |sx mx ex], y as [sy|sy| |sy my ey]; simpl in Hx, Hy; try contradiction.
  - apply (Hsame _ 0%Q); [|lra]. simpl. destruct sx, sy; simpl; reflexivity.
  - apply (Hsame _ b); [exact Hy|lra].
  - apply (Hsame _ a); [exact Hx|lra].
  - destruct Hx as [Hex Ha], Hy as [Hey Hb]. simpl SFadd.
    set (ez := Z.min ex ey).
    set (M := cond_Zopp sx (Zpos (fst (shl_align mx ex ez)))
              + cond_Zopp sy (Zpos (fst (shl_align my ey ez)))).
    assert (Hq : (inject_Z M * pow2 ez == a + b)%Q).
    { unfold M. rewrite inject_Z_plus, Qmult_plus_distr_l.
      rewrite !aligned_value by (unfold ez; lia). rewrite Ha, Hb. reflexivity. }
    destruct (binary_normalize_error M ez K false) as (v & H1 & _ & H3).
    { rewrite Hq. exact Hlt. }
    { exact HeminK. }
    { exact HKmax. }
    { left. unfold ez. lia. }
    exists v. split; [exact H1|]. rewrite <- Hq. exact H3.
Qed.

Lemma SFsub_error (x y : spec_float) (a b : Q) (K : Z) :
  finiteAt (emin prec emax) x a -> finiteAt (emin prec emax) y b ->
  (Qabs (a - b) < pow2 K)%Q ->
  emin prec emax < K -> K <= emax - prec ->
  exists v : Q,
    finiteAt (emin prec emax) (SFsub prec emax x y) v
    /\ (Qabs (v - (a - b)) <= pow2 (- prec) * Qabs (a - b))%Q.
Proof.
  intros Hx Hy Hlt HeminK HKmax.
  assert (Hzero : forall q, (0 <= pow2 (- prec) * Qabs q)%Q).
  { intros q. apply Qmult_le_0_compat; [apply Qlt_le_weak, pow2_pos|apply Qabs_nonneg]. }
  assert (Hsame : forall z v, finiteAt (emin prec emax) z v -> (v == a - b)%Q ->
            exists v : Q, finiteAt (emin prec emax) z v
              /\ (Qabs (v - (a - b)) <= pow2 (- prec) * Qabs (a - b))%Q).
  { intros z v Hz E. exists v. split; [exact Hz|].
    setoid_replace (v - (a - b))%Q with 0%Q using relation Qeq by lra.
    change (Qabs 0) with 0%Q. apply Hzero. }
  destruct x as [sx|sx| |sx mx ex], y as [sy|sy| |sy my ey]; simpl in Hx, Hy; try contradiction.
  - apply (Hsame _ 0%Q); [|lra]. simpl. destruct sx, sy; simpl; reflexivity.
  - apply (Hsame _ (- b)%Q); [|lra]. simpl. destruct Hy as [Hey Hb].
    split; [exact Hey|]. rewrite Hb, !inject_Z_cond_Zopp. destruct sy; simpl; ring.
  - apply (Hsame _ a); [exact Hx|lra].
  - destruct Hx as [Hex Ha], Hy as [Hey Hb]. simpl SFsub.
    set (ez := Z.min ex ey).
    set (M := cond_Zopp sx (Zpos (fst (shl_align mx ex ez)))
              - cond_Zopp sy (Zpos (fst (shl_align my ey ez)))).
    assert (Hq : (inject_Z M * pow2 ez == a - b)%Q).
    { unfold M. unfold Z.sub. rewrite inject_Z_plus, inject_Z_opp.
      setoid_replace ((inject_Z (cond_Zopp sx (Zpos (fst (shl_align mx ex ez))))
                       + - inject_Z (cond_Zopp sy (Zpos (fst (shl_align my ey ez)))))
                      * pow2 ez)%Q
        with (inject_Z (cond_Zopp sx (Zpos (fst (shl_align mx ex ez)))) * pow2 ez
              - inject_Z (cond_Zopp sy (Zpos (fst (shl_align my ey ez)))) * pow2 ez)%Q
        using relation Qeq by ring.
      rewrite !aligned_value by (unfold ez; lia). rewrite Ha, Hb. reflexivity. }
    destruct (binary_normalize_error M ez K false) as (v & H1 & _ & H3).
    { rewrite Hq. exact Hlt. }
    { exact HeminK. }
    { exact HKmax. }
    { left. unfold ez. lia. }
    exists v. split; [exact H1|]. rewrite <- Hq. exact H3.
Qed.
End Operations.

(** ** Products and quotients *)

Lemma Qabs_signed (s : bool) (v : Q) : (Qabs (signed s v) == Qabs v)%Q.
Proof. unfold signed. destruct s; [apply Qabs_opp|reflexivity]. Qed.

Lemma signed_sub (s : bool) (v q : Q) :
  (signed s v - signed s q == signed s (v - q))%Q.
Proof. unfold signed. destruct s; ring. Qed.

(** Rounding on the same side of every integer, for both signs. *)
Lemma integer_sides_signed (s : bool) (v q : Q) :
  (forall n : Z,
     ((inject_Z n <= q -> inject_Z n <= v) /\ (q <= inject_Z n -> v <= inject_Z n))%Q) ->
  forall n : Z,
    ((inject_Z n <= signed s q -> inject_Z n <= signed s v)
     /\ (signed s q <= inject_Z n -> signed s v <= inject_Z n))%Q.
Proof.
  intros H n. unfold signed. destruct s; [|apply H].
  destruct (H (- n)) as [Hlo Hhi]. rewrite inject_Z_opp in Hlo, Hhi.
  split; intros Hn.
  - assert (v <= - inject_Z n)%Q by (apply Hhi; lra). lra.
  - assert (- inject_Z n <= v)%Q by (apply Hlo; lra). lra.
Qed.

(** An integer is on every grid of step [2 ^ e] with [e <= 0]. *)
Lemma integer_on_grid (n e : Z) :
  e <= 0 -> (inject_Z n == inject_Z (n * 2 ^ (- e)) * pow2 e)%Q.
Proof.
  intros He. rewrite inject_Z_mult, pow2_Z by lia.
  rewrite <- Qmult_assoc, <- pow2_add. replace (- e + e) with 0 by lia.
  rewrite pow2_0. ring.
Qed.

Section Products.
Variables prec emax : Z.
Hypothesis prec_pos : 0 < prec.
Hypothesis emin_neg : emin prec emax <= 0.

(** What [round_aux_value] gives for the signed number. *)
Lemma round_aux_props (sx : bool) (mx ex : Z) (lx : location) (t : Q) (K : Z) :
  0 <= mx -> located (shr_record_of_loc mx lx) t ->
  ex < K -> (t * pow2 ex < pow2 K)%Q ->
  emin prec emax < K -> K <= emax - prec ->
  exists v : Q,
    finiteAt (emin prec emax) (binary_round_aux prec emax sx mx ex lx) v
    /\ mantissaFits prec (binary_round_aux prec emax sx mx ex lx)
    /\ (lx = loc_Exact ->
        (pow2 (emin prec emax + prec - 1) <= t * pow2 ex)%Q ->
        (Qabs (v - signed sx (t * pow2 ex)) <= pow2 (- prec) * (t * pow2 ex))%Q)
    /\ (lx = loc_Exact \/ ex <= 0 ->
        (t * pow2 ex < pow2 prec)%Q ->
        forall n : Z,
          ((inject_Z n <= signed sx (t * pow2 ex) -> inject_Z n <= v)
           /\ (signed sx (t * pow2 ex) <= inject_Z n -> v <= inject_Z n))%Q).
Proof.
  intros Hmx Ht HexK HtK HeminK HKmax.
  destruct (round_aux_value prec emax prec_pos sx mx ex lx t K
              Hmx Ht HexK HtK HeminK HKmax)
    as (v & H1 & H2 & H3 & H4 & H5 & H6).
  set (f := fexp prec emax (Zdigits2 mx + ex)) in *.
  set (q := (t * pow2 ex)%Q) in *.
  pose proof (fexp_ge_emin prec emax (Zdigits2 mx + ex)) as Hfmin. fold f in Hfmin.
  destruct (located_bounds _ _ Ht) as [Hlow _].
  destruct (located_of_loc mx lx) as [Emx _]. rewrite Emx in Hlow.
  assert (Hq0 : (0 <= q)%Q).
  { unfold q. apply Qmult_le_0_compat; [|apply Qlt_le_weak, pow2_pos].
    apply Qle_trans with (inject_Z mx); [|exact Hlow].
    change 0%Q with (inject_Z 0). rewrite <- Zle_Qle. exact Hmx. }
  (* an exact number that needs no shift is returned as it is *)
  assert (Hsame : lx = loc_Exact -> f <= ex -> (v == q)%Q).
  { intros -> Hf. replace (Z.max ex f) with ex in H6 by lia.
    assert (Et : (t == inject_Z mx)%Q) by exact Ht.
    destruct (H6 mx) as [Hlo Hhi]. unfold q in *. rewrite Et in *.
    assert (v <= inject_Z mx * pow2 ex)%Q by (apply Hhi; apply Qle_refl).
    assert (inject_Z mx * pow2 ex <= v)%Q by (apply Hlo; apply Qle_refl).
    lra. }
  (* the digits of the mantissa and the size of the number *)
  assert (Hdig : forall J, (q < pow2 J)%Q -> 0 < mx -> Zdigits2 mx + ex <= J).
  { intros J HJ Hpos. apply (pow2_lt_1 mx ex J Hpos).
    apply Qle_lt_trans with q; [|exact HJ]. unfold q.
    apply Qmult_le_compat_r; [exact Hlow|apply Qlt_le_weak, pow2_pos]. }
  exists (signed sx v).
  split; [apply (finiteAt_weaken (Z.max ex f)); [lia|exact H1]|].
  split; [exact H2|]. split.
  - intros Hex Hnormal. rewrite signed_sub, Qabs_signed.
    pose proof (pow2_pos (- prec)) as Hu.
    destruct (Z.le_gt_cases f ex) as [Hf|Hf].
    + rewrite (Hsame Hex Hf).
      setoid_replace (q - q)%Q with 0%Q using relation Qeq by ring.
      change (Qabs 0) with 0%Q. apply Qmult_le_0_compat; lra.
    + replace (Z.max ex f) with f in H4, H5 by lia.
      assert (Et : (t == inject_Z mx)%Q) by (rewrite Hex in Ht; exact Ht).
      assert (Hpos : 0 < mx).
      { destruct (Z.eq_dec mx 0) as [E0|E0]; [|lia]. exfalso.
        assert (q == 0)%Q by (unfold q; rewrite Et, E0; change (inject_Z 0) with 0%Q; ring).
        pose proof (pow2_pos (emin prec emax + prec - 1)). lra. }
      destruct (Zdigits2_spec mx Hpos) as (Hd & Hlo & Hhi).
      assert (Eq : (q == inject_Z mx * pow2 ex)%Q) by (unfold q; rewrite Et; reflexivity).
      assert (Hf' : f = Zdigits2 mx + ex - prec).
      { assert (Hp : (pow2 (emin prec emax + prec - 1) < pow2 (Zdigits2 mx + ex))%Q).
        { apply Qle_lt_trans with (1 := Hnormal). rewrite Eq, pow2_add.
          apply Qmult_lt_compat_r; [apply pow2_pos|].
          rewrite <- pow2_Z by lia. rewrite <- Zlt_Qlt. exact Hhi. }
        apply pow2_lt_inv in Hp. unfold f, fexp in *. lia. }
      assert (Hbound : (pow2 (f - 1) <= pow2 (- prec) * q)%Q).
      { replace (f - 1) with (- prec + (Zdigits2 mx - 1 + ex)) by lia.
        rewrite pow2_add. apply Qmult_le_l; [exact Hu|].
        rewrite Eq, pow2_add. apply Qmult_le_compat_r; [|apply Qlt_le_weak, pow2_pos].
        rewrite <- pow2_Z by lia. rewrite <- Zle_Qle. exact Hlo. }
      apply Qabs_bound; lra.
  - intros Hcase Hsmall. apply integer_sides_signed.
    assert (Hgrid : (v == q)%Q \/ Z.max ex f <= 0).
    { destruct (Z.eq_dec mx 0) as [E0|E0].
      - assert (Hd0 : Zdigits2 mx = 0) by (rewrite E0; reflexivity).
        assert (Ef : f = Z.max (ex - prec) (emin prec emax)).
        { unfold f, fexp. rewrite Hd0. reflexivity. }
        destruct Hcase as [Hex|Hex].
        + destruct (Z.le_gt_cases f ex) as [Hf|Hf]; [left; exact (Hsame Hex Hf)|].
          right. lia.
        + right. lia.
      - pose proof (Hdig prec Hsmall ltac:(lia)) as Hd.
        assert (Hf0 : f <= 0) by (unfold f, fexp in *; lia).
        destruct (Z.le_gt_cases ex 0) as [Hex|Hex]; [right; lia|].
        destruct Hcase as [Hl|Hl]; [|lia].
        left. apply (Hsame Hl). lia. }
    destruct Hgrid as [Evq|Hgrid].
    + intros n. rewrite Evq. tauto.
    + intros n. rewrite (integer_on_grid n (Z.max ex f) Hgrid). apply H6.
Qed.
End Products.

(** ** Signs, and the remainder of a division *)

Lemma signed_xorb_mul (s s' : bool) (a b : Q) :
  (signed s a * signed s' b == signed (xorb s s') (a * b))%Q.
Proof. unfold signed. destruct s, s'; simpl; ring. Qed.

Lemma signed_xorb_div (s s' : bool) (a b : Q) :
  ~ (b == 0)%Q -> (signed s a / signed s' b == signed (xorb s s') (a / b))%Q.
Proof. intros Hb. unfold signed. destruct s, s'; simpl; field; exact Hb. Qed.

Lemma finite_value (s : bool) (m : positive) (e : Z) :
  (inject_Z (cond_Zopp s (Zpos m)) * pow2 e == signed s (inject_Z (Zpos m) * pow2 e))%Q.
Proof. rewrite inject_Z_cond_Zopp. unfold signed. destruct s; ring. Qed.

Lemma finite_pos (m : positive) (e : Z) : (0 < inject_Z (Zpos m) * pow2 e)%Q.
Proof.
  apply Qmult_lt_0_compat; [|apply pow2_pos].
  change 0%Q with (inject_Z 0). rewrite <- Zlt_Qlt. lia.
Qed.

(** Where the remainder of a division lies. *)
Lemma new_location_spec (m2 q r : Z) :
  0 < m2 -> 0 <= r < m2 ->
  located (shr_record_of_loc q (new_location m2 r))
    (inject_Z q + inject_Z r / inject_Z m2).
Proof.
  intros Hm2 Hr.
  assert (Hm2q : (0 < inject_Z m2)%Q) by (change 0%Q with (inject_Z 0); rewrite <- Zlt_Qlt; lia).
  set (x := (inject_Z r / inject_Z m2)%Q).
  assert (Hx : (x * inject_Z m2 == inject_Z r)%Q) by (unfold x; field; lra).
  assert (Hr0 : (0 <= inject_Z r)%Q) by (change 0%Q with (inject_Z 0); rewrite <- Zle_Qle; lia).
  assert (Hr1 : (inject_Z r < inject_Z m2)%Q) by (rewrite <- Zlt_Qlt; lia).
  assert (Hx0 : (0 <= x)%Q) by nra.
  assert (Hx1 : (x < 1)%Q) by nra.
  assert (Hcmp : forall c : comparison, (2 * r ?= m2) = c ->
            match c with
            | Lt => (x < 1 # 2)%Q
            | Eq => (x == 1 # 2)%Q
            | Gt => (1 # 2 < x)%Q
            end).
  { intros c Hc. destruct c.
    - apply Z.compare_eq in Hc.
      assert (E : (2 * inject_Z r == inject_Z m2)%Q)
        by (rewrite <- Hc, inject_Z_mult; reflexivity).
      nra.
    - rewrite Z.compare_lt_iff in Hc.
      assert (E : (2 * inject_Z r < inject_Z m2)%Q).
      { change 2%Q with (inject_Z 2). rewrite <- inject_Z_mult, <- Zlt_Qlt. exact Hc. }
      nra.
    - rewrite Z.compare_gt_iff in Hc.
      assert (E : (inject_Z m2 < 2 * inject_Z r)%Q).
      { change 2%Q with (inject_Z 2). rewrite <- inject_Z_mult, <- Zlt_Qlt. exact Hc. }
      nra. }
  unfold new_location, new_location_even, new_location_odd.
  destruct (Z.eq_dec r 0) as [E0|E0].
  - assert (x == 0)%Q by (unfold x; rewrite E0; change (inject_Z 0) with 0%Q; field; lra).
    clearbody x. rewrite E0. destruct (Z.even m2); unfold located; simpl; lra.
  - assert (Hxpos : (0 < x)%Q).
    { assert (0 < inject_Z r)%Q by (change 0%Q with (inject_Z 0); rewrite <- Zlt_Qlt; lia).
      nra. }
    clearbody x.
    assert (Eb : (r =? 0) = false) by (apply Z.eqb_neq; exact E0).
    destruct (Z.even m2) eqn:Heven; rewrite Eb.
    + pose proof (Hcmp (2 * r ?= m2) eq_refl) as Hc.
      destruct (2 * r ?= m2); unfold located; simpl; lra.
    + destruct (2 * r + 1 ?= m2) eqn:Hc1.
      * apply Z.compare_eq in Hc1.
        assert (Hlt : (2 * r ?= m2) = Lt) by (apply Z.compare_lt_iff; lia).
        pose proof (Hcmp Lt Hlt) as Hc. cbv iota in Hc.
        unfold located; simpl; lra.
      * rewrite Z.compare_lt_iff in Hc1.
        assert (Hlt : (2 * r ?= m2) = Lt) by (apply Z.compare_lt_iff; lia).
        pose proof (Hcmp Lt Hlt) as Hc. cbv iota in Hc.
        unfold located; simpl; lra.
      * rewrite Z.compare_gt_iff in Hc1.
        assert (Hne : 2 * r <> m2).
        { intros E. rewrite <- E, Z.even_mul in Heven. discriminate. }
        assert (Hgt : (2 * r ?= m2) = Gt) by (apply Z.compare_gt_iff; lia).
        pose proof (Hcmp Gt Hgt) as Hc. cbv iota in Hc.
        unfold located; simpl; lra.
Qed.

Section Quotients.
Variables prec emax : Z.
Hypothesis prec_big : 1 < prec.
Hypothesis emin_neg : emin prec emax <= 0.

Lemma SFmul_props (lo lo' : Z) (x y : spec_float) (a b : Q) (K : Z) :
  finiteAt lo x a -> finiteAt lo' y b ->
  (Qabs (a * b) < pow2 K)%Q ->
  emin prec emax < K -> K <= emax - prec ->
  exists v : Q,
    finiteAt (emin prec emax) (SFmul prec emax x y) v
    /\ ((a * b == 0)%Q \/ (pow2 (emin prec emax + prec - 1) <= Qabs (a * b))%Q ->
        (Qabs (v - a * b) <= pow2 (- prec) * Qabs (a * b))%Q)
    /\ ((Qabs (a * b) < pow2 prec)%Q ->
        forall n : Z,
          ((inject_Z n <= a * b -> inject_Z n <= v)
           /\ (a * b <= inject_Z n -> v <= inject_Z n))%Q).
Proof.
  intros Hx Hy Hlt HeminK HKmax.
  assert (Hzero : (a * b == 0)%Q ->
            exists v : Q,
              finiteAt (emin prec emax) (S754_zero (xorb false false)) v
              /\ ((a * b == 0)%Q \/ (pow2 (emin prec emax + prec - 1) <= Qabs (a * b))%Q ->
                  (Qabs (v - a * b) <= pow2 (- prec) * Qabs (a * b))%Q)
              /\ ((Qabs (a * b) < pow2 prec)%Q ->
                  forall n : Z,
                    ((inject_Z n <= a * b -> inject_Z n <= v)
                     /\ (a * b <= inject_Z n -> v <= inject_Z n))%Q)).
  { intros E. exists 0%Q. split; [reflexivity|]. split.
    - intros _. rewrite E. change (Qabs (0 - 0)) with 0%Q. change (Qabs 0) with 0%Q.
      pose proof (pow2_pos (- prec)). lra.
    - intros _ n. rewrite E. tauto. }
  destruct x as [sx|sx| |sx mx ex], y as [sy|sy| |sy my ey];
    simpl in Hx, Hy; try contradiction.
  - apply Hzero. rewrite Hx. ring.
  - apply Hzero. rewrite Hx. ring.
  - apply Hzero. rewrite Hy. ring.
  - destruct Hx as [_ Ha], Hy as [_ Hb]. simpl SFmul.
    rewrite finite_value in Ha, Hb.
    assert (Eab : (a * b == signed (xorb sx sy)
                              (inject_Z (Zpos (mx * my)) * pow2 (ex + ey)))%Q).
    { rewrite Ha, Hb, signed_xorb_mul.
      unfold signed. destruct (xorb sx sy);
        rewrite Pos2Z.inj_mul, inject_Z_mult, pow2_add; ring. }
    set (q := (inject_Z (Zpos (mx * my)) * pow2 (ex + ey))%Q) in *.
    assert (Hqpos : (0 < q)%Q) by apply finite_pos.
    assert (Eabs : (Qabs (a * b) == q)%Q).
    { rewrite Eab, Qabs_signed. apply Qabs_pos. lra. }
    rewrite Eabs in Hlt.
    assert (Hloc : located (shr_record_of_loc (Zpos (mx * my)) loc_Exact)
                     (inject_Z (Zpos (mx * my)))).
    { unfold located. simpl. reflexivity. }
    destruct (pow2_lt_1 (Zpos (mx * my)) (ex + ey) K ltac:(lia) Hlt) as [_ HeK].
    destruct (round_aux_props prec emax ltac:(lia) emin_neg (xorb sx sy)
                (Zpos (mx * my)) (ex + ey) loc_Exact (inject_Z (Zpos (mx * my))) K
                ltac:(lia) Hloc HeK Hlt HeminK HKmax) as (v & H1 & _ & H3 & H4).
    fold q in H3, H4. exists v. split; [exact H1|]. split.
    + intros [E0|Hn].
      * exfalso. rewrite <- Eabs, E0 in Hqpos. change (Qabs 0) with 0%Q in Hqpos. lra.
      * rewrite Eabs in Hn |- *. rewrite Eab. apply H3; [reflexivity|exact Hn].
    + intros Hsmall n. rewrite Eabs in Hsmall. rewrite Eab.
      apply H4; [left; reflexivity|exact Hsmall].
Qed.
End Quotients.

(** ** Division *)

Section Division.
Variables prec emax : Z.
Hypothesis prec_big : 1 < prec.
Hypothesis emin_neg : emin prec emax <= 0.
Hypothesis emax_big : prec - 1 <= emax - prec.

(** The quotient and the remainder [SFdiv] rounds. *)
Lemma SFdiv_core_binary_spec (mx my : positive) (ex ey : Z) :
  (inject_Z (Zpos mx) * pow2 ex / (inject_Z (Zpos my) * pow2 ey) < pow2 (prec - 1))%Q ->
  exists (q e' : Z) (l : location) (t : Q),
    SFdiv_core_binary prec emax (Zpos mx) ex (Zpos my) ey = (q, e', l)
    /\ 0 <= q /\ e' <= 0
    /\ located (shr_record_of_loc q l) t
    /\ (t * pow2 e' == inject_Z (Zpos mx) * pow2 ex / (inject_Z (Zpos my) * pow2 ey))%Q.
Proof.
  intros Hsmall. unfold SFdiv_core_binary.
  set (d1 := Zdigits2 (Zpos mx)). set (d2 := Zdigits2 (Zpos my)).
  set (e' := Z.min (fexp prec emax (d1 + ex - (d2 + ey))) (ex - ey)).
  set (s := ex - ey - e').
  assert (Hs : 0 <= s) by (unfold s, e'; lia).
  set (m' := match s with
             | 0 => Zpos mx
             | Zpos _ => Z.shiftl (Zpos mx) s
             | Zneg _ => 0
             end).
  assert (Em' : m' = Zpos mx * 2 ^ s).
  { unfold m'. destruct s as [|p|p] eqn:Es; [simpl; lia| |lia].
    rewrite Z.shiftl_mul_pow2 by lia. reflexivity. }
  pose proof (Z_div_mod m' (Zpos my) ltac:(lia)) as Hdiv.
  destruct (Z.div_eucl m' (Zpos my)) as [q r]. destruct Hdiv as [Hm' Hr].
  assert (Hp : 0 < 2 ^ s) by (apply Z.pow_pos_nonneg; lia).
  assert (Hq0 : 0 <= q) by nia.
  pose proof (finite_pos mx ex) as Ha. pose proof (finite_pos my ey) as Hb.
  assert (Hmy : (0 < inject_Z (Zpos my))%Q)
    by (change 0%Q with (inject_Z 0); rewrite <- Zlt_Qlt; lia).
  exists q, e', (new_location (Zpos my) r),
    (inject_Z q + inject_Z r / inject_Z (Zpos my))%Q.
  split; [reflexivity|]. split; [exact Hq0|]. split; [|split].
  - (* the quotient is below [2 ^ (prec - 1)], so the grid is at most 1 *)
    destruct (Zdigits2_spec (Zpos mx) ltac:(lia)) as (Hd1 & Hlo1 & _).
    destruct (Zdigits2_spec (Zpos my) ltac:(lia)) as (Hd2 & _ & Hhi2).
    fold d1 in Hd1, Hlo1. fold d2 in Hd2, Hhi2.
    assert (Hlow : (pow2 (d1 + ex - (d2 + ey) - 1)
                   < inject_Z (Zpos mx) * pow2 ex / (inject_Z (Zpos my) * pow2 ey))%Q).
    { apply Qlt_shift_div_l; [exact Hb|].
      replace (d1 + ex - (d2 + ey) - 1) with (d1 - 1 + ex + - (d2 + ey)) by lia.
      rewrite pow2_add.
      assert (H1 : (pow2 (d1 - 1 + ex) <= inject_Z (Zpos mx) * pow2 ex)%Q).
      { rewrite pow2_add. apply Qmult_le_compat_r; [|apply Qlt_le_weak, pow2_pos].
        rewrite <- pow2_Z by lia. rewrite <- Zle_Qle. exact Hlo1. }
      assert (H2 : (inject_Z (Zpos my) * pow2 ey < pow2 (d2 + ey))%Q).
      { rewrite pow2_add. apply Qmult_lt_compat_r; [apply pow2_pos|].
        rewrite <- pow2_Z by lia. rewrite <- Zlt_Qlt. exact Hhi2. }
      pose proof (pow2_cancel (d2 + ey)) as Hc.
      pose proof (pow2_pos (d2 + ey)). pose proof (pow2_pos (- (d2 + ey))).
      pose proof (pow2_pos (d1 - 1 + ex)).
      assert (pow2 (d1 - 1 + ex) * pow2 (- (d2 + ey)) * (inject_Z (Zpos my) * pow2 ey)
              < pow2 (d1 - 1 + ex) * pow2 (- (d2 + ey)) * pow2 (d2 + ey))%Q.
      { apply Qmult_lt_l; [|exact H2]. apply Qmult_lt_0_compat; assumption. }
      assert (pow2 (d1 - 1 + ex) * pow2 (- (d2 + ey)) * pow2 (d2 + ey)
              == pow2 (d1 - 1 + ex))%Q.
      { rewrite <- Qmult_assoc. rewrite (Qmult_comm (pow2 (- (d2 + ey)))), Hc. ring. }
      lra. }
    assert (HD : (pow2 (d1 + ex - (d2 + ey) - 1) < pow2 (prec - 1))%Q) by lra.
    apply pow2_lt_inv in HD. unfold e', fexp. lia.
  - apply new_location_spec; lia.
  - assert (Et : (inject_Z q + inject_Z r / inject_Z (Zpos my)
                 == inject_Z m' / inject_Z (Zpos my))%Q).
    { rewrite Hm', inject_Z_plus, inject_Z_mult. field. lra. }
    rewrite Et, Em', inject_Z_mult, pow2_Z by lia.
    assert (Hps : (pow2 s * pow2 e' == pow2 ex * / pow2 ey)%Q).
    { rewrite <- pow2_add, <- pow2_opp, <- pow2_add. unfold s.
      replace (ex - ey - e' + e') with (ex + - ey) by lia. reflexivity. }
    pose proof (pow2_pos ey).
    setoid_replace (inject_Z (Zpos mx) * pow2 s / inject_Z (Zpos my) * pow2 e')%Q
      with (inject_Z (Zpos mx) / inject_Z (Zpos my) * (pow2 s * pow2 e'))%Q
      using relation Qeq by (field; lra).
    rewrite Hps. field. split; lra.
Qed.

(** A division whose quotient is below [2 ^ (prec - 1)] in absolute value
    rounds on the same side of every integer as the quotient is. *)
Lemma SFdiv_props (lo lo' : Z) (x y : spec_float) (a b : Q) :
  finiteAt lo x a -> finiteAt lo' y b -> ~ (b == 0)%Q ->
  (Qabs (a / b) < pow2 (prec - 1))%Q ->
  exists v : Q,
    finiteAt (emin prec emax) (SFdiv prec emax x y) v
    /\ forall n : Z,
         ((inject_Z n <= a / b -> inject_Z n <= v)
          /\ (a / b <= inject_Z n -> v <= inject_Z n))%Q.
Proof.
  intros Hx Hy Hb0 Hsmall.
  destruct x as [sx|sx| |sx mx ex], y as [sy|sy| |sy my ey];
    simpl in Hx, Hy; try contradiction.
  - exists 0%Q. simpl SFdiv. split; [reflexivity|].
    assert (E : (a / b == 0)%Q) by (rewrite Hx; field; exact Hb0).
    intros n. rewrite E. tauto.
  - destruct Hx as [_ Ha], Hy as [_ Hb]. rewrite finite_value in Ha, Hb.
    pose proof (finite_pos mx ex) as HA. pose proof (finite_pos my ey) as HB.
    set (A := (inject_Z (Zpos mx) * pow2 ex)%Q) in *.
    set (B := (inject_Z (Zpos my) * pow2 ey)%Q) in *.
    assert (Eab : (a / b == signed (xorb sx sy) (A / B))%Q).
    { rewrite Ha, Hb. apply signed_xorb_div. lra. }
    assert (Hq0 : (0 < A / B)%Q) by (apply Qlt_shift_div_l; lra).
    assert (Eabs : (Qabs (a / b) == A / B)%Q).
    { rewrite Eab, Qabs_signed. apply Qabs_pos. lra. }
    rewrite Eabs in Hsmall.
    destruct (SFdiv_core_binary_spec mx my ex ey Hsmall)
      as (q & e' & l & t & Ecore & Hq & He' & Hloc & Et).
    fold A B in Et. simpl SFdiv. rewrite Ecore.
    destruct (round_aux_props prec emax ltac:(lia) emin_neg (xorb sx sy)
                q e' l t (prec - 1) Hq Hloc ltac:(lia)) as (v & H1 & _ & _ & H4).
    { rewrite Et. exact Hsmall. }
    { lia. }
    { exact emax_big. }
    assert (E2 : (signed (xorb sx sy) (A / B) == signed (xorb sx sy) (t * pow2 e'))%Q).
    { unfold signed. destruct (xorb sx sy); rewrite Et; reflexivity. }
    exists v. split; [exact H1|]. intros n. rewrite Eab, E2.
    apply H4; [right; exact He'|].
    rewrite Et. apply Qlt_trans with (1 := Hsmall). apply pow2_lt. lia.
Qed.
End Division.

(** ** Binary64 and binary32 *)

Lemma emin64 : emin 53 1024 = -1074.
Proof. reflexivity. Qed.

Lemma emin32 : emin 24 128 = -149.
Proof. reflexivity. Qed.

(** A finite float has the value [SF2Q] gives. *)
Lemma finiteAt_SF2Q (lo : Z) (x : spec_float) (v : Q) :
  finiteAt lo x v -> exists v', SF2Q x = Some v' /\ (v' == v)%Q.
Proof.
  destruct x as [s|s| |s m e]; simpl; try contradiction.
  - intros H. exists 0%Q. split; [reflexivity|]. rewrite H. reflexivity.
  - intros [_ H]. eexists. split; [reflexivity|]. rewrite H. reflexivity.
Qed.

(** An integer below [2 ^ 53] in absolute value is a binary64 number. *)
Lemma ofInt_exact (z : Z) :
  Z.abs z < 2 ^ 53 -> finiteAt (-1074) (b64_of_Z z 0) (inject_Z z).
Proof.
  intros Hz. unfold b64_of_Z.
  assert (Hv : (inject_Z z * pow2 0 == inject_Z z)%Q) by (rewrite pow2_0; ring).
  destruct (binary_normalize_exact 53 1024 ltac:(lia) z 0 53 false) as [H _].
  - rewrite Hv. rewrite <- pow2_Z by lia.
    assert (E : (Qabs (inject_Z z) == inject_Z (Z.abs z))%Q).
    { unfold Qabs, inject_Z. simpl. reflexivity. }
    rewrite E, <- Zlt_Qlt. exact Hz.
  - unfold emin; lia.
  - lia.
  - assert (Hd : Zdigits2 z <= 53).
    { destruct z as [|p|p]; simpl in *; try lia.
      - apply (Zdigits2_le (Zpos p) 53); lia.
      - apply (Zdigits2_le (Zpos p) 53); lia. }
    unfold fexp, emin. lia.
  - rewrite emin64 in H. eapply finiteAt_ext; [|exact H]. exact Hv.
Qed.

(** The floor of a finite float. *)
Lemma floorOf_spec (lo : Z) (x : spec_float) (v : Q) :
  finiteAt lo x v ->
  (inject_Z (floorOf x) <= v /\ v < inject_Z (floorOf x) + 1)%Q.
Proof.
  destruct x as [s|s| |s m e]; simpl; try contradiction.
  - intros ->. change (inject_Z 0) with 0%Q. lra.
  - intros [_ ->]. set (M := cond_Zopp s (Zpos m)).
    destruct (Z.le_gt_cases 0 e) as [He|He].
    + rewrite Z.shiftl_mul_pow2 by lia. rewrite inject_Z_mult, pow2_Z by lia. lra.
    + rewrite Z.shiftl_div_pow2 by lia.
      assert (Hp : 0 < 2 ^ (- e)) by (apply Z.pow_pos_nonneg; lia).
      pose proof (Z.div_mod M (2 ^ (- e)) ltac:(lia)) as Hdm.
      pose proof (Z.mod_pos_bound M (2 ^ (- e)) Hp) as Hb.
      assert (Hq : (inject_Z M * pow2 e
                    == inject_Z (M / 2 ^ (- e))
                       + inject_Z (M mod 2 ^ (- e)) * pow2 e)%Q).
      { rewrite Hdm at 1. rewrite inject_Z_plus, inject_Z_mult, pow2_Z by lia.
        pose proof (pow2_cancel (- e)) as Hc. replace (- - e) with e in Hc by lia.
        rewrite Qmult_plus_distr_l.
        setoid_replace (pow2 (- e) * inject_Z (M / 2 ^ (- e)) * pow2 e)%Q
          with (inject_Z (M / 2 ^ (- e)) * (pow2 (- e) * pow2 e))%Q
          using relation Qeq by ring.
        rewrite Hc. ring. }
      assert (H0 : (0 <= inject_Z (M mod 2 ^ (- e)))%Q)
        by (change 0%Q with (inject_Z 0); rewrite <- Zle_Qle; lia).
      assert (H1 : (inject_Z (M mod 2 ^ (- e)) < pow2 (- e))%Q)
        by (rewrite <- pow2_Z by lia; rewrite <- Zlt_Qlt; lia).
      pose proof (pow2_pos e) as Hpe.
      pose proof (pow2_cancel (- e)) as Hc. replace (- - e) with e in Hc by lia.
      assert (H2 : (inject_Z (M mod 2 ^ (- e)) * pow2 e < 1)%Q).
      { rewrite <- Hc. apply Qmult_lt_compat_r; assumption. }
      assert (H3 : (0 <= inject_Z (M mod 2 ^ (- e)) * pow2 e)%Q)
        by (apply Qmult_le_0_compat; lra).
      lra.
Qed.

(** The floor of a float is the floor of its value. *)
Lemma floorOf_sides (lo : Z) (x : spec_float) (v : Q) (n : Z) :
  finiteAt lo x v ->
  ((inject_Z n <= v)%Q -> n <= floorOf x) /\ ((v < inject_Z n)%Q -> floorOf x < n).
Proof.
  intros Hx. destruct (floorOf_spec lo x v Hx) as [Hlo Hhi]. split; intros Hn.
  - assert (Hlt : (inject_Z n < inject_Z (floorOf x + 1))%Q).
    { rewrite inject_Z_plus. change (inject_Z 1) with 1%Q. lra. }
    rewrite <- Zlt_Qlt in Hlt. lia.
  - assert (Hlt : (inject_Z (floorOf x) < inject_Z n)%Q) by lra.
    rewrite <- Zlt_Qlt in Hlt. exact Hlt.
Qed.

(** A store into a [Float32Array]: one rounding to 24 binary digits. *)
Lemma b64_fround_error (lo : Z) (x : spec_float) (a : Q) :
  finiteAt lo x a ->
  (Qabs a < pow2 100)%Q ->
  (a == 0)%Q \/ (pow2 (-126) <= Qabs a)%Q ->
  exists v : Q,
    finiteAt (-1074) (b64_fround x) v
    /\ (Qabs (v - a) <= pow2 (-24) * Qabs a)%Q.
Proof.
  intros Hx Hlt Hnormal.
  destruct x as [s|s| |s m e]; simpl in Hx; try contradiction.
  - exists 0%Q. split; [reflexivity|].
    assert (E : (Qabs (0 - a) == 0)%Q) by (rewrite Hx; reflexivity).
    assert (E' : (Qabs a == 0)%Q) by (rewrite Hx; reflexivity).
    rewrite E, E'. lra.
  - destruct Hx as [_ Ha]. unfold b64_fround.
    destruct (binary_normalize_error 24 128 ltac:(lia) (cond_Zopp s (Zpos m)) e 100 s)
      as (v & H1 & H2 & H3).
    { rewrite <- Ha. exact Hlt. }
    { unfold emin; lia. }
    { lia. }
    { right. destruct Hnormal as [E|Hn].
      - exfalso. rewrite Ha, finite_value in E. pose proof (finite_pos m e).
        unfold signed in E. destruct s; lra.
      - right. rewrite <- Ha. exact Hn. }
    rewrite <- Ha in H3. change (- (24)) with (-24) in H3. exists v. split; [|exact H3].
    destruct (binary_normalize 24 128 (cond_Zopp s (Zpos m)) e s) as [s'|s'| |s' m' e'];
      simpl in H1; try contradiction.
    + exact H1.
    + destruct H1 as [He' Hv]. simpl in H2.
      destruct (binary_normalize_exact 53 1024 ltac:(lia) (cond_Zopp s' (Zpos m')) e' 101 s')
        as [H _].
      * rewrite <- Hv.
        assert (Hva : (Qabs v <= Qabs a + pow2 (-24) * Qabs a)%Q).
        { assert (Ev : (v == (v - a) + a)%Q) by ring.
          rewrite Ev at 1.
          eapply Qle_trans; [apply Qabs_triangle|].
          revert H3. generalize (Qabs (v - a)), (pow2 (-24) * Qabs a)%Q, (Qabs a).
          intros; lra. }
        assert (Hu : (pow2 (-24) <= 1)%Q) by (change 1%Q with (pow2 0); apply pow2_le; lia).
        pose proof (Qabs_nonneg a).
        assert (Qabs a + pow2 (-24) * Qabs a <= 2 * Qabs a)%Q by nra.
        replace 101 with (100 + 1) by lia. rewrite pow2_succ. lra.
      * unfold emin; lia.
      * lia.
      * assert (Hd : Zdigits2 (cond_Zopp s' (Zpos m')) <= 24).
        { destruct s'; simpl in *; exact H2. }
        unfold fexp, emin. rewrite emin32 in He'. lia.
      * rewrite emin64 in H. eapply finiteAt_ext; [|exact H]. symmetry. exact Hv.
Qed.

(** ** The error of a division *)

Section DivisionError.
Variables prec emax : Z.
Hypothesis prec_big : 1 < prec.
Hypothesis emin_neg : emin prec emax <= 0.
Hypothesis emax_big : prec - 1 <= emax - prec.

(** The quotient [SFdiv] rounds has at least [prec] binary digits, unless
    the result is subnormal. *)
Lemma SFdiv_core_binary_digits (mx my : positive) (ex ey : Z) :
  (pow2 (emin prec emax + prec)
   <= inject_Z (Zpos mx) * pow2 ex / (inject_Z (Zpos my) * pow2 ey))%Q ->
  2 ^ (prec - 1) <= fst (fst (SFdiv_core_binary prec emax (Zpos mx) ex (Zpos my) ey)).
Proof.
  intros Hbig. unfold SFdiv_core_binary.
  set (d1 := Zdigits2 (Zpos mx)). set (d2 := Zdigits2 (Zpos my)).
  set (e' := Z.min (fexp prec emax (d1 + ex - (d2 + ey))) (ex - ey)).
  set (s := ex - ey - e').
  assert (Hs : 0 <= s) by (unfold s, e'; lia).
  set (m' := match s with
             | 0 => Zpos mx
             | Zpos _ => Z.shiftl (Zpos mx) s
             | Zneg _ => 0
             end).
  assert (Em' : m' = Zpos mx * 2 ^ s).
  { unfold m'. destruct s as [|p|p] eqn:Es; [simpl; lia| |lia].
    rewrite Z.shiftl_mul_pow2 by lia. reflexivity. }
  pose proof (Z_div_mod m' (Zpos my) ltac:(lia)) as Hdiv.
  destruct (Z.div_eucl m' (Zpos my)) as [q r]. destruct Hdiv as [Hm' Hr].
  simpl fst.
  destruct (Zdigits2_spec (Zpos mx) ltac:(lia)) as (Hd1 & Hlo1 & Hhi1).
  destruct (Zdigits2_spec (Zpos my) ltac:(lia)) as (Hd2 & Hlo2 & Hhi2).
  fold d1 in Hd1, Hlo1, Hhi1. fold d2 in Hd2, Hlo2, Hhi2.
  pose proof (finite_pos mx ex) as Ha. pose proof (finite_pos my ey) as Hb.
  (* the quotient is below [2 ^ (d1 + ex - (d2 + ey) + 1)] *)
  assert (Hup : (inject_Z (Zpos mx) * pow2 ex / (inject_Z (Zpos my) * pow2 ey)
                 < pow2 (d1 + ex - (d2 + ey) + 1))%Q).
  { apply Qlt_shift_div_r; [exact Hb|].
    assert (H1 : (inject_Z (Zpos mx) * pow2 ex < pow2 (d1 + ex))%Q).
    { rewrite pow2_add. apply Qmult_lt_compat_r; [apply pow2_pos|].
      rewrite <- pow2_Z by lia. rewrite <- Zlt_Qlt. exact Hhi1. }
    assert (H2 : (pow2 (d2 - 1 + ey) <= inject_Z (Zpos my) * pow2 ey)%Q).
    { rewrite pow2_add. apply Qmult_le_compat_r; [|apply Qlt_le_weak, pow2_pos].
      rewrite <- pow2_Z by lia. rewrite <- Zle_Qle. exact Hlo2. }
    assert (H3 : (pow2 (d1 + ex - (d2 + ey) + 1) * pow2 (d2 - 1 + ey) == pow2 (d1 + ex))%Q).
    { rewrite <- pow2_add.
      replace (d1 + ex - (d2 + ey) + 1 + (d2 - 1 + ey)) with (d1 + ex) by lia.
      reflexivity. }
    pose proof (pow2_pos (d1 + ex - (d2 + ey) + 1)) as Hp.
    assert (pow2 (d1 + ex - (d2 + ey) + 1) * pow2 (d2 - 1 + ey)
            <= pow2 (d1 + ex - (d2 + ey) + 1) * (inject_Z (Zpos my) * pow2 ey))%Q.
    { apply Qmult_le_l; [exact Hp|exact H2]. }
    lra. }
  assert (HD : (pow2 (emin prec emax + prec) < pow2 (d1 + ex - (d2 + ey) + 1))%Q) by lra.
  apply pow2_lt_inv in HD.
  assert (Hs' : prec + d2 - d1 <= s) by (unfold s, e', fexp; lia).
  assert (Hmlow : 2 ^ (prec - 1) * 2 ^ d2 <= m').
  { rewrite Em'. rewrite <- Z.pow_add_r by lia.
    apply Z.le_trans with (2 ^ (d1 - 1) * 2 ^ s).
    - rewrite <- Z.pow_add_r by lia. apply Z.pow_le_mono_r; lia.
    - apply Z.mul_le_mono_nonneg_r; [|exact Hlo1]. apply Z.pow_nonneg. lia. }
  assert (Hp : 0 < 2 ^ (prec - 1)) by (apply Z.pow_pos_nonneg; lia).
  destruct (Z.le_gt_cases (2 ^ (prec - 1)) q) as [H|H]; [exact H|]. exfalso.
  assert (q * Zpos my + r < 2 ^ (prec - 1) * Zpos my) by nia.
  assert (2 ^ (prec - 1) * Zpos my < 2 ^ (prec - 1) * 2 ^ d2) by nia.
  lia.
Qed.

(** A division in the normal range is within a relative error of
    [2 ^ (- prec)]. *)
Lemma SFdiv_error (lo lo' : Z) (x y : spec_float) (a b : Q) :
  finiteAt lo x a -> finiteAt lo' y b -> ~ (b == 0)%Q ->
  (Qabs (a / b) < pow2 (prec - 1))%Q ->
  (pow2 (emin prec emax + prec) <= Qabs (a / b))%Q ->
  exists v : Q,
    finiteAt (emin prec emax) (SFdiv prec emax x y) v
    /\ (Qabs (v - a / b) <= pow2 (- prec) * Qabs (a / b))%Q.
Proof.
  intros Hx Hy Hb0 Hsmall Hbig.
  destruct x as [sx|sx| |sx mx ex], y as [sy|sy| |sy my ey];
    simpl in Hx, Hy; try contradiction.
  - exfalso. assert (E : (a / b == 0)%Q) by (rewrite Hx; field; exact Hb0).
    rewrite E in Hbig. change (Qabs 0) with 0%Q in Hbig.
    pose proof (pow2_pos (emin prec emax + prec)). lra.
  - destruct Hx as [_ Ha], Hy as [_ Hb]. rewrite finite_value in Ha, Hb.
    pose proof (finite_pos mx ex) as HA. pose proof (finite_pos my ey) as HB.
    pose proof (SFdiv_core_binary_digits mx my ex ey) as Hdig.
    set (A := (inject_Z (Zpos mx) * pow2 ex)%Q) in *.
    set (B := (inject_Z (Zpos my) * pow2 ey)%Q) in *.
    assert (Eab : (a / b == signed (xorb sx sy) (A / B))%Q).
    { rewrite Ha, Hb. apply signed_xorb_div. lra. }
    assert (Hq0 : (0 < A / B)%Q) by (apply Qlt_shift_div_l; lra).
    assert (Eabs : (Qabs (a / b) == A / B)%Q).
    { rewrite Eab, Qabs_signed. apply Qabs_pos. lra. }
    rewrite Eabs in Hsmall, Hbig.
    specialize (Hdig Hbig).
    destruct (SFdiv_core_binary_spec prec emax emin_neg mx my ex ey Hsmall)
      as (q & e' & l & t & Ecore & Hq & He' & Hloc & Et).
    fold A B in Et. rewrite Ecore in Hdig. simpl fst in Hdig.
    simpl SFdiv. rewrite Ecore.
    destruct (round_aux_value prec emax ltac:(lia) (xorb sx sy)
                q e' l t (prec - 1) Hq Hloc ltac:(lia)) as (v & H1 & _ & H3 & H4 & H5 & _).
    { rewrite Et. exact Hsmall. }
    { lia. }
    { exact emax_big. }
    set (f := fexp prec emax (Zdigits2 q + e')) in *.
    destruct (located_bounds _ _ Hloc) as [Hlow Hhigh].
    destruct (located_of_loc q l) as [Emx _]. rewrite Emx in Hlow, Hhigh.
    pose proof (Zdigits2_ge q (prec - 1) ltac:(lia) Hdig) as Hdq.
    assert (Hposq : 0 < q) by (pose proof (Z.pow_pos_nonneg 2 (prec - 1)); lia).
    destruct (Zdigits2_spec q Hposq) as (_ & Hqlo & Hqhi).
    assert (Hthi : (t * pow2 e' < pow2 (Zdigits2 q + e'))%Q).
    { rewrite pow2_add. apply Qmult_lt_compat_r; [apply pow2_pos|].
      rewrite <- pow2_Z by lia.
      assert (Hq1 : (inject_Z q + 1 <= inject_Z (2 ^ Zdigits2 q))%Q).
      { change 1%Q with (inject_Z 1). rewrite <- inject_Z_plus, <- Zle_Qle. lia. }
      lra. }
    assert (Hnorm : (pow2 (emin prec emax + prec) < pow2 (Zdigits2 q + e'))%Q)
      by (rewrite Et in Hthi; lra).
    apply pow2_lt_inv in Hnorm.
    assert (Ef : f = Zdigits2 q + e' - prec) by (unfold f, fexp; lia).
    replace (Z.max e' f) with f in * by lia.
    assert (Hbound : (pow2 (f - 1) <= pow2 (- prec) * (t * pow2 e'))%Q).
    { replace (f - 1) with (- prec + (Zdigits2 q - 1 + e')) by lia.
      rewrite pow2_add. apply Qmult_le_l; [apply pow2_pos|].
      rewrite pow2_add. apply Qmult_le_compat_r; [|apply Qlt_le_weak, pow2_pos].
      apply Qle_trans with (inject_Z q); [|exact Hlow].
      rewrite <- pow2_Z by lia. rewrite <- Zle_Qle. exact Hqlo. }
    exists (signed (xorb sx sy) v). split.
    + apply (finiteAt_weaken f); [apply fexp_ge_emin|exact H1].
    + assert (E2 : (signed (xorb sx sy) v - a / b
                    == signed (xorb sx sy) (v - t * pow2 e'))%Q).
      { rewrite Eab. unfold signed. destruct (xorb sx sy); rewrite Et; ring. }
      rewrite E2, Qabs_signed, Eabs. rewrite <- Et. apply Qabs_bound; lra.
Qed.
End DivisionError.

(** ** Quotients below 1 *)

Lemma finiteAt_unique (lo lo' : Z) (x : spec_float) (v v' : Q) :
  finiteAt lo x v -> finiteAt lo' x v' -> (v == v')%Q.
Proof.
  destruct x as [s|s| |s m e]; simpl; try contradiction.
  - intros -> ->. reflexivity.
  - intros [_ ->] [_ ->]. reflexivity.
Qed.

(** A finite float of non-negative value is [+0], [-0] or positive. *)
Lemma finiteAt_positive (lo : Z) (s : bool) (m : positive) (e : Z) (v : Q) :
  finiteAt lo (S754_finite s m e) v -> (0 <= v)%Q -> s = false.
Proof.
  intros [_ Hv] H0. destruct s; [|reflexivity]. exfalso.
  rewrite finite_value in Hv. pose proof (finite_pos m e). unfold signed in Hv. lra.
Qed.

Section UnitGrid.
Variables prec emax : Z.
Hypothesis prec_big : 1 < prec.
Hypothesis emin_neg : emin prec emax <= 0.
Hypothesis emax_big : prec - 1 <= emax - prec.

(** The exponent [SFdiv] rounds at, for a quotient below 1. *)
Lemma SFdiv_core_binary_exponent (mx my : positive) (ex ey : Z) :
  (inject_Z (Zpos mx) * pow2 ex / (inject_Z (Zpos my) * pow2 ey) < 1)%Q ->
  snd (fst (SFdiv_core_binary prec emax (Zpos mx) ex (Zpos my) ey)) <= - prec.
Proof.
  intros Hsmall. unfold SFdiv_core_binary.
  set (d1 := Zdigits2 (Zpos mx)). set (d2 := Zdigits2 (Zpos my)).
  set (e' := Z.min (fexp prec emax (d1 + ex - (d2 + ey))) (ex - ey)).
  destruct (Z.div_eucl _ (Zpos my)) as [q r]. simpl.
  pose proof (finite_pos mx ex) as Ha. pose proof (finite_pos my ey) as Hb.
  destruct (Zdigits2_spec (Zpos mx) ltac:(lia)) as (Hd1 & Hlo1 & _).
  destruct (Zdigits2_spec (Zpos my) ltac:(lia)) as (Hd2 & _ & Hhi2).
  fold d1 in Hd1, Hlo1. fold d2 in Hd2, Hhi2.
  assert (Hlow : (pow2 (d1 + ex - (d2 + ey) - 1)
                 < inject_Z (Zpos mx) * pow2 ex / (inject_Z (Zpos my) * pow2 ey))%Q).
  { apply Qlt_shift_div_l; [exact Hb|].
    replace (d1 + ex - (d2 + ey) - 1) with (d1 - 1 + ex + - (d2 + ey)) by lia.
    rewrite pow2_add.
    assert (H1 : (pow2 (d1 - 1 + ex) <= inject_Z (Zpos mx) * pow2 ex)%Q).
    { rewrite pow2_add. apply Qmult_le_compat_r; [|apply Qlt_le_weak, pow2_pos].
      rewrite <- pow2_Z by lia. rewrite <- Zle_Qle. exact Hlo1. }
    assert (H2 : (inject_Z (Zpos my) * pow2 ey < pow2 (d2 + ey))%Q).
    { rewrite pow2_add. apply Qmult_lt_compat_r; [apply pow2_pos|].
      rewrite <- pow2_Z by lia. rewrite <- Zlt_Qlt. exact Hhi2. }
    pose proof (pow2_cancel (d2 + ey)) as Hc.
    pose proof (pow2_pos (d2 + ey)). pose proof (pow2_pos (- (d2 + ey))).
    pose proof (pow2_pos (d1 - 1 + ex)).
    assert (pow2 (d1 - 1 + ex) * pow2 (- (d2 + ey)) * (inject_Z (Zpos my) * pow2 ey)
            < pow2 (d1 - 1 + ex) * pow2 (- (d2 + ey)) * pow2 (d2 + ey))%Q.
    { apply Qmult_lt_l; [|exact H2]. apply Qmult_lt_0_compat; assumption. }
    assert (pow2 (d1 - 1 + ex) * pow2 (- (d2 + ey)) * pow2 (d2 + ey)
            == pow2 (d1 - 1 + ex))%Q.
    { rewrite <- Qmult_assoc. rewrite (Qmult_comm (pow2 (- (d2 + ey)))), Hc. ring. }
    lra. }
  assert (HD : (pow2 (d1 + ex - (d2 + ey) - 1) < pow2 0)%Q).
  { rewrite pow2_0. lra. }
  apply pow2_lt_inv in HD. unfold e', fexp, emin in *. lia.
Qed.

(** A quotient of non-negative numbers below 1 rounds on the same side of
    every multiple of [2 ^ (- prec)] as the quotient is. *)
Lemma SFdiv_unit_grid (lo lo' : Z) (x y : spec_float) (a b : Q) :
  finiteAt lo x a -> finiteAt lo' y b -> (0 <= a)%Q -> (0 < b)%Q -> (a / b < 1)%Q ->
  exists v : Q,
    finiteAt (emin prec emax) (SFdiv prec emax x y) v
    /\ forall n : Z,
         ((inject_Z n * pow2 (- prec) <= a / b -> inject_Z n * pow2 (- prec) <= v)
          /\ (a / b <= inject_Z n * pow2 (- prec) -> v <= inject_Z n * pow2 (- prec)))%Q.
Proof.
  intros Hx Hy Ha0 Hb0 Hsmall.
  destruct y as [sy|sy| |sy my ey]; simpl in Hy; try contradiction; [lra|].
  pose proof (finiteAt_positive lo' sy my ey b Hy ltac:(lra)) as ->.
  destruct x as [sx|sx| |sx mx ex]; simpl in Hx; try contradiction.
  - exists 0%Q. simpl SFdiv. split; [reflexivity|].
    assert (E : (a / b == 0)%Q) by (rewrite Hx; field; lra).
    intros n. rewrite E. tauto.
  - pose proof (finiteAt_positive lo sx mx ex a Hx Ha0) as ->.
    destruct Hx as [_ Ea], Hy as [_ Eb]. simpl cond_Zopp in Ea, Eb.
    pose proof (finite_pos mx ex) as HA. pose proof (finite_pos my ey) as HB.
    pose proof (SFdiv_core_binary_exponent mx my ex ey) as Hexp.
    set (A := (inject_Z (Zpos mx) * pow2 ex)%Q) in *.
    set (B := (inject_Z (Zpos my) * pow2 ey)%Q) in *.
    assert (Eab : (a / b == A / B)%Q) by (rewrite Ea, Eb; reflexivity).
    rewrite Eab in Hsmall. specialize (Hexp Hsmall).
    assert (Hsmall' : (A / B < pow2 (prec - 1))%Q).
    { apply Qlt_le_trans with (1 := Hsmall). rewrite <- pow2_0. apply pow2_le. lia. }
    destruct (SFdiv_core_binary_spec prec emax emin_neg mx my ex ey Hsmall')
      as (q & e' & l & t & Ecore & Hq & He' & Hloc & Et).
    fold A B in Et. rewrite Ecore in Hexp. simpl in Hexp.
    simpl SFdiv. rewrite Ecore. simpl xorb.
    destruct (round_aux_value prec emax ltac:(lia) false q e' l t (prec - 1) Hq Hloc
                ltac:(lia)) as (v & H1 & _ & H3 & _ & _ & H6).
    { rewrite Et. exact Hsmall'. }
    { lia. }
    { exact emax_big. }
    set (E := Z.max e' (fexp prec emax (Zdigits2 q + e'))) in *.
    destruct (located_bounds _ _ Hloc) as [Hlow _].
    destruct (located_of_loc q l) as [Emx _]. rewrite Emx in Hlow.
    assert (HE : E <= - prec).
    { assert (Hf : fexp prec emax (Zdigits2 q + e') <= - prec); [|unfold E; lia].
      destruct (Z.eq_dec q 0) as [->|Hq0].
      - simpl Zdigits2. unfold fexp, emin in *. lia.
      - destruct (Zdigits2_spec q ltac:(lia)) as (_ & Hqlo & _).
        assert (Hp : (pow2 (Zdigits2 q - 1 + e') < pow2 0)%Q).
        { rewrite pow2_0. apply Qle_lt_trans with (t * pow2 e')%Q; [|rewrite Et; exact Hsmall].
          rewrite pow2_add. apply Qmult_le_compat_r; [|apply Qlt_le_weak, pow2_pos].
          apply Qle_trans with (inject_Z q); [|exact Hlow].
          rewrite <- pow2_Z by (pose proof (Zdigits2_spec q ltac:(lia)); lia).
          rewrite <- Zle_Qle. exact Hqlo. }
        apply pow2_lt_inv in Hp. unfold fexp, emin in *. lia. }
    exists v. split.
    + pose proof (fexp_ge_emin prec emax (Zdigits2 q + e')) as Hmin.
      apply (finiteAt_weaken E); [unfold E; lia|].
      exact H1.
    + intros n. rewrite Eab, <- Et.
      assert (En : (inject_Z n * pow2 (- prec)
                    == inject_Z (n * 2 ^ (- prec - E)) * pow2 E)%Q).
      { rewrite inject_Z_mult, pow2_Z by lia.
        rewrite <- Qmult_assoc, <- pow2_add.
        replace (- prec - E + E) with (- prec) by lia. reflexivity. }
      rewrite En. apply H6.
Qed.
End UnitGrid.

(** * The crop in binary64 *)

(** ** The size of the crop *)

Lemma Math_floor_finite (lo : Z) (x : spec_float) (v : Q) :
  finiteAt lo x v -> Math_floor x = Whole (floorOf x).
Proof. destruct x; simpl; try contradiction; reflexivity. Qed.

(** The floor of a float that rounds on the same side of every integer as
    [t] is. *)
Lemma floor_sides (lo : Z) (x : spec_float) (v t : Q) :
  finiteAt lo x v ->
  (forall n : Z,
     ((inject_Z n <= t -> inject_Z n <= v) /\ (t <= inject_Z n -> v <= inject_Z n))%Q) ->
  forall n : Z,
    ((inject_Z n <= t)%Q -> n <= floorOf x) /\ ((t <= inject_Z n)%Q -> floorOf x <= n).
Proof.
  intros Hx Hmono n. destruct (floorOf_spec lo x v Hx) as [Hlo Hhi].
  destruct (Hmono n) as [H1 H2]. split; intros Hn.
  - apply (floorOf_sides lo x v n Hx). apply H1. exact Hn.
  - specialize (H2 Hn). rewrite Zle_Qle. lra.
Qed.

(** The binary64 quotient of two sizes is within [2 ^ -53] of the ratio. *)
Lemma ratio64_value (tw th : Z) :
  0 < tw < 2 ^ 24 -> 0 < th < 2 ^ 24 ->
  exists q : Q,
    finiteAt (-1074) (ratio64 tw th) q
    /\ (Qabs (q - inject_Z tw / inject_Z th)
        <= pow2 (-53) * (inject_Z tw / inject_Z th))%Q.
Proof.
  intros Htw Hth.
  assert (HTW : (0 < inject_Z tw)%Q) by (change 0%Q with (inject_Z 0); rewrite <- Zlt_Qlt; lia).
  assert (HTH : (0 < inject_Z th)%Q) by (change 0%Q with (inject_Z 0); rewrite <- Zlt_Qlt; lia).
  assert (HTW1 : (1 <= inject_Z tw)%Q) by (change 1%Q with (inject_Z 1); rewrite <- Zle_Qle; lia).
  assert (HTH1 : (1 <= inject_Z th)%Q) by (change 1%Q with (inject_Z 1); rewrite <- Zle_Qle; lia).
  assert (HTW2 : (inject_Z tw < pow2 24)%Q) by (rewrite <- pow2_Z by lia; rewrite <- Zlt_Qlt; lia).
  assert (HTH2 : (inject_Z th < pow2 24)%Q) by (rewrite <- pow2_Z by lia; rewrite <- Zlt_Qlt; lia).
  assert (Hr : (0 < inject_Z tw / inject_Z th)%Q) by (apply Qlt_shift_div_l; lra).
  assert (Eabs : (Qabs (inject_Z tw / inject_Z th) == inject_Z tw / inject_Z th)%Q)
    by (apply Qabs_pos; lra).
  destruct (SFdiv_error 53 1024 ltac:(lia) ltac:(unfold emin; lia) ltac:(lia)
              (-1074) (-1074) (b64_of_Z tw 0) (b64_of_Z th 0)
              (inject_Z tw) (inject_Z th)) as (q & H1 & H2).
  - apply ofInt_exact. lia.
  - apply ofInt_exact. lia.
  - lra.
  - rewrite Eabs. apply Qlt_shift_div_r; [exact HTH|].
    assert (pow2 24 <= pow2 (53 - 1))%Q by (apply pow2_le; lia).
    pose proof (pow2_pos (53 - 1)). nra.
  - rewrite Eabs. apply Qle_shift_div_l; [exact HTH|].
    assert (Hp : (pow2 (emin 53 1024 + 53) * pow2 24 <= 1)%Q).
    { rewrite <- pow2_add. change 1%Q with (pow2 0). apply pow2_le. unfold emin. lia. }
    pose proof (pow2_pos (emin 53 1024 + 53)). nra.
  - exists q. split; [exact H1|]. rewrite Eabs in H2. exact H2.
Qed.

(** Sizes as rationals. *)
Lemma size_bounds (n : Z) :
  0 <= n < 2 ^ 24 -> (0 <= inject_Z n /\ inject_Z n <= 16777215)%Q.
Proof.
  intros H. split.
  - change 0%Q with (inject_Z 0). rewrite <- Zle_Qle. lia.
  - change 16777215%Q with (inject_Z 16777215). rewrite <- Zle_Qle. lia.
Qed.

Lemma unit_roundoff : (pow2 (-53) == 1 # 9007199254740992)%Q.
Proof. reflexivity. Qed.

(** A number within [2 ^ -53] of [tw / th], multiplied by [th]. *)
Lemma ratio_times_height (tw th : Z) (q : Q) :
  0 < tw -> 0 < th ->
  (Qabs (q - inject_Z tw / inject_Z th) <= pow2 (-53) * (inject_Z tw / inject_Z th))%Q ->
  (inject_Z tw - pow2 (-53) * inject_Z tw <= q * inject_Z th
   /\ q * inject_Z th <= inject_Z tw + pow2 (-53) * inject_Z tw)%Q.
Proof.
  intros Htw Hth H.
  assert (HTH : (0 < inject_Z th)%Q) by (change 0%Q with (inject_Z 0); rewrite <- Zlt_Qlt; lia).
  apply Qabs_Qle_condition in H. destruct H as [H1 H2].
  assert (E : (inject_Z tw / inject_Z th * inject_Z th == inject_Z tw)%Q) by (field; lra).
  set (r := (inject_Z tw / inject_Z th)%Q) in *. clearbody r.
  set (u := pow2 (-53)) in *. clearbody u.
  split; nra.
Qed.

(** [Math.floor(w / r)] for a binary64 number [r] of value [q]: the
    quotient rounds on the same side of every integer as [w / q] is. *)
Lemma floor_quotient (lo w : Z) (r : spec_float) (q : Q) :
  0 <= w < 2 ^ 24 -> finiteAt lo r q -> (1 # 33554432 <= q)%Q ->
  exists z : Z,
    Math_floor (SFdiv 53 1024 (b64_of_Z w 0) r) = Whole z
    /\ forall n : Z,
         ((inject_Z n <= inject_Z w / q)%Q -> n <= z)
         /\ ((inject_Z w / q <= inject_Z n)%Q -> z <= n).
Proof.
  intros Hw Hr Hq1.
  destruct (size_bounds w Hw) as [HW0 HW1].
  assert (Hq0 : (0 < q)%Q) by lra.
  destruct (SFdiv_props 53 1024 ltac:(lia) ltac:(unfold emin; lia) ltac:(lia)
              (-1074) lo (b64_of_Z w 0) r (inject_Z w) q) as (v & Hv & Hmono).
  { apply ofInt_exact. lia. }
  { exact Hr. }
  { lra. }
  { rewrite Qabs_pos by (apply Qle_shift_div_l; lra).
    apply Qlt_shift_div_r; [exact Hq0|].
    assert (E : (pow2 (53 - 1) == 4503599627370496)%Q) by reflexivity.
    rewrite E. nra. }
  exists (floorOf (SFdiv 53 1024 (b64_of_Z w 0) r)).
  split; [exact (Math_floor_finite _ _ _ Hv)|].
  exact (floor_sides _ _ _ _ Hv Hmono).
Qed.

(** [Math.floor(h * r)], likewise. *)
Lemma floor_product (lo h : Z) (r : spec_float) (q : Q) :
  0 <= h < 2 ^ 24 -> finiteAt lo r q -> (0 <= q)%Q -> (q <= 33554432)%Q ->
  exists z : Z,
    Math_floor (SFmul 53 1024 (b64_of_Z h 0) r) = Whole z
    /\ forall n : Z,
         ((inject_Z n <= inject_Z h * q)%Q -> n <= z)
         /\ ((inject_Z h * q <= inject_Z n)%Q -> z <= n).
Proof.
  intros Hh Hr Hq0 Hq1.
  destruct (size_bounds h Hh) as [HH0 HH1].
  assert (Hprod : (0 <= inject_Z h * q)%Q) by nra.
  assert (Hsmall : (Qabs (inject_Z h * q) < pow2 53)%Q).
  { rewrite Qabs_pos by exact Hprod.
    assert (E : (pow2 53 == 9007199254740992)%Q) by reflexivity.
    rewrite E. nra. }
  destruct (SFmul_props 53 1024 ltac:(lia) ltac:(unfold emin; lia)
              (-1074) lo (b64_of_Z h 0) r (inject_Z h) q 53) as (v & Hv & _ & Hmono).
  { apply ofInt_exact. lia. }
  { exact Hr. }
  { exact Hsmall. }
  { unfold emin. lia. }
  { lia. }
  specialize (Hmono Hsmall).
  exists (floorOf (SFmul 53 1024 (b64_of_Z h 0) r)).
  split; [exact (Math_floor_finite _ _ _ Hv)|].
  exact (floor_sides _ _ _ _ Hv Hmono).
Qed.









(** Two sizes on which the binary64 crop and the crop in exact arithmetic
    differ: on a 100 by 100 raster with the target 29 by 50 the product
    [100 * 0.58] is below 58, and on a 2 by 49 raster with the target 1 by
    49 the product [49 * (1 / 49)] is below 1. *)
Lemma cropSize64_examples :
  cropSize64 100 100 (ratio64 29 50) = (Whole 57, Whole 100)
  /\ cropSize 100 100 (inject_Z 29 / inject_Z 50) = (58, 100)
  /\ cropSize64 2 49 (ratio64 1 49) = (Whole 0, Whole 49)
  /\ cropSize 2 49 (inject_Z 1 / inject_Z 49) = (1, 49).
Proof. repeat split; vm_compute; reflexivity. Qed.

(** ** The binary64 crop stays inside the raster *)

Lemma SF2Q_finiteAt (x : spec_float) (q : Q) :
  SF2Q x = Some q -> exists lo : Z, finiteAt lo x q.
Proof.
  destruct x as [s|s| |s m e]; simpl; try discriminate.
  - intros [= <-]. exists 0. reflexivity.
  - intros [= <-]. exists e. split; [lia|reflexivity].
Qed.

(** The crop of a binary64 ratio [r] of value [q] is inside the raster. *)
Lemma cropSize64_inside (w h : Z) (r : spec_float) :
  between (pow2 (-25)) (pow2 25) r ->
  0 <= w < 2 ^ 24 -> 0 <= h < 2 ^ 24 ->
  exists cropW cropH : Z,
    cropSize64 w h r = (Whole cropW, Whole cropH)
    /\ 0 <= cropW <= w /\ 0 <= cropH <= h.
Proof.
  unfold between. destruct (SF2Q r) as [q|] eqn:Hr; [|contradiction].
  intros [Hq1 Hq2] Hw Hh. destruct (SF2Q_finiteAt r q Hr) as [lo Hf].
  assert (E1 : (pow2 (-25) == 1 # 33554432)%Q) by reflexivity.
  assert (E2 : (pow2 25 == 33554432)%Q) by reflexivity.
  rewrite E1 in Hq1. rewrite E2 in Hq2.
  assert (Hq0 : (0 < q)%Q) by lra.
  destruct (size_bounds w Hw) as [HW0 HW1]. destruct (size_bounds h Hh) as [HH0 HH1].
  destruct (floor_quotient lo w r q Hw Hf Hq1) as (z1 & Ez1 & Hz1).
  destruct (floor_product lo h r q Hh Hf ltac:(lra) Hq2) as (z2 & Ez2 & Hz2).
  assert (Hz1pos : 0 <= z1).
  { apply (Hz1 0). change (inject_Z 0) with 0%Q. apply Qle_shift_div_l; lra. }
  assert (Hz2pos : 0 <= z2).
  { apply (Hz2 0). change (inject_Z 0) with 0%Q. nra. }
  unfold cropSize64. rewrite Ez1, Ez2. simpl exceeds.
  destruct (Z.gtb_spec z1 h) as [Hgt|Hle].
  - exists z2, h. split; [reflexivity|]. split; [|lia]. split; [exact Hz2pos|].
    apply (Hz2 w).
    destruct (Qlt_le_dec (inject_Z w) (inject_Z h * q)) as [Hlt|Hge]; [|exact Hge].
    exfalso. assert (z1 <= h); [|lia]. apply (Hz1 h).
    apply Qle_shift_div_r; [exact Hq0|]. lra.
  - exists w, z1. split; [reflexivity|]. lia.
Qed.

(** X20. In binary64 as well, the rectangle [findCoBrightestROI] returns lies
    inside the first raster's width and the effective height, and its
    corner has both coordinates multiples of 4: for every finite ratio
    between [2 ^ -25] and [2 ^ 25] and sizes below [2 ^ 24]. *)
Theorem roi_containment_binary64 (img1 img2 : ImageData)
    (targetAspectRatio : spec_float) (clipBottom : Z) :
  between (pow2 (-25)) (pow2 25) targetAspectRatio ->
  0 <= width img1 < 2 ^ 24 -> height img1 - clipBottom < 2 ^ 24 ->
  exists R : Rect,
    findCoBrightestROI64 img1 img2 targetAspectRatio clipBottom = Some R
    /\ 0 <= rx R /\ 0 <= ry R /\ 0 <= rw R /\ 0 <= rh R
    /\ rx R + rw R <= width img1
    /\ ry R + rh R <= Z.max 1 (height img1 - clipBottom)
    /\ rx R mod 4 = 0 /\ ry R mod 4 = 0.
Proof.
  intros Hr Hw Hh.
  set (h := Z.max 1 (height img1 - clipBottom)).
  destruct (cropSize64_inside (width img1) h targetAspectRatio Hr Hw
              ltac:(unfold h; lia)) as (cropW & cropH & Esize & HcW & HcH).
  unfold findCoBrightestROI64. fold h. rewrite Esize.
  pose proof (scan_ok (N := ieee)
                (computeIntegralImage (N := ieee) (data img1) (width img1) (height img1))
                (computeIntegralImage (N := ieee) (data img2) (width img1) (height img1))
                (width img1) cropW cropH (h - cropH)) as Hok.
  destruct (for_loop _ _ _ _ _ _) as [[m bx] by'].
  destruct Hok as [[Hx Hdx] [Hy Hdy]].
  eexists. split; [reflexivity|]. simpl.
  repeat split; try lia; apply Z.mod_divide; try lia; assumption.
Qed.

Lemma roi_containment_binary64_witness :
  (between (pow2 (-25)) (pow2 25) (ratio64 5 2)
   /\ 0 <= width halfBright < 2 ^ 24 /\ height halfBright - 2 < 2 ^ 24)
  /\ exists R : Rect,
       findCoBrightestROI64 halfBright halfBright (ratio64 5 2) 2 = Some R
       /\ 0 <= rx R /\ 0 <= ry R /\ 0 <= rw R /\ 0 <= rh R
       /\ rx R + rw R <= width halfBright
       /\ ry R + rh R <= Z.max 1 (height halfBright - 2)
       /\ rx R mod 4 = 0 /\ ry R mod 4 = 0.
Proof.
  split.
  - split; [vm_compute; split; discriminate|]. simpl. lia.
  - apply (roi_containment_binary64 halfBright halfBright (ratio64 5 2) 2).
    + vm_compute. split; discriminate.
    + simpl. lia.
    + simpl. lia.
Defined.

(** The binary64 quotient of two sizes is on the same side of every
    integer as the ratio. *)
Lemma ratio64_sides (tw th : Z) (q : Q) (lo : Z) :
  0 < tw < 2 ^ 24 -> 0 < th < 2 ^ 24 ->
  finiteAt lo (ratio64 tw th) q ->
  forall n : Z,
    ((inject_Z n <= inject_Z tw / inject_Z th -> inject_Z n <= q)
     /\ (inject_Z tw / inject_Z th <= inject_Z n -> q <= inject_Z n))%Q.
Proof.
  intros Htw Hth Hq.
  destruct (size_bounds tw ltac:(lia)) as [_ HTW1].
  assert (HTH : (1 <= inject_Z th)%Q) by (change 1%Q with (inject_Z 1); rewrite <- Zle_Qle; lia).
  assert (HTW : (1 <= inject_Z tw)%Q) by (change 1%Q with (inject_Z 1); rewrite <- Zle_Qle; lia).
  destruct (SFdiv_props 53 1024 ltac:(lia) ltac:(unfold emin; lia) ltac:(lia)
              (-1074) (-1074) (b64_of_Z tw 0) (b64_of_Z th 0)
              (inject_Z tw) (inject_Z th)) as (v & Hv & Hmono).
  { apply ofInt_exact. lia. }
  { apply ofInt_exact. lia. }
  { lra. }
  { rewrite Qabs_pos by (apply Qle_shift_div_l; lra).
    apply Qlt_shift_div_r; [lra|].
    assert (E : (pow2 (53 - 1) == 4503599627370496)%Q) by reflexivity.
    rewrite E. nra. }
  pose proof (finiteAt_unique _ _ _ _ _ Hv Hq) as E.
  intros n. rewrite <- E. apply Hmono.
Qed.

(** When the crop of the ratio of two target sizes is empty. *)
Lemma cropSize64_empty (w h tw th : Z) :
  0 <= w < 2 ^ 24 -> 1 <= h < 2 ^ 24 -> 0 < tw < 2 ^ 24 -> 0 < th < 2 ^ 24 ->
  exists cropW cropH : Z,
    cropSize64 w h (ratio64 tw th) = (Whole cropW, Whole cropH)
    /\ (tw <= w * th -> th < h * tw -> 1 <= cropW /\ 1 <= cropH)
    /\ (w * th < tw -> cropW = w /\ cropH = 0).
Proof.
  intros Hw Hh Htw Hth.
  destruct (ratio64_value tw th Htw Hth) as (q & Hr & Hq).
  pose proof (ratio64_sides tw th q (-1074) Htw Hth Hr) as Hsides.
  destruct (ratio_times_height tw th q ltac:(lia) ltac:(lia) Hq) as [Plo Phi].
  destruct (size_bounds w Hw) as [HW0 HW1].
  destruct (size_bounds h ltac:(lia)) as [HH0 HH1].
  destruct (size_bounds tw ltac:(lia)) as [_ HTW1].
  destruct (size_bounds th ltac:(lia)) as [_ HTH1].
  assert (HTW : (1 <= inject_Z tw)%Q) by (change 1%Q with (inject_Z 1); rewrite <- Zle_Qle; lia).
  assert (HTH : (1 <= inject_Z th)%Q) by (change 1%Q with (inject_Z 1); rewrite <- Zle_Qle; lia).
  pose proof unit_roundoff as Eu.
  set (u := pow2 (-53)) in *.
  assert (HP : (1 # 2 <= q * inject_Z th)%Q) by nra.
  assert (Hq0 : (0 < q)%Q) by nra.
  assert (Hq1 : (1 # 33554432 <= q)%Q) by nra.
  assert (Hq2 : (q <= 33554432)%Q) by nra.
  destruct (floor_quotient (-1074) w _ q Hw Hr Hq1) as (z1 & Ez1 & Hz1).
  destruct (floor_product (-1074) h _ q ltac:(lia) Hr ltac:(lra) Hq2) as (z2 & Ez2 & Hz2).
  unfold cropSize64. rewrite Ez1, Ez2. simpl exceeds.
  set (W := inject_Z w) in *. set (H := inject_Z h) in *.
  set (TW := inject_Z tw) in *. set (TH := inject_Z th) in *.
  assert (Hbig : tw <= w * th -> th < h * tw -> 1 <= w /\ 1 <= z1 /\ 1 <= z2).
  { intros H1 H2.
    assert (Hw1 : 1 <= w) by nia.
    assert (HR : (TW / TH <= W)%Q).
    { apply Qle_shift_div_r; [lra|]. unfold TW, W, TH.
      rewrite <- inject_Z_mult, <- Zle_Qle. exact H1. }
    assert (HqW : (q <= W)%Q) by (apply (Hsides w); exact HR).
    split; [exact Hw1|]. split.
    - apply (Hz1 1). change (inject_Z 1) with 1%Q. apply Qle_shift_div_l; lra.
    - apply (Hz2 1). change (inject_Z 1) with 1%Q.
      assert (HN : (TH + 1 <= H * TW)%Q).
      { unfold H, TH, TW. change 1%Q with (inject_Z 1).
        rewrite <- inject_Z_mult, <- inject_Z_plus, <- Zle_Qle. lia. }
      assert (HHP : (H * (TW - u * TW) <= H * (q * TH))%Q) by nra.
      assert (HHTW : (H * TW <= 281474976710656)%Q) by nra.
      assert (H3 : (1 * TH <= H * q * TH)%Q) by nra.
      nra. }
  assert (Hnone : w * th < tw -> z1 = 0).
  { intros H1.
    destruct (SFdiv_unit_grid 53 1024 ltac:(lia) ltac:(unfold emin; lia) ltac:(lia)
                (-1074) (-1074) (b64_of_Z w 0) (ratio64 tw th) W q)
      as (v & Hv & Hgrid).
    { apply ofInt_exact. lia. }
    { exact Hr. }
    { exact HW0. }
    { exact Hq0. }
    { apply Qlt_shift_div_r; [exact Hq0|].
      assert (HN : (W * TH + 1 <= TW)%Q).
      { unfold W, TH, TW. change 1%Q with (inject_Z 1).
        rewrite <- inject_Z_mult, <- inject_Z_plus, <- Zle_Qle. lia. }
      assert (H2 : (W * TH < q * TH)%Q) by nra.
      nra. }
    rewrite (Math_floor_finite _ _ _ Hv) in Ez1. injection Ez1 as <-.
    destruct (floorOf_spec _ _ _ Hv) as [Hfl Hfh].
    destruct (Hgrid 0) as [Hlow _]. destruct (Hgrid 9007199254740976) as [_ Hup].
    assert (Hv0 : (0 <= v)%Q).
    { change (inject_Z 0) with 0%Q in Hlow.
      assert (E0 : (0 * pow2 (- (53)) == 0)%Q) by ring. rewrite E0 in Hlow.
      apply Hlow. apply Qle_shift_div_l; lra. }
    assert (Hv1 : (v < 1)%Q).
    { assert (E1 : (inject_Z 9007199254740976 * pow2 (- (53))
                    == 9007199254740976 # 9007199254740992)%Q) by reflexivity.
      rewrite E1 in Hup.
      assert (v <= 9007199254740976 # 9007199254740992)%Q; [|lra].
      apply Hup. apply Qle_shift_div_r; [exact Hq0|].
      assert (HN : (W * TH + 1 <= TW)%Q).
      { unfold W, TH, TW. change 1%Q with (inject_Z 1).
        rewrite <- inject_Z_mult, <- inject_Z_plus, <- Zle_Qle. lia. }
      assert (HWTH : (W * TH <= 281474976710656)%Q) by nra.
      assert (HWT0 : (0 <= W * TH)%Q) by nra.
      assert (H2 : ((W * TH + 1) * (1 - u) <= q * TH)%Q) by nra.
      assert (H3 : (W * TH <= (9007199254740976 # 9007199254740992) * (q * TH))%Q).
      { apply Qle_trans
          with ((9007199254740976 # 9007199254740992) * ((W * TH + 1) * (1 - u)))%Q;
          [|nra].
        set (X := (W * TH)%Q) in *. clearbody X. clearbody u. nra. }
      nra. }
    destruct (floorOf_sides (-1074) _ v 0 ltac:(exact Hv)) as [Ha _].
    destruct (floorOf_sides (-1074) _ v 1 ltac:(exact Hv)) as [_ Hb].
    specialize (Ha Hv0). specialize (Hb Hv1). lia. }
  destruct (Z.gtb_spec z1 h) as [Hgt|Hle].
  - exists z2, h. split; [reflexivity|]. split.
    + intros H1 H2. destruct (Hbig H1 H2) as (_ & _ & H3). lia.
    + intros H1. specialize (Hnone H1). lia.
  - exists w, z1. split; [reflexivity|]. split.
    + intros H1 H2. destruct (Hbig H1 H2) as (H3 & H4 & _). lia.
    + intros H1. specialize (Hnone H1). lia.
Qed.

(** X2. The size of the crop [findCoBrightestROI] returns in binary64, for
    the ratio [r] of two target sizes. When [r] is at most the width and the
    effective height times [r] is above 1, the crop has at least one
    column and one row. When [r] is greater than the width, the crop keeps
    the full width and has no row: [Math.floor(w / r)] is 0. *)
Theorem binary64_crop_is_empty_beyond_width (img1 img2 : ImageData)
    (targetWidth targetHeight clipBottom : Z) :
  0 < targetWidth < 2 ^ 24 -> 0 < targetHeight < 2 ^ 24 ->
  0 <= width img1 < 2 ^ 24 -> height img1 - clipBottom < 2 ^ 24 ->
  exists R : Rect,
    findCoBrightestROI64 img1 img2 (ratio64 targetWidth targetHeight) clipBottom
    = Some R
    /\ (targetWidth <= width img1 * targetHeight ->
        targetHeight < Z.max 1 (height img1 - clipBottom) * targetWidth ->
        1 <= rw R /\ 1 <= rh R)
    /\ (width img1 * targetHeight < targetWidth ->
        rw R = width img1 /\ rh R = 0).
Proof.
  intros Htw Hth Hw Hh.
  set (h := Z.max 1 (height img1 - clipBottom)).
  destruct (cropSize64_empty (width img1) h targetWidth targetHeight Hw
              ltac:(unfold h; lia) Htw Hth) as (cropW & cropH & Esize & Hfull & Hnone).
  unfold findCoBrightestROI64. fold h. rewrite Esize.
  destruct (for_loop _ _ _ _ _ _) as [[m bx] by'].
  eexists. split; [reflexivity|]. simpl. split; assumption.
Qed.

Lemma binary64_crop_is_empty_beyond_width_witness :
  (0 < 5 < 2 ^ 24 /\ 0 < 2 < 2 ^ 24
   /\ 0 <= width (solid 2 4 0 0 0) < 2 ^ 24 /\ height (solid 2 4 0 0 0) - 0 < 2 ^ 24)
  /\ exists R : Rect,
       findCoBrightestROI64 (solid 2 4 0 0 0) (solid 2 4 0 0 0) (ratio64 5 2) 0 = Some R
       /\ (5 <= width (solid 2 4 0 0 0) * 2 ->
           2 < Z.max 1 (height (solid 2 4 0 0 0) - 0) * 5 ->
           1 <= rw R /\ 1 <= rh R)
       /\ (width (solid 2 4 0 0 0) * 2 < 5 ->
           rw R = width (solid 2 4 0 0 0) /\ rh R = 0).
Proof.
  split; [simpl; lia|].
  apply (binary64_crop_is_empty_beyond_width (solid 2 4 0 0 0) (solid 2 4 0 0 0) 5 2 0);
    simpl; lia.
Defined.

(** * The brightness sums in binary64 *)

(** ** Accumulated rounding errors *)

Lemma power_ge_1 (b : Q) (n : Z) : (1 <= b)%Q -> 0 <= n -> (1 <= b ^ n)%Q.
Proof.
  intros Hb Hn. pattern n. apply natlike_ind; [| |exact Hn].
  - simpl. lra.
  - intros k Hk IH. unfold Z.succ. rewrite Qpower_plus by lra.
    rewrite Qpower_1_r. nra.
Qed.

Lemma power_mono (b : Q) (n m : Z) :
  (1 <= b)%Q -> 0 <= n <= m -> (b ^ n <= b ^ m)%Q.
Proof.
  intros Hb Hnm. replace m with (n + (m - n)) by lia.
  rewrite Qpower_plus by lra.
  pose proof (power_ge_1 b n Hb ltac:(lia)).
  pose proof (power_ge_1 b (m - n) Hb ltac:(lia)). nra.
Qed.

Lemma power_linear_bound (u : Q) (n : Z) :
  (0 <= u)%Q -> 0 <= n -> (2 * inject_Z n * u <= 1)%Q ->
  ((1 + u) ^ n <= 1 + 2 * inject_Z n * u)%Q.
Proof.
  intros Hu Hn. pattern n. apply natlike_ind; [| |exact Hn].
  - intros _. simpl. change (inject_Z 0) with 0%Q. lra.
  - intros k Hk IH Hsmall. unfold Z.succ in *.
    rewrite inject_Z_plus in *. change (inject_Z 1) with 1%Q in *.
    rewrite Qpower_plus by lra. rewrite Qpower_1_r.
    assert (Hk0 : (0 <= inject_Z k)%Q) by (change 0%Q with (inject_Z 0); rewrite <- Zle_Qle; lia).
    assert (IH' : ((1 + u) ^ k <= 1 + 2 * inject_Z k * u)%Q) by (apply IH; nra).
    set (p := ((1 + u) ^ k)%Q) in *. clearbody p. nra.
Qed.

Lemma unit32 : (pow2 (-24) == 1 # 16777216)%Q.
Proof. reflexivity. Qed.

Lemma roundings_ge_1 (rows ops : Z) : 0 <= rows -> 0 <= ops -> (1 <= roundings rows ops)%Q.
Proof.
  intros Hr Ho. unfold roundings.
  pose proof (pow2_pos (-24)). pose proof (pow2_pos (-53)).
  pose proof (power_ge_1 (1 + pow2 (-24)) rows ltac:(lra) Hr).
  pose proof (power_ge_1 (1 + pow2 (-53)) ops ltac:(lra) Ho). nra.
Qed.

Lemma roundings_mono (rows ops rows' ops' : Z) :
  0 <= rows <= rows' -> 0 <= ops <= ops' ->
  (roundings rows ops <= roundings rows' ops')%Q.
Proof.
  intros Hr Ho. unfold roundings.
  pose proof (pow2_pos (-24)). pose proof (pow2_pos (-53)).
  pose proof (power_mono (1 + pow2 (-24)) rows rows' ltac:(lra) Hr).
  pose proof (power_mono (1 + pow2 (-53)) ops ops' ltac:(lra) Ho).
  pose proof (power_ge_1 (1 + pow2 (-24)) rows ltac:(lra) ltac:(lia)).
  pose proof (power_ge_1 (1 + pow2 (-53)) ops ltac:(lra) ltac:(lia)). nra.
Qed.

Lemma roundings_op (rows ops : Z) :
  0 <= ops ->
  (roundings rows ops * (1 + pow2 (-53)) == roundings rows (ops + 1))%Q.
Proof.
  intros Ho. unfold roundings. pose proof (pow2_pos (-53)).
  rewrite (Qpower_plus (1 + pow2 (-53))) by lra. rewrite Qpower_1_r. ring.
Qed.

Lemma roundings_row (rows ops : Z) :
  0 <= rows ->
  (roundings rows ops * (1 + pow2 (-24)) == roundings (rows + 1) ops)%Q.
Proof.
  intros Ho. unfold roundings. pose proof (pow2_pos (-24)).
  rewrite (Qpower_plus (1 + pow2 (-24))) by lra. rewrite Qpower_1_r. ring.
Qed.

Lemma roundings_0 : (roundings 0 0 == 1)%Q.
Proof. reflexivity. Qed.

(** Up to [2 ^ 20] rows and [2 ^ 22] operations the factor is linear in the
    number of rows. *)
Lemma roundings_bound (rows ops : Z) :
  0 <= rows <= 2 ^ 20 -> 0 <= ops <= 2 ^ 22 ->
  (roundings rows ops <= 1 + (2 * inject_Z rows + 1) * pow2 (-24))%Q.
Proof.
  intros Hr Ho. unfold roundings.
  assert (HR : (0 <= inject_Z rows /\ inject_Z rows <= 1048576)%Q).
  { split; [change 0%Q with (inject_Z 0)|change 1048576%Q with (inject_Z 1048576)];
      rewrite <- Zle_Qle; lia. }
  assert (HO : (0 <= inject_Z ops /\ inject_Z ops <= 4194304)%Q).
  { split; [change 0%Q with (inject_Z 0)|change 4194304%Q with (inject_Z 4194304)];
      rewrite <- Zle_Qle; lia. }
  pose proof unit32 as E32. pose proof unit_roundoff as E64.
  pose proof (power_linear_bound (pow2 (-24)) rows ltac:(lra) ltac:(lia) ltac:(nra)) as H1.
  pose proof (power_linear_bound (pow2 (-53)) ops ltac:(lra) ltac:(lia) ltac:(nra)) as H2.
  pose proof (power_ge_1 (1 + pow2 (-24)) rows ltac:(lra) ltac:(lia)) as G1.
  pose proof (power_ge_1 (1 + pow2 (-53)) ops ltac:(lra) ltac:(lia)) as G2.
  set (p := ((1 + pow2 (-24)) ^ rows)%Q) in *. clearbody p.
  set (p' := ((1 + pow2 (-53)) ^ ops)%Q) in *. clearbody p'.
  set (u := pow2 (-24)) in *. clearbody u.
  set (u' := pow2 (-53)) in *. clearbody u'.
  set (R := inject_Z rows) in *. clearbody R.
  set (O := inject_Z ops) in *. clearbody O.
  assert (Hp : (p <= 9 # 8)%Q) by nra.
  assert (Hp' : (p' - 1 <= 1 # 1073741824)%Q) by nra.
  assert (Hprod : (p * p' == p + p * (p' - 1))%Q) by ring.
  rewrite Hprod.
  assert (p * (p' - 1) <= (9 # 8) * (1 # 1073741824))%Q by nra.
  nra.
Qed.

Lemma roundings_small (rows ops : Z) :
  0 <= rows <= 2 ^ 20 -> 0 <= ops <= 2 ^ 22 -> (roundings rows ops <= 5 # 4)%Q.
Proof.
  intros Hr Ho. pose proof (roundings_bound rows ops Hr Ho) as H.
  assert (HR : (0 <= inject_Z rows /\ inject_Z rows <= 1048576)%Q).
  { split; [change 0%Q with (inject_Z 0)|change 1048576%Q with (inject_Z 1048576)];
      rewrite <- Zle_Qle; lia. }
  pose proof unit32 as E32. set (u := pow2 (-24)) in *. clearbody u. nra.
Qed.

(** ** The relation [near] *)

Lemma near_ext (U U' v v' q q' : Q) :
  (U == U')%Q -> (v == v')%Q -> (q == q')%Q -> near U v q -> near U' v' q'.
Proof. unfold near. intros -> -> ->. tauto. Qed.

Lemma near_weaken (U U' v q : Q) :
  (U <= U')%Q -> (0 <= q)%Q -> near U v q -> near U' v q.
Proof. unfold near. intros HU Hq H. nra. Qed.

Lemma near_exact (U q : Q) : (1 <= U)%Q -> (0 <= q)%Q -> near U q q.
Proof.
  unfold near. intros HU Hq.
  setoid_replace (q - q)%Q with 0%Q using relation Qeq by ring.
  change (Qabs 0) with 0%Q. nra.
Qed.

Lemma near_abs (U v q : Q) : (0 <= q)%Q -> near U v q -> (Qabs v <= U * q)%Q.
Proof.
  unfold near. intros Hq H.
  assert (E : (v == (v - q) + q)%Q) by ring.
  rewrite E at 1. eapply Qle_trans; [apply Qabs_triangle|].
  rewrite (Qabs_pos q) by exact Hq. lra.
Qed.

Lemma near_low (U v q : Q) : near U v q -> ((2 - U) * q <= v)%Q.
Proof.
  unfold near. intros H. apply Qabs_Qle_condition in H. lra.
Qed.

Lemma near_zero (U v q : Q) : (q == 0)%Q -> near U v q -> (v == 0)%Q.
Proof.
  unfold near. intros E H. rewrite E in H. apply Qabs_Qle_condition in H. lra.
Qed.

Lemma near_add (U v1 v2 q1 q2 : Q) :
  near U v1 q1 -> near U v2 q2 -> near U (v1 + v2) (q1 + q2).
Proof.
  unfold near. intros H1 H2.
  assert (E : (v1 + v2 - (q1 + q2) == (v1 - q1) + (v2 - q2))%Q) by ring.
  rewrite E. eapply Qle_trans; [apply Qabs_triangle|]. lra.
Qed.

(** One more rounding of relative error [u]. *)
Lemma near_round (U u v v' q : Q) :
  (1 <= U)%Q -> (0 <= u)%Q -> (0 <= q)%Q ->
  near U v q -> (Qabs (v' - v) <= u * Qabs v)%Q ->
  near (U * (1 + u)) v' q.
Proof.
  intros HU Hu Hq Hv Hr. pose proof (near_abs U v q Hq Hv) as Ha.
  unfold near in *.
  assert (E : (v' - q == (v' - v) + (v - q))%Q) by ring.
  rewrite E. eapply Qle_trans; [apply Qabs_triangle|].
  pose proof (Qabs_nonneg v).
  set (A := Qabs v) in *. clearbody A.
  set (B := Qabs (v' - v)) in *. clearbody B.
  set (C := Qabs (v - q)) in *. clearbody C. nra.
Qed.

Lemma luminous_nonneg (q : Q) : luminous q -> (0 <= q)%Q.
Proof. intros [H|H]; lra. Qed.

Lemma luminous_add (q1 q2 : Q) : luminous q1 -> luminous q2 -> luminous (q1 + q2).
Proof.
  unfold luminous. intros [H1|H1] [H2|H2].
  - left. lra.
  - right. lra.
  - right. lra.
  - right. lra.
Qed.

(** ** The binary64 operations on bounded sums *)

Lemma holds_ext (x : spec_float) (U U' q q' : Q) :
  (U == U')%Q -> (q == q')%Q -> holds x U q -> holds x U' q'.
Proof.
  intros EU Eq (v & Hv & Hn). exists v. split; [exact Hv|].
  apply (near_ext U U' v v q q' EU (Qeq_refl v) Eq Hn).
Qed.

Lemma holds_weaken (x : spec_float) (U U' q : Q) :
  (U <= U')%Q -> (0 <= q)%Q -> holds x U q -> holds x U' q.
Proof.
  intros HU Hq (v & Hv & Hn). exists v. split; [exact Hv|].
  exact (near_weaken U U' v q HU Hq Hn).
Qed.

Lemma holds_zero (U : Q) : (1 <= U)%Q -> holds (b64_of_Z 0 0) U 0.
Proof.
  intros HU. exists 0%Q. split; [reflexivity|]. apply near_exact; lra.
Qed.

Lemma pow2_60 : (pow2 60 == 1152921504606846976)%Q.
Proof. reflexivity. Qed.

(** A sum in binary64. *)
Lemma holds_add (x y : spec_float) (U q1 q2 : Q) :
  (1 <= U)%Q -> (U <= 2)%Q -> (0 <= q1)%Q -> (0 <= q2)%Q -> (q1 + q2 <= pow2 60)%Q ->
  holds x U q1 -> holds y U q2 ->
  holds (SFadd 53 1024 x y) (U * (1 + pow2 (-53))) (q1 + q2).
Proof.
  intros HU1 HU2 Hq1 Hq2 Hsum (a & Ha & Na) (b & Hb & Nb).
  pose proof (near_add U a b q1 q2 Na Nb) as Nab.
  pose proof (near_abs U (a + b) (q1 + q2) ltac:(lra) Nab) as Habs.
  destruct (SFadd_error 53 1024 ltac:(lia) x y a b 62) as (v & Hv & Herr).
  - exact Ha.
  - exact Hb.
  - assert (E : (pow2 62 == 4 * pow2 60)%Q) by reflexivity.
    rewrite E. pose proof pow2_60 as E60. nra.
  - unfold emin. lia.
  - lia.
  - exists v. split; [exact Hv|].
    exact (near_round U (pow2 (-53)) (a + b) v (q1 + q2) HU1
             (Qlt_le_weak _ _ (pow2_pos (-53))) ltac:(lra) Nab Herr).
Qed.

(** A store into the [Float32Array]. *)
Lemma holds_fround (x : spec_float) (U q : Q) :
  (1 <= U)%Q -> (U <= 3 # 2)%Q -> luminous q -> (q <= pow2 60)%Q ->
  holds x U q ->
  holds (b64_fround x) (U * (1 + pow2 (-24))) q.
Proof.
  intros HU1 HU2 Hq Hmax (a & Ha & Na).
  pose proof (luminous_nonneg q Hq) as Hq0.
  pose proof (near_abs U a q Hq0 Na) as Habs.
  pose proof (near_low U a q Na) as Hlow.
  destruct (b64_fround_error (-1074) x a Ha) as (v & Hv & Herr).
  - assert (E : (pow2 100 == 1099511627776 * pow2 60)%Q) by reflexivity.
    rewrite E. pose proof pow2_60 as E60. nra.
  - destruct Hq as [E0|Hbig].
    + left. exact (near_zero U a q E0 Na).
    + right. apply Qle_trans with a; [|apply Qle_Qabs].
      assert (Hp : (pow2 (-126) <= 1 # 2000)%Q).
      { apply Qle_trans with (pow2 (-11)); [apply pow2_le; lia|].
        assert (E : (pow2 (-11) == 1 # 2048)%Q) by reflexivity. rewrite E.
        unfold Qle. simpl. lia. }
      nra.
  - exists v. split; [exact Hv|].
    exact (near_round U (pow2 (-24)) a v q HU1
             (Qlt_le_weak _ _ (pow2_pos (-24))) Hq0 Na Herr).
Qed.

(** A weight of the luminance times a byte. *)
Lemma holds_product (c : spec_float) (cv k : Q) (b : Z) :
  finiteAt (-1074) c cv ->
  (Qabs (cv - k) <= pow2 (-53) * k)%Q ->
  (1 # 10 <= k)%Q -> (k <= 1)%Q ->
  0 <= b <= 255 ->
  holds (SFmul 53 1024 c (b64_of_Z b 0)) (roundings 0 2) (k * inject_Z b).
Proof.
  intros Hc Hk Hk1 Hk2 Hb.
  assert (HB : (0 <= inject_Z b /\ inject_Z b <= 255)%Q).
  { split; [change 0%Q with (inject_Z 0)|change 255%Q with (inject_Z 255)];
      rewrite <- Zle_Qle; lia. }
  pose proof unit_roundoff as Eu.
  apply Qabs_Qle_condition in Hk.
  set (u := pow2 (-53)) in *.
  assert (Hcv : (0 < cv /\ cv <= 2)%Q) by (split; nra).
  assert (Hprod : (0 <= cv * inject_Z b)%Q) by nra.
  destruct (SFmul_props 53 1024 ltac:(lia) ltac:(unfold emin; lia)
              (-1074) (-1074) c (b64_of_Z b 0) cv (inject_Z b) 10)
    as (v & Hv & Herr & _).
  - exact Hc.
  - apply ofInt_exact. lia.
  - rewrite Qabs_pos by exact Hprod.
    assert (E : (pow2 10 == 1024)%Q) by reflexivity. rewrite E. nra.
  - unfold emin. lia.
  - lia.
  - assert (Hcase : (cv * inject_Z b == 0)%Q
                    \/ (pow2 (emin 53 1024 + 53 - 1) <= Qabs (cv * inject_Z b))%Q).
    { destruct (Z.eq_dec b 0) as [->|Hne].
      - left. change (inject_Z 0) with 0%Q. ring.
      - right. rewrite Qabs_pos by exact Hprod.
        assert (H1 : (1 <= inject_Z b)%Q)
          by (change 1%Q with (inject_Z 1); rewrite <- Zle_Qle; lia).
        assert (Hp : (pow2 (emin 53 1024 + 53 - 1) <= 1 # 20)%Q).
        { apply Qle_trans with (pow2 (-5)); [apply pow2_le; unfold emin; lia|].
          assert (E : (pow2 (-5) == 1 # 32)%Q) by reflexivity. rewrite E.
          unfold Qle. simpl. lia. }
        nra. }
    specialize (Herr Hcase). rewrite (Qabs_pos _ Hprod) in Herr.
    change (pow2 (- (53))) with u in Herr.
    exists v. split; [exact Hv|]. unfold near, roundings.
    assert (E2 : ((1 + pow2 (-24)) ^ 0 * (1 + pow2 (-53)) ^ 2 == (1 + u) * (1 + u))%Q).
    { unfold u. simpl. ring. }
    rewrite E2.
    assert (E : (v - k * inject_Z b
                 == (v - cv * inject_Z b) + (cv - k) * inject_Z b)%Q) by ring.
    rewrite E. eapply Qle_trans; [apply Qabs_triangle|].
    assert (H2 : (Qabs ((cv - k) * inject_Z b) <= u * k * inject_Z b)%Q).
    { apply Qabs_bound; nra. }
    set (B := inject_Z b) in *. clearbody B.
    set (E1 := Qabs (v - cv * B)) in *. clearbody E1.
    set (E3 := Qabs ((cv - k) * B)) in *. clearbody E3.
    clearbody u.
    assert (H3 : (cv * B <= (k + u * k) * B)%Q) by nra.
    assert (H4 : (u * (cv * B) <= u * ((k + u * k) * B))%Q) by nra.
    assert (H5 : (((1 + u) * (1 + u) - 1) * (k * B)
                  == u * ((k + u * k) * B) + u * k * B)%Q) by ring.
    rewrite H5. lra.
Qed.

(** The three weights. *)
Lemma c0299_value :
  exists cv : Q,
    finiteAt (-1074) (@c0299 ieee) cv
    /\ (Qabs (cv - (299 # 1000)) <= pow2 (-53) * (299 # 1000))%Q.
Proof.
  exists (5386305154335113 # 18014398509481984)%Q. split.
  - vm_compute. split; [discriminate|reflexivity].
  - vm_compute. discriminate.
Qed.

Lemma c0587_value :
  exists cv : Q,
    finiteAt (-1074) (@c0587 ieee) cv
    /\ (Qabs (cv - (587 # 1000)) <= pow2 (-53) * (587 # 1000))%Q.
Proof.
  exists (2643612981266481 # 4503599627370496)%Q. split.
  - vm_compute. split; [discriminate|reflexivity].
  - vm_compute. discriminate.
Qed.

Lemma c0114_value :
  exists cv : Q,
    finiteAt (-1074) (@c0114 ieee) cv
    /\ (Qabs (cv - (114 # 1000)) <= pow2 (-53) * (114 # 1000))%Q.
Proof.
  exists (8214565720323785 # 72057594037927936)%Q. split.
  - vm_compute. split; [discriminate|reflexivity].
  - vm_compute. discriminate.
Qed.

(** ** The exact sums of a raster of bytes *)

Lemma this_plus (a b : Qc) : (this (a + b)%Qc == this a + this b)%Q.
Proof. simpl. apply Qred_correct. Qed.

Lemma this_mult (a b : Qc) : (this (a * b)%Qc == this a * this b)%Q.
Proof. simpl. apply Qred_correct. Qed.

Lemma this_Q2Qc (q : Q) : (this (Q2Qc q) == q)%Q.
Proof. simpl. apply Qred_correct. Qed.

Lemma sumFrom_luminous (n : nat) (i : Z) (f : Z -> Qc) (M : Q) :
  (forall k, luminous (f k) /\ (f k <= M)%Q) ->
  luminous (sumFrom n i f) /\ (sumFrom n i f <= inject_Z (Z.of_nat n) * M)%Q.
Proof.
  intros Hf. revert i. induction n as [|n IH]; intros i; cbn [sumFrom].
  - split; [left; reflexivity|]. rewrite this_Q2Qc. change (inject_Z (Z.of_nat 0)) with 0%Q. lra.
  - destruct (IH (i + 1)) as [H1 H2]. destruct (Hf i) as [H3 H4]. split.
    + unfold luminous. rewrite this_plus. apply luminous_add; assumption.
    + rewrite this_plus. rewrite Nat2Z.inj_succ. unfold Z.succ.
      rewrite inject_Z_plus. change (inject_Z 1) with 1%Q. lra.
Qed.

Section ByteSums.
Variables (data : list Z) (W : Z).
Hypothesis data_bytes : Forall (fun b => 0 <= b <= 255) data.

Lemma channel_byte (i : Z) : 0 <= default 0 (index data i) <= 255.
Proof.
  destruct (index data i) as [b|] eqn:E; simpl; [|lia].
  unfold index in E. destruct (i <? 0); [discriminate|].
  rewrite Forall_lookup in data_bytes. exact (data_bytes _ _ E).
Qed.

Lemma pixelLuminance_value (x y : Z) :
  (this (pixelLuminance data W x y)
   == (299 # 1000) * inject_Z (default 0%Z (index data ((y * W + x) * 4)%Z))
      + (587 # 1000) * inject_Z (default 0%Z (index data ((y * W + x) * 4 + 1)%Z))
      + (114 # 1000) * inject_Z (default 0%Z (index data ((y * W + x) * 4 + 2)%Z)))%Q.
Proof.
  unfold pixelLuminance. cbv zeta.
  rewrite !this_plus, !this_mult, !this_Q2Qc.
  replace ((y * W + x) * 4 + 0) with ((y * W + x) * 4) by lia. reflexivity.
Qed.

Lemma pixelLuminance_luminous (x y : Z) :
  luminous (pixelLuminance data W x y) /\ (pixelLuminance data W x y <= 255)%Q.
Proof.
  unfold luminous. rewrite !pixelLuminance_value.
  pose proof (channel_byte ((y * W + x) * 4)) as Hr.
  pose proof (channel_byte ((y * W + x) * 4 + 1)) as Hg.
  pose proof (channel_byte ((y * W + x) * 4 + 2)) as Hb.
  set (r := default 0 (index data ((y * W + x) * 4))) in *. clearbody r.
  set (g := default 0 (index data ((y * W + x) * 4 + 1))) in *. clearbody g.
  set (b := default 0 (index data ((y * W + x) * 4 + 2))) in *. clearbody b.
  assert (HR : (0 <= inject_Z r /\ inject_Z r <= 255)%Q).
  { split; [change 0%Q with (inject_Z 0)|change 255%Q with (inject_Z 255)];
      rewrite <- Zle_Qle; lia. }
  assert (HG : (0 <= inject_Z g /\ inject_Z g <= 255)%Q).
  { split; [change 0%Q with (inject_Z 0)|change 255%Q with (inject_Z 255)];
      rewrite <- Zle_Qle; lia. }
  assert (HB : (0 <= inject_Z b /\ inject_Z b <= 255)%Q).
  { split; [change 0%Q with (inject_Z 0)|change 255%Q with (inject_Z 255)];
      rewrite <- Zle_Qle; lia. }
  split; [|lra].
  destruct (Z.eq_dec r 0) as [Er|Er], (Z.eq_dec g 0) as [Eg|Eg],
    (Z.eq_dec b 0) as [Eb|Eb];
    try (left; subst; change (inject_Z 0) with 0%Q; ring);
    right;
    repeat match goal with
           | H : ?z <> 0, Hz : 0 <= ?z <= 255 |- _ =>
               assert (1 <= inject_Z z)%Q
                 by (change 1%Q with (inject_Z 1); rewrite <- Zle_Qle; lia);
               clear H
           end; lra.
Qed.

Lemma rowPrefix_luminous (y x : Z) :
  luminous (rowPrefix data W y x)
  /\ (rowPrefix data W y x <= inject_Z (Z.max 0 (x + 1)) * 255)%Q.
Proof.
  unfold rowPrefix.
  destruct (sumFrom_luminous (Z.to_nat (x + 1)) 0
              (fun i => pixelLuminance data W i y) 255) as [H1 H2].
  - intros k. apply pixelLuminance_luminous.
  - split; [exact H1|]. rewrite ZifyInst.of_nat_to_nat_eq in H2. exact H2.
Qed.

Lemma prefixSum_luminous (y x : Z) :
  -1 <= x ->
  luminous (prefixSum data W y x)
  /\ (prefixSum data W y x <= inject_Z (Z.max 0 (y + 1)) * (inject_Z (x + 1) * 255))%Q.
Proof.
  intros Hx. unfold prefixSum.
  destruct (sumFrom_luminous (Z.to_nat (y + 1)) 0
              (fun j => rowPrefix data W j x) (inject_Z (x + 1) * 255)) as [H1 H2].
  - intros k. destruct (rowPrefix_luminous k x) as [H1 H2]. split; [exact H1|].
    replace (Z.max 0 (x + 1)) with (x + 1) in H2 by lia. exact H2.
  - split; [exact H1|]. rewrite ZifyInst.of_nat_to_nat_eq in H2. exact H2.
Qed.

(** Inside a raster of at most [2 ^ 20] by [2 ^ 20] pixels the sums are
    far below [2 ^ 60]. *)
Lemma prefixSum_small (H y x : Z) :
  W <= 2 ^ 20 -> H <= 2 ^ 20 -> -1 <= y < H -> -1 <= x < W ->
  (prefixSum data W y x <= pow2 59)%Q.
Proof.
  intros HW HH Hy Hx. destruct (prefixSum_luminous y x ltac:(lia)) as [_ Hb].
  eapply Qle_trans; [exact Hb|].
  replace (Z.max 0 (y + 1)) with (y + 1) by lia.
  assert (Hy1 : (0 <= inject_Z (y + 1) /\ inject_Z (y + 1) <= 1048576)%Q).
  { split; [change 0%Q with (inject_Z 0)|change 1048576%Q with (inject_Z 1048576)];
      rewrite <- Zle_Qle; lia. }
  assert (Hx1 : (0 <= inject_Z (x + 1) /\ inject_Z (x + 1) <= 1048576)%Q).
  { split; [change 0%Q with (inject_Z 0)|change 1048576%Q with (inject_Z 1048576)];
      rewrite <- Zle_Qle; lia. }
  assert (E : (pow2 59 == 576460752303423488)%Q) by reflexivity. rewrite E. nra.
Qed.

Lemma rowPrefix_small (y x : Z) :
  W <= 2 ^ 20 -> -1 <= x < W -> (rowPrefix data W y x <= pow2 59)%Q.
Proof.
  intros HW Hx. destruct (rowPrefix_luminous y x) as [_ Hb].
  eapply Qle_trans; [exact Hb|].
  replace (Z.max 0 (x + 1)) with (x + 1) by lia.
  assert (Hx1 : (0 <= inject_Z (x + 1) /\ inject_Z (x + 1) <= 1048576)%Q).
  { split; [change 0%Q with (inject_Z 0)|change 1048576%Q with (inject_Z 1048576)];
      rewrite <- Zle_Qle; lia. }
  assert (E : (pow2 59 == 576460752303423488)%Q) by reflexivity. rewrite E. nra.
Qed.
End ByteSums.

(** ** The integral image, as the code computes it *)

Section RoundedIntegral.
Variables (data : list Z) (W H : Z).
Hypothesis data_len : len data = W * H * 4.
Hypothesis data_bytes : Forall (fun b => 0 <= b <= 255) data.
Hypothesis W_small : W <= 2 ^ 20.
Hypothesis H_small : H <= 2 ^ 20.

Lemma roundings_fit (rows ops : Z) :
  0 <= rows <= 2 ^ 20 -> 0 <= ops <= 2 ^ 22 ->
  (1 <= roundings rows ops)%Q /\ (roundings rows ops <= 5 # 4)%Q.
Proof.
  intros Hr Ho. split; [apply roundings_ge_1; lia|apply roundings_small; assumption].
Qed.

Lemma luminance_binary64 (y x : Z) :
  0 <= y < H -> 0 <= x < W ->
  holds (luminance (N := ieee) data ((y * W + x) * 4)) (roundings 0 4)
    (pixelLuminance data W x y).
Proof.
  intros Hy Hx. pose proof (cell_index_bounds W H y x Hy Hx) as Hb.
  unfold luminance.
  destruct (index_lt_Some data ((y * W + x) * 4)) as [r Er]; [lia|].
  destruct (index_lt_Some data ((y * W + x) * 4 + 1)) as [g Eg]; [lia|].
  destruct (index_lt_Some data ((y * W + x) * 4 + 2)) as [b Eb]; [lia|].
  pose proof (channel_byte data data_bytes ((y * W + x) * 4)) as Hr.
  pose proof (channel_byte data data_bytes ((y * W + x) * 4 + 1)) as Hg.
  pose proof (channel_byte data data_bytes ((y * W + x) * 4 + 2)) as Hbb.
  pose proof (pixelLuminance_value data W x y) as Ev.
  rewrite Er, Eg, Eb in *. simpl default in *. cbn [byteNum].
  assert (HR : (0 <= inject_Z r /\ inject_Z r <= 255)%Q).
  { split; [change 0%Q with (inject_Z 0)|change 255%Q with (inject_Z 255)];
      rewrite <- Zle_Qle; lia. }
  assert (HG : (0 <= inject_Z g /\ inject_Z g <= 255)%Q).
  { split; [change 0%Q with (inject_Z 0)|change 255%Q with (inject_Z 255)];
      rewrite <- Zle_Qle; lia. }
  assert (HB : (0 <= inject_Z b /\ inject_Z b <= 255)%Q).
  { split; [change 0%Q with (inject_Z 0)|change 255%Q with (inject_Z 255)];
      rewrite <- Zle_Qle; lia. }
  destruct c0299_value as (c1 & Hc1 & Ec1).
  destruct c0587_value as (c2 & Hc2 & Ec2).
  destruct c0114_value as (c3 & Hc3 & Ec3).
  pose proof (holds_product _ c1 (299 # 1000) r Hc1 Ec1 ltac:(lra) ltac:(lra) Hr) as P1.
  pose proof (holds_product _ c2 (587 # 1000) g Hc2 Ec2 ltac:(lra) ltac:(lra) Hg) as P2.
  pose proof (holds_product _ c3 (114 # 1000) b Hc3 Ec3 ltac:(lra) ltac:(lra) Hbb) as P3.
  pose proof pow2_60 as E60.
  destruct (roundings_fit 0 2 ltac:(lia) ltac:(lia)) as [U2a U2b].
  destruct (roundings_fit 0 3 ltac:(lia) ltac:(lia)) as [U3a U3b].
  pose proof (holds_add _ _ (roundings 0 2) ((299 # 1000) * inject_Z r)
                ((587 # 1000) * inject_Z g) U2a ltac:(lra) ltac:(lra) ltac:(lra)
                ltac:(lra) P1 P2) as S1.
  apply (holds_ext _ _ (roundings 0 3) _ _ (roundings_op 0 2 ltac:(lia)) (Qeq_refl _))
    in S1.
  apply (holds_weaken _ _ (roundings 0 3) ((114 # 1000) * inject_Z b)
           (roundings_mono 0 2 0 3 ltac:(lia) ltac:(lia)) ltac:(lra)) in P3.
  pose proof (holds_add _ _ (roundings 0 3)
                ((299 # 1000) * inject_Z r + (587 # 1000) * inject_Z g)
                ((114 # 1000) * inject_Z b) U3a ltac:(lra) ltac:(lra) ltac:(lra)
                ltac:(lra) S1 P3) as S2.
  apply (holds_ext _ _ (roundings 0 4) _ (pixelLuminance data W x y)
           (roundings_op 0 3 ltac:(lia))) in S2; [exact S2|].
  symmetry. exact Ev.
Qed.

Lemma rowPrefix_start (y : Z) : (this (rowPrefix data W y (-1)) == 0)%Q.
Proof. reflexivity. Qed.

Lemma prefixSum_first_row (x : Z) :
  0 <= x -> (this (prefixSum data W 0 x) == this (rowPrefix data W 0 x))%Q.
Proof.
  intros Hx. rewrite (prefixSum_step data W 0 x) by lia. rewrite this_plus.
  assert (E : (this (prefixSum data W (0 - 1) x) == 0)%Q) by reflexivity.
  rewrite E. ring.
Qed.

Lemma integralCell_binary64 (y x : Z) (s : spec_float * list spec_float) :
  0 <= y < H -> 0 <= x < W ->
  cellsDone64 data W H y x s ->
  cellsDone64 data W H y (x + 1) (integralCell (N := ieee) data W y x s).
Proof.
  intros Hy Hx (Hsum & [Hlen Hrows] & Hcells). destruct s as [rowSum T].
  simpl in Hsum, Hlen, Hrows, Hcells.
  pose proof (cell_index_bounds W H y x Hy Hx) as Hb.
  pose proof pow2_60 as E60.
  assert (E59 : (pow2 59 == 576460752303423488)%Q) by reflexivity.
  (* the exact sums *)
  destruct (pixelLuminance_luminous data W data_bytes x y) as [HL HLmax].
  destruct (rowPrefix_luminous data W data_bytes y (x - 1)) as [HP _].
  destruct (rowPrefix_luminous data W data_bytes y x) as [HP' _].
  pose proof (rowPrefix_small data W data_bytes y (x - 1) W_small ltac:(lia)) as HPs.
  pose proof (rowPrefix_small data W data_bytes y x W_small ltac:(lia)) as HPs'.
  destruct (prefixSum_luminous data W data_bytes y x ltac:(lia)) as [HS _].
  pose proof (prefixSum_small data W data_bytes H y x W_small H_small ltac:(lia) ltac:(lia))
    as HSs.
  pose proof (luminous_nonneg _ HL) as HL0. pose proof (luminous_nonneg _ HP) as HP0.
  pose proof (luminous_nonneg _ HP') as HP0'.
  assert (Estep : (this (rowPrefix data W y (x - 1)) + this (pixelLuminance data W x y)
                   == this (rowPrefix data W y x))%Q).
  { rewrite (rowPrefix_step data W y x) by lia. rewrite this_plus. reflexivity. }
  (* the new row sum *)
  pose proof (luminance_binary64 y x Hy Hx) as Hlum.
  destruct (roundings_fit 0 (x + 4) ltac:(lia) ltac:(lia)) as [Ua Ub].
  apply (holds_weaken _ _ (roundings 0 (x + 4)) _
           (roundings_mono 0 4 0 (x + 4) ltac:(lia) ltac:(lia)) HL0) in Hlum.
  pose proof (holds_add _ _ (roundings 0 (x + 4)) _ _ Ua ltac:(lra) HP0 HL0
                ltac:(lra) Hsum Hlum) as Hrow.
  apply (holds_ext _ _ (roundings 0 (x + 5)) _ (rowPrefix data W y x)) in Hrow;
    [|rewrite roundings_op by lia; replace (x + 4 + 1) with (x + 5) by lia; reflexivity
     |exact Estep].
  unfold integralCell.
  change (@add ieee) with (SFadd 53 1024). change (@fround ieee) with b64_fround.
  set (rowSum' := SFadd 53 1024 rowSum (luminance (N := ieee) data ((y * W + x) * 4))) in *.
  assert (Hgoal : forall v,
            holds v (roundings (y + 1) (x + y + 5)) (prefixSum data W y x) ->
            cellsDone64 data W H y (x + 1) (rowSum', store T (y * W + x) v)).
  { intros v Hv. unfold cellsDone64, rowsDone64. simpl.
    replace (x + 1 - 1) with x by lia. replace (x + 1 + 4) with (x + 5) by lia.
    split; [exact Hrow|]. split; [split|].
    - rewrite len_store. exact Hlen.
    - intros j i Hj Hi. rewrite index_store_ne; [apply Hrows; assumption|].
      intros Heq. destruct (cell_index_inj W y x j i Hx Hi (eq_sym Heq)). lia.
    - intros i Hi. destruct (Z.eq_dec i x) as [->|Hne].
      + exists v. split; [apply index_store_eq; lia|exact Hv].
      + rewrite index_store_ne by lia. apply Hcells. lia. }
  destruct (roundings_fit 0 (x + 5) ltac:(lia) ltac:(lia)) as [Va Vb].
  destruct (Z.eqb_spec y 0) as [Hy0|Hy0]; apply Hgoal.
  - subst y.
    pose proof (holds_fround _ _ _ Va ltac:(lra) HP' ltac:(lra) Hrow) as Hcell.
    apply (holds_ext _ _ (roundings (0 + 1) (x + 0 + 5)) _ (prefixSum data W 0 x)) in Hcell;
      [exact Hcell| |].
    + rewrite roundings_row by lia. replace (x + 0 + 5) with (x + 5) by lia. reflexivity.
    + symmetry. apply prefixSum_first_row. lia.
  - destruct (Hrows (y - 1) x ltac:(lia) ltac:(lia)) as (c & Ec & Hc).
    change (@index (@num ieee)) with (@index spec_float).
    rewrite Ec. cbn [cellNum].
    replace (y - 1 + 1) with y in Hc by lia.
    replace (x + (y - 1) + 5) with (x + y + 4) in Hc by lia.
    destruct (prefixSum_luminous data W data_bytes (y - 1) x ltac:(lia)) as [HA _].
    pose proof (prefixSum_small data W data_bytes H (y - 1) x W_small H_small
                  ltac:(lia) ltac:(lia)) as HAs.
    pose proof (luminous_nonneg _ HA) as HA0.
    destruct (roundings_fit y (x + y + 4) ltac:(lia) ltac:(lia)) as [Wa Wb].
    destruct (roundings_fit y (x + y + 5) ltac:(lia) ltac:(lia)) as [Xa Xb].
    apply (holds_weaken _ _ (roundings y (x + y + 4)) _
             (roundings_mono 0 (x + 5) y (x + y + 4) ltac:(lia) ltac:(lia)) HP0') in Hrow.
    pose proof (holds_add _ _ (roundings y (x + y + 4)) _ _ Wa ltac:(lra) HP0' HA0
                  ltac:(lra) Hrow Hc) as Hsum2.
    apply (holds_ext _ _ (roundings y (x + y + 5)) _ (prefixSum data W y x)) in Hsum2.
    + pose proof (holds_fround _ _ _ Xa ltac:(lra) HS ltac:(lra) Hsum2) as Hcell.
      apply (holds_ext _ _ (roundings (y + 1) (x + y + 5)) _ (prefixSum data W y x))
        in Hcell; [exact Hcell| |reflexivity].
      rewrite roundings_row by lia. reflexivity.
    + rewrite roundings_op by lia. replace (x + y + 4 + 1) with (x + y + 5) by lia.
      reflexivity.
    + rewrite (prefixSum_step data W y x) by lia. rewrite this_plus. reflexivity.
Qed.

Lemma integralRow_binary64 (y : Z) (T : list spec_float) :
  0 <= y < H -> 0 <= W ->
  rowsDone64 data W H y T ->
  rowsDone64 data W H (y + 1) (integralRow (N := ieee) data W y T).
Proof.
  intros Hy HW HT. unfold integralRow.
  pose proof (for_loop_count W (integralCell (N := ieee) data W y)
                (fun x s => 0 <= x <= W /\ cellsDone64 data W H y x s)) as Hloop.
  destruct (Hloop) with (s := (@ofInt ieee 0, T)) as [_ (_ & [Hlen Hrows] & Hcells)].
  - intros x s Hx [_ Hs]. split; [lia|]. apply integralCell_binary64; assumption.
  - split; [lia|]. split; [|split; [exact HT|intros i Hi; lia]].
    simpl fst. apply (holds_ext _ (roundings 0 (0 + 4)) _ 0%Q); [reflexivity| |].
    + symmetry. apply rowPrefix_start.
    + apply holds_zero. apply roundings_ge_1; lia.
  - replace (Z.max 0 W) with W in Hcells by lia.
    split; [exact Hlen|]. intros j i Hj Hi.
    destruct (Z.eq_dec j y) as [->|Hne]; [apply Hcells; lia|apply Hrows; lia].
Qed.

(** The table of [computeIntegralImage], as the code computes it: the cell
    of row [y] and column [x] holds the sum of the luminance over the
    columns [0 .. x] of the rows [0 .. y], after [y + 1] roundings to
    binary32 and [x + y + 5] roundings to binary64. *)
Lemma computeIntegralImage_binary64 (y x : Z) :
  0 <= y < H -> 0 <= x < W ->
  exists c : spec_float,
    index (computeIntegralImage (N := ieee) data W H) (y * W + x) = Some c
    /\ holds c (roundings (y + 1) (x + y + 5)) (prefixSum data W y x).
Proof.
  intros Hy Hx. unfold computeIntegralImage.
  pose proof (for_loop_count H (integralRow (N := ieee) data W)
                (fun y T => 0 <= y <= H /\ rowsDone64 data W H y T)) as Hloop.
  destruct (Hloop) with (s := replicate (Z.to_nat (W * H)) (@ofInt ieee 0))
    as [_ [_ Hrows]].
  - intros j T Hj [_ HT]. split; [lia|]. apply integralRow_binary64; [lia|lia|exact HT].
  - split; [lia|]. split.
    + unfold len. rewrite length_replicate.
      pose proof (cell_index_bounds W H y x Hy Hx). lia.
    + intros j i Hj. lia.
  - apply Hrows; lia.
Qed.
End RoundedIntegral.

(** ** The four corners *)

(** One more term of a sum of signed numbers, added in floating point. *)
Lemma chain_step (P u t s t' c M c' : Q) :
  (1 <= P)%Q -> (0 <= u)%Q -> (0 <= M)%Q -> (0 <= c')%Q ->
  (Qabs (t - s) <= (P - 1) * M)%Q -> (Qabs s <= M)%Q -> (Qabs c <= c')%Q ->
  (Qabs (t' - (t + c)) <= u * Qabs (t + c))%Q ->
  (Qabs (t' - (s + c)) <= (P * (1 + u) - 1) * (M + c'))%Q
  /\ (Qabs (s + c) <= M + c')%Q
  /\ (Qabs (t + c) <= P * (M + c'))%Q.
Proof.
  intros HP Hu HM Hc' Hts Hs Hc Hr.
  assert (Ht : (Qabs t <= P * M)%Q).
  { assert (E : (t == (t - s) + s)%Q) by ring. rewrite E.
    eapply Qle_trans; [apply Qabs_triangle|]. lra. }
  assert (Htc : (Qabs (t + c) <= P * M + c')%Q).
  { eapply Qle_trans; [apply Qabs_triangle|]. lra. }
  split; [|split].
  - assert (E : (t' - (s + c) == (t' - (t + c)) + (t - s))%Q) by ring. rewrite E.
    eapply Qle_trans; [apply Qabs_triangle|].
    set (X := Qabs (t' - (t + c))) in *. clearbody X.
    set (Y := Qabs (t - s)) in *. clearbody Y.
    set (Z' := Qabs (t + c)) in *. clearbody Z'.
    assert (H1 : (u * Z' <= u * (P * M + c'))%Q) by nra.
    assert (H0 : (0 <= u * c')%Q) by (apply Qmult_le_0_compat; assumption).
    assert (H2 : (0 <= (P - 1) * (u * c' + c'))%Q)
      by (apply Qmult_le_0_compat; lra).
    assert (H3 : ((P * (1 + u) - 1) * (M + c')
                  == u * (P * M + c') + (P - 1) * M + (P - 1) * (u * c' + c'))%Q) by ring.
    rewrite H3. lra.
  - eapply Qle_trans; [apply Qabs_triangle|]. lra.
  - nra.
Qed.

(** Differences and sums in binary64. *)
Lemma sub64 (x y : spec_float) (a b : Q) :
  finiteAt (-1074) x a -> finiteAt (-1074) y b -> (Qabs (a - b) < pow2 70)%Q ->
  exists v : Q,
    finiteAt (-1074) (SFsub 53 1024 x y) v
    /\ (Qabs (v - (a + - b)) <= pow2 (-53) * Qabs (a + - b))%Q.
Proof.
  intros Ha Hb Hlt.
  destruct (SFsub_error 53 1024 ltac:(lia) x y a b 70 Ha Hb Hlt
              ltac:(unfold emin; lia) ltac:(lia)) as (v & Hv & Herr).
  exists v. split; [exact Hv|]. exact Herr.
Qed.

Lemma add64 (x y : spec_float) (a b : Q) :
  finiteAt (-1074) x a -> finiteAt (-1074) y b -> (Qabs (a + b) < pow2 70)%Q ->
  exists v : Q,
    finiteAt (-1074) (SFadd 53 1024 x y) v
    /\ (Qabs (v - (a + b)) <= pow2 (-53) * Qabs (a + b))%Q.
Proof.
  intros Ha Hb Hlt.
  exact (SFadd_error 53 1024 ltac:(lia) x y a b 70 Ha Hb Hlt
           ltac:(unfold emin; lia) ltac:(lia)).
Qed.

(** [D - B - C + A] on four floats near four non-negative numbers. *)
Lemma four_corners (fd fb fc fa : spec_float) (U D B C A : Q) :
  (1 <= U)%Q -> (U <= 5 # 4)%Q ->
  (0 <= D)%Q -> (0 <= B)%Q -> (0 <= C)%Q -> (0 <= A)%Q ->
  (D + B + C + A <= pow2 62)%Q ->
  holds fd U D -> holds fb U B -> holds fc U C -> holds fa U A ->
  exists v : Q,
    finiteAt (-1074) (SFadd 53 1024 (SFsub 53 1024 (SFsub 53 1024 fd fb) fc) fa) v
    /\ (Qabs (v - (D - B - C + A))
        <= (U * ((1 + pow2 (-53)) * (1 + pow2 (-53)) * (1 + pow2 (-53))) - 1)
           * (D + B + C + A))%Q.
Proof.
  intros HU1 HU2 HD HB HC HA Hsum (vd & Fd & Nd) (vb & Fb & Nb) (vc & Fc & Nc)
    (va & Fa & Na).
  pose proof (near_abs U vd D HD Nd) as Ad. pose proof (near_abs U vb B HB Nb) as Ab.
  pose proof (near_abs U vc C HC Nc) as Ac. pose proof (near_abs U va A HA Na) as Aa.
  assert (Hopp : forall q, (Qabs (- q) == Qabs q)%Q) by (intros q; apply Qabs_opp).
  pose proof unit_roundoff as Eu.
  assert (E62 : (pow2 62 == 4611686018427387904)%Q) by reflexivity.
  assert (E70 : (pow2 70 == 1180591620717411303424)%Q) by reflexivity.
  set (u := pow2 (-53)) in *.
  assert (Hu0 : (0 <= u)%Q) by lra.
  (* D - B *)
  assert (S0 : (Qabs (vd - vd) <= (1 - 1) * (U * D))%Q).
  { setoid_replace (vd - vd)%Q with 0%Q using relation Qeq by ring.
    change (Qabs 0) with 0%Q. lra. }
  assert (Hb' : (Qabs (- vb) <= U * B)%Q) by (rewrite Hopp; exact Ab).
  assert (Hc' : (Qabs (- vc) <= U * C)%Q) by (rewrite Hopp; exact Ac).
  assert (B1 : (Qabs (vd + - vb) <= U * D + U * B)%Q).
  { eapply Qle_trans; [apply Qabs_triangle|]. lra. }
  destruct (sub64 fd fb vd vb Fd Fb) as (t1 & F1 & R1).
  { apply Qle_lt_trans with (U * D + U * B)%Q; [exact B1|]. nra. }
  fold u in R1.
  destruct (chain_step 1 u vd vd t1 (- vb) (U * D) (U * B) ltac:(lra) Hu0 ltac:(nra)
              ltac:(nra) S0 Ad Hb' R1) as (C1 & M1 & _).
  (* - C *)
  assert (B2 : (Qabs (t1 + - vc) <= (1 + u) * (U * D + U * B) + U * C)%Q).
  { assert (E : (t1 + - vc == (t1 - (vd + - vb)) + ((vd + - vb) + - vc))%Q) by ring.
    rewrite E. eapply Qle_trans; [apply Qabs_triangle|].
    assert (Qabs (vd + - vb + - vc) <= U * D + U * B + U * C)%Q.
    { eapply Qle_trans; [apply Qabs_triangle|]. lra. }
    lra. }
  destruct (sub64 _ fc t1 vc F1 Fc) as (t2 & F2 & R2).
  { apply Qle_lt_trans with ((1 + u) * (U * D + U * B) + U * C)%Q; [exact B2|]. nra. }
  fold u in R2.
  destruct (chain_step (1 * (1 + u)) u t1 (vd + - vb) t2 (- vc) (U * D + U * B) (U * C)
              ltac:(lra) Hu0 ltac:(nra) ltac:(nra) C1 M1 Hc' R2) as (C2 & M2 & T2).
  (* + A *)
  assert (B3 : (Qabs (t2 + va)
                <= (1 * (1 + u) * (1 + u)) * (U * D + U * B + U * C + U * A))%Q).
  { destruct (chain_step (1 * (1 + u) * (1 + u)) 0 t2 (vd + - vb + - vc) (t2 + va) va
                (U * D + U * B + U * C) (U * A)) as (_ & _ & T3); try lra; try nra.
    - setoid_replace (t2 + va - (t2 + va))%Q with 0%Q using relation Qeq by ring.
      change (Qabs 0) with 0%Q. lra. }
  destruct (add64 _ fa t2 va F2 Fa) as (t3 & F3 & R3).
  { eapply Qle_lt_trans; [exact B3|]. nra. }
  fold u in R3.
  destruct (chain_step (1 * (1 + u) * (1 + u)) u t2 (vd + - vb + - vc) t3 va
              (U * D + U * B + U * C) (U * A)
              ltac:(nra) Hu0 ltac:(nra) ltac:(nra) C2 M2 Aa R3) as (C3 & M3 & _).
  exists t3. split; [exact F3|].
  assert (E : (t3 - (D - B - C + A)
               == (t3 - (vd + - vb + - vc + va))
                  + ((vd - D) + - (vb - B) + - (vc - C) + (va - A)))%Q) by ring.
  rewrite E. eapply Qle_trans; [apply Qabs_triangle|].
  assert (N4 : (Qabs ((vd - D) + - (vb - B) + - (vc - C) + (va - A))
                <= (U - 1) * (D + B + C + A))%Q).
  { unfold near in Nd, Nb, Nc, Na.
    eapply Qle_trans; [apply Qabs_triangle|].
    eapply Qle_trans; [apply Qplus_le_compat; [apply Qabs_triangle|apply Qle_refl]|].
    eapply Qle_trans;
      [apply Qplus_le_compat;
       [apply Qplus_le_compat; [apply Qabs_triangle|apply Qle_refl]|apply Qle_refl]|].
    rewrite !Hopp. lra. }
  set (X := Qabs (t3 - (vd + - vb + - vc + va))) in *. clearbody X.
  set (Y := Qabs (vd - D + - (vb - B) + - (vc - C) + (va - A))) in *. clearbody Y.
  clearbody u. nra.
Qed.

Section RectSum.
Variables (data : list Z) (W H : Z).
Hypothesis data_len : len data = W * H * 4.
Hypothesis data_bytes : Forall (fun b => 0 <= b <= 255) data.
Hypothesis W_small : W <= 2 ^ 20.
Hypothesis H_small : H <= 2 ^ 20.

(** A corner read by [getRectSum]: a cell of the table, or 0 left of and
    above the raster. *)
Lemma corner_binary64 (inside : bool) (j i rows ops : Z) :
  -1 <= j < H -> -1 <= i < W ->
  inside = (0 <=? j) && (0 <=? i) ->
  j + 1 <= rows <= 2 ^ 20 -> i + j + 5 <= ops <= 2 ^ 22 ->
  holds (if inside
         then cellNum (N := ieee)
                (index (computeIntegralImage (N := ieee) data W H) (j * W + i))
         else @ofInt ieee 0)
    (roundings rows ops) (prefixSum data W j i).
Proof.
  intros Hj Hi -> Hrows Hops.
  destruct (prefixSum_luminous data W data_bytes j i ltac:(lia)) as [HS _].
  pose proof (luminous_nonneg _ HS) as HS0.
  destruct (Z.leb_spec 0 j) as [Hj0|Hj0], (Z.leb_spec 0 i) as [Hi0|Hi0]; cbn [andb].
  - destruct (computeIntegralImage_binary64 data W H data_len data_bytes W_small H_small
                j i ltac:(lia) ltac:(lia)) as (c & Ec & Hc).
    rewrite Ec. cbn [cellNum].
    apply (holds_weaken _ (roundings (j + 1) (i + j + 5))); [|exact HS0|exact Hc].
    apply roundings_mono; lia.
  - replace i with (-1) by lia.
    apply (holds_ext _ (roundings rows ops) _ 0%Q); [reflexivity| |].
    + rewrite prefixSum_left. reflexivity.
    + apply holds_zero. apply roundings_ge_1; lia.
  - replace j with (-1) by lia.
    apply (holds_ext _ (roundings rows ops) _ 0%Q); [reflexivity|reflexivity|].
    apply holds_zero. apply roundings_ge_1; lia.
  - replace j with (-1) by lia.
    apply (holds_ext _ (roundings rows ops) _ 0%Q); [reflexivity|reflexivity|].
    apply holds_zero. apply roundings_ge_1; lia.
Qed.
End RectSum.

Lemma this_minus (a b : Qc) : (this (a - b)%Qc == this a - this b)%Q.
Proof.
  unfold Qcminus. rewrite this_plus. unfold Qcopp. rewrite this_Q2Qc. reflexivity.
Qed.

(** C3, as the code computes it. The table is a [Float32Array] filled with
    binary64 sums, so [getRectSum] does not return the sum over the
    rectangle of [0.299 R + 0.587 G + 0.114 B] but a binary64 number near
    it. On a raster of bytes of at most [2 ^ 20] by [2 ^ 20] pixels, and
    for a rectangle with [w >= 1] and [h >= 1] inside it, the result is
    finite and its distance from the sum is at most
    [roundings (y + h) (x + w + y + h + 6) - 1] times the sum of the four
    prefix sums it combines: the error of one rounding to binary32 for
    each row down to the bottom of the rectangle, and of the binary64
    operations. That factor is at most [(2 (y + h) + 1) / 2 ^ 24]. *)
Theorem rect_sum_binary64 (data : list Z) (width height x y w h : Z) :
  len data = width * height * 4 ->
  Forall (fun b => 0 <= b <= 255) data ->
  width <= 2 ^ 20 -> height <= 2 ^ 20 ->
  0 <= x -> 0 <= y -> 1 <= w -> 1 <= h ->
  x + w <= width -> y + h <= height ->
  exists v : Q,
    SF2Q (getRectSum (N := ieee) (computeIntegralImage (N := ieee) data width height)
            width x y w h) = Some v
    /\ (Qabs (v - bruteForceSum data width x y w h)
        <= (roundings (y + h) (x + w + y + h + 6) - 1) * cornerSum data width x y w h)%Q
    /\ (roundings (y + h) (x + w + y + h + 6) - 1
        <= (2 * inject_Z (y + h) + 1) * pow2 (-24))%Q.
Proof.
  intros Hlen Hbytes HW HH Hx Hy Hw Hh Hxw Hyh.
  set (U := roundings (y + h) (x + w + y + h + 3)).
  pose (corner := fun inside j i =>
          corner_binary64 data width height Hlen Hbytes HW HH inside j i
            (y + h) (x + w + y + h + 3)).
  pose proof (corner true (y + h - 1) (x + w - 1) ltac:(lia) ltac:(lia)) as HD.
  pose proof (corner (0 <? y) (y - 1) (x + w - 1) ltac:(lia) ltac:(lia)) as HB.
  pose proof (corner (0 <? x) (y + h - 1) (x - 1) ltac:(lia) ltac:(lia)) as HC.
  pose proof (corner ((0 <? x) && (0 <? y)) (y - 1) (x - 1) ltac:(lia) ltac:(lia)) as HA.
  cbv beta in HD, HB, HC, HA. fold U in HD, HB, HC, HA.
  specialize (HD ltac:(symmetry; apply andb_true_intro; split; apply Z.leb_le; lia)
                ltac:(lia) ltac:(lia)).
  specialize (HB ltac:(destruct (Z.ltb_spec 0 y), (Z.leb_spec 0 (y - 1)),
                         (Z.leb_spec 0 (x + w - 1)); simpl; (reflexivity || lia))
                ltac:(lia) ltac:(lia)).
  specialize (HC ltac:(destruct (Z.ltb_spec 0 x), (Z.leb_spec 0 (y + h - 1)),
                         (Z.leb_spec 0 (x - 1)); simpl; (reflexivity || lia))
                ltac:(lia) ltac:(lia)).
  specialize (HA ltac:(destruct (Z.ltb_spec 0 x), (Z.ltb_spec 0 y),
                         (Z.leb_spec 0 (y - 1)), (Z.leb_spec 0 (x - 1));
                         simpl; (reflexivity || lia))
                ltac:(lia) ltac:(lia)).
  cbv iota in HD.
  set (PD := prefixSum data width (y + h - 1) (x + w - 1)) in *.
  set (PB := prefixSum data width (y - 1) (x + w - 1)) in *.
  set (PC := prefixSum data width (y + h - 1) (x - 1)) in *.
  set (PA := prefixSum data width (y - 1) (x - 1)) in *.
  assert (HPD : (0 <= PD /\ PD <= pow2 59)%Q).
  { split; [apply luminous_nonneg, (prefixSum_luminous data width Hbytes); lia|].
    apply (prefixSum_small data width Hbytes height); lia. }
  assert (HPB : (0 <= PB /\ PB <= pow2 59)%Q).
  { split; [apply luminous_nonneg, (prefixSum_luminous data width Hbytes); lia|].
    apply (prefixSum_small data width Hbytes height); lia. }
  assert (HPC : (0 <= PC /\ PC <= pow2 59)%Q).
  { split; [apply luminous_nonneg, (prefixSum_luminous data width Hbytes); lia|].
    apply (prefixSum_small data width Hbytes height); lia. }
  assert (HPA : (0 <= PA /\ PA <= pow2 59)%Q).
  { split; [apply luminous_nonneg, (prefixSum_luminous data width Hbytes); lia|].
    apply (prefixSum_small data width Hbytes height); lia. }
  assert (E59 : (pow2 59 == 576460752303423488)%Q) by reflexivity.
  assert (E62 : (pow2 62 == 4611686018427387904)%Q) by reflexivity.
  assert (HU : (1 <= U)%Q /\ (U <= 5 # 4)%Q).
  { split; [apply roundings_ge_1; lia|apply roundings_small; lia]. }
  destruct (four_corners _ _ _ _ U PD PB PC PA ltac:(tauto) ltac:(tauto)
              ltac:(tauto) ltac:(tauto) ltac:(tauto) ltac:(tauto) ltac:(lra)
              HD HB HC HA) as (v & Fv & Herr).
  destruct (finiteAt_SF2Q _ _ _ Fv) as (v' & Ev' & Evv).
  exists v'. split; [exact Ev'|]. split.
  - rewrite Evv.
    assert (ES : (this (bruteForceSum data width x y w h) == PD - PB - PC + PA)%Q).
    { rewrite <- (prefixSum_rectangle data width x y w h) by lia.
      rewrite this_plus, !this_minus. reflexivity. }
    assert (EC : (this (cornerSum data width x y w h) == PD + PB + PC + PA)%Q).
    { unfold cornerSum. rewrite !this_plus. reflexivity. }
    rewrite ES, EC.
    assert (EU : (roundings (y + h) (x + w + y + h + 6)
                  == U * ((1 + pow2 (-53)) * (1 + pow2 (-53)) * (1 + pow2 (-53))))%Q).
    { pose proof (roundings_op (y + h) (x + w + y + h + 3) ltac:(lia)) as E1.
      pose proof (roundings_op (y + h) (x + w + y + h + 3 + 1) ltac:(lia)) as E2.
      pose proof (roundings_op (y + h) (x + w + y + h + 3 + 1 + 1) ltac:(lia)) as E3.
      replace (x + w + y + h + 3 + 1 + 1 + 1) with (x + w + y + h + 6) in E3 by lia.
      rewrite <- E3, <- E2, <- E1. unfold U. ring. }
    rewrite EU. exact Herr.
  - pose proof (roundings_bound (y + h) (x + w + y + h + 6) ltac:(lia) ltac:(lia)). lra.
Qed.

Lemma rect_sum_binary64_witness :
  (len (data fourPixels) = 2 * 2 * 4
   /\ Forall (fun b => 0 <= b <= 255) (data fourPixels)
   /\ 2 <= 2 ^ 20 /\ 2 <= 2 ^ 20
   /\ 0 <= 1 /\ 0 <= 1 /\ 1 <= 1 /\ 1 <= 1 /\ 1 + 1 <= 2 /\ 1 + 1 <= 2)
  /\ exists v : Q,
       SF2Q (getRectSum (N := ieee)
               (computeIntegralImage (N := ieee) (data fourPixels) 2 2) 2 1 1 1 1)
       = Some v
       /\ (Qabs (v - bruteForceSum (data fourPixels) 2 1 1 1 1)
           <= (roundings (1 + 1) (1 + 1 + 1 + 1 + 6) - 1)
              * cornerSum (data fourPixels) 2 1 1 1 1)%Q
       /\ (roundings (1 + 1) (1 + 1 + 1 + 1 + 6) - 1
           <= (2 * inject_Z (1 + 1) + 1) * pow2 (-24))%Q.
Proof.
  split.
  - split; [reflexivity|]. split; [|lia].
    simpl. repeat (constructor; [lia|]). constructor.
  - apply (rect_sum_binary64 (data fourPixels) 2 2 1 1 1 1); try lia.
    + reflexivity.
    + simpl. repeat (constructor; [lia|]). constructor.
Defined.

(** X1. The table of [computeIntegralImage] as the code computes it, with
    binary64 sums stored into a [Float32Array]. On a raster of bytes of at
    most [2 ^ 20] by [2 ^ 20] pixels, the cell of column [x] and row [y] is
    finite and within the relative error
    [roundings (y + 1) (x + y + 5) - 1], at most [(2 y + 3) / 2 ^ 24], of the
    luminance summed over the columns [0 .. x] of the rows [0 .. y]. *)
Theorem integral_table_binary64 (data : list Z) (width height x y : Z) :
  len data = width * height * 4 ->
  Forall (fun b => 0 <= b <= 255) data ->
  width <= 2 ^ 20 -> height <= 2 ^ 20 ->
  0 <= x < width -> 0 <= y < height ->
  exists (c : spec_float) (v : Q),
    index (computeIntegralImage (N := ieee) data width height) (y * width + x) = Some c
    /\ SF2Q c = Some v
    /\ (Qabs (v - prefixSum data width y x)
        <= (roundings (y + 1) (x + y + 5) - 1) * prefixSum data width y x)%Q
    /\ (roundings (y + 1) (x + y + 5) - 1 <= (2 * inject_Z y + 3) * pow2 (-24))%Q.
Proof.
  intros Hlen Hbytes HW HH Hx Hy.
  destruct (computeIntegralImage_binary64 data width height Hlen Hbytes HW HH y x Hy Hx)
    as (c & Ec & v & Fv & Nv).
  destruct (finiteAt_SF2Q _ _ _ Fv) as (v' & Ev' & Evv).
  exists c, v'. split; [exact Ec|]. split; [exact Ev'|]. split.
  - rewrite Evv. exact Nv.
  - pose proof (roundings_bound (y + 1) (x + y + 5) ltac:(lia) ltac:(lia)) as Hb.
    rewrite inject_Z_plus in Hb. change (inject_Z 1) with 1%Q in Hb. lra.
Qed.

Lemma integral_table_binary64_witness :
  (len (data fourPixels) = 2 * 2 * 4
   /\ Forall (fun b => 0 <= b <= 255) (data fourPixels)
   /\ 2 <= 2 ^ 20 /\ 2 <= 2 ^ 20 /\ 0 <= 1 < 2 /\ 0 <= 1 < 2)
  /\ exists (c : spec_float) (v : Q),
       index (computeIntegralImage (N := ieee) (data fourPixels) 2 2) (1 * 2 + 1) = Some c
       /\ SF2Q c = Some v
       /\ (Qabs (v - prefixSum (data fourPixels) 2 1 1)
           <= (roundings (1 + 1) (1 + 1 + 5) - 1) * prefixSum (data fourPixels) 2 1 1)%Q
       /\ (roundings (1 + 1) (1 + 1 + 5) - 1 <= (2 * inject_Z 1 + 3) * pow2 (-24))%Q.
Proof.
  split.
  - split; [reflexivity|]. split; [|lia].
    simpl. repeat (constructor; [lia|]). constructor.
  - apply (integral_table_binary64 (data fourPixels) 2 2 1 1); try lia.
    + reflexivity.
    + simpl. repeat (constructor; [lia|]). constructor.
Defined.
